(** * Panopticon Lattice: a shallow embedding of the simulation core

    The development follows the layout of the Python sources:

    - [Channels]      src/agents/channels.py      (CodeChannel)
    - [Worker]        src/agents/base_worker.py   (BaseWorker)
    - [Evolution]     src/adversary/evolver.py    (Evolver)
    - [Environment]   src/simulation/environment.py (SharedRepository)
    - [Metrics]       src/simulation/metrics.py   (NashMetrics)
    - [Overseer]      src/overseer/recommender.py, steering.py
    - [Engine]        src/simulation/engine.py    (SimulationEngine.step)

    Conventions.  Python [str] values are lists of characters; the model
    covers 7-bit ASCII text, which is what the character classes below
    implement (Python's [\s], [\w], [str.lower], [str.title] restricted
    to code points below 128).  Python [float] credits are modelled by
    exact rationals [Q]; Python [int] by [Z].  Every use of the [random]
    module is an explicit argument of the function that draws it. *)

From Stdlib Require Import Ascii String DecimalString.
From Stdlib Require Import ZArith NArith QArith Lia Lqa Bool List Sorted.
From Equations Require Import Equations.
Import ListNotations.
Open Scope list_scope.
Open Scope nat_scope.

Definition text := list ascii.

Definition str (s : string) : text := list_ascii_of_string s.

(* ------------------------------------------------------------------ *)
(** * Character classes and small string helpers *)
(* ------------------------------------------------------------------ *)

Module Chars.

Definition code (c : ascii) : N := N_of_ascii c.

Definition in_range (lo hi : N) (c : ascii) : bool :=
  ((lo <=? code c) && (code c <=? hi))%N.

Definition is_ascii7 (c : ascii) : bool := (code c <? 128)%N.
Definition is_lower (c : ascii) : bool := in_range 97 122 c.
Definition is_upper (c : ascii) : bool := in_range 65 90 c.
Definition is_digit (c : ascii) : bool := in_range 48 57 c.
Definition is_alpha (c : ascii) : bool := is_lower c || is_upper c.

(** Python's [\s] on [str] patterns and [str.isspace]: TAB, LF, VT, FF, CR,
    the four separators 0x1C-0x1F and the space. *)
Definition is_space (c : ascii) : bool := in_range 9 13 c || in_range 28 32 c.

(** Python's [\w] below 128: letters, digits and the underscore. *)
Definition is_word (c : ascii) : bool :=
  is_lower c || is_upper c || is_digit c || (c =? "_")%char.

Definition lower (c : ascii) : ascii :=
  if is_upper c then ascii_of_N (code c + 32) else c.
Definition upper (c : ascii) : ascii :=
  if is_lower c then ascii_of_N (code c - 32) else c.

Definition ascii_only (s : text) : bool := forallb is_ascii7 s.

(** [itertools.takewhile]/[dropwhile] in one pass. *)
Fixpoint span (p : ascii -> bool) (s : text) : text * text :=
  match s with
  | [] => ([], [])
  | c :: t => if p c then let (a, b) := span p t in (c :: a, b) else ([], s)
  end.

(** [s.startswith(p)], returning the remainder. *)
Fixpoint strip_prefix (p s : text) : option text :=
  match p, s with
  | [], _ => Some s
  | a :: p', b :: s' => if (a =? b)%char then strip_prefix p' s' else None
  | _ :: _, [] => None
  end.

(** [s.split(sep)] for a one-character separator: never the empty list. *)
Fixpoint split_on (sep : ascii) (s : text) : list text :=
  match s with
  | [] => [[]]
  | c :: t =>
      if (c =? sep)%char then [] :: split_on sep t
      else match split_on sep t with
           | w :: ws => (c :: w) :: ws
           | [] => [[c]]
           end
  end.

(** [str.title]: a letter is upper-cased unless the previous character is a
    letter, in which case it is lower-cased. *)
Fixpoint title_from (prev_cased : bool) (s : text) : text :=
  match s with
  | [] => []
  | c :: t => (if prev_cased then lower c else upper c) :: title_from (is_alpha c) t
  end.

Definition title (s : text) : text := title_from false s.

End Chars.

(* ------------------------------------------------------------------ *)
(** * Python values shared by several modules *)
(* ------------------------------------------------------------------ *)

Module Py.

Inductive exn := ValueError | IndexError | ZeroDivisionError | RuntimeError.

(** What a call does: it returns a value or raises. *)
Inductive result (A : Type) :=
| Ok (a : A)
| Raise (e : exn).
Arguments Ok {A} a.
Arguments Raise {A} e.

Definition bind {A B} (r : result A) (k : A -> result B) : result B :=
  match r with
  | Ok a => k a
  | Raise e => Raise e
  end.

Notation "x <- r ;; k" := (bind r (fun x => k))
  (at level 61, r at next level, right associativity).

Fixpoint mapM {A B} (f : A -> result B) (l : list A) : result (list B) :=
  match l with
  | [] => Ok []
  | a :: t => b <- f a ;; bs <- mapM f t ;; Ok (b :: bs)
  end.

(** [a % n] on integers: the sign follows the divisor, as for [Z.modulo]. *)
Definition py_mod (a n : Z) : result Z :=
  if (n =? 0)%Z then Raise ZeroDivisionError else Ok (a mod n)%Z.

(** [sorted(l, key=key, reverse=True)] and [l.sort(key=key, reverse=True)]:
    stable, so elements with equal keys keep their order. *)
Fixpoint insert_desc {A} (key : A -> Q) (a : A) (l : list A) : list A :=
  match l with
  | [] => [a]
  | b :: t => if Qle_bool (key b) (key a) then a :: l
              else b :: insert_desc key a t
  end.

Definition sorted_desc {A} (key : A -> Q) (l : list A) : list A :=
  fold_right (insert_desc key) [] l.

(** [l[idx] = x] for an index in range. *)
Fixpoint list_set {A} (l : list A) (idx : nat) (x : A) : list A :=
  match l, idx with
  | [], _ => []
  | _ :: t, O => x :: t
  | a :: t, S i => a :: list_set t i x
  end.

Fixpoint text_eqb (a b : text) : bool :=
  match a, b with
  | [], [] => true
  | x :: a', y :: b' => (x =? y)%char && text_eqb a' b'
  | _, _ => false
  end.

End Py.

(* ------------------------------------------------------------------ *)
(** * agents/channels.py *)
(* ------------------------------------------------------------------ *)

Module Channels.
Import Chars.

Inductive StyleType := neutral | snake_case | camel_case.

Definition StyleType_eqb (a b : StyleType) : bool :=
  match a, b with
  | neutral, neutral | snake_case, snake_case | camel_case, camel_case => true
  | _, _ => false
  end.

(** ** The pattern [def\s+(\w+)\s*\(]

    A match object keeps the three variable pieces of the matched text.  All
    three quantifiers are greedy, and giving back a character never helps:
    the character given back is a space (resp. a word character), which is
    neither what [\w+] (resp. [\s*\(]) needs next.  So the leftmost match at
    a position, when there is one, is the maximal-munch one. *)

Record Match := mkMatch { ws1 : text; name : text; ws2 : text }.

Definition group0 (m : Match) : text :=
  str "def" ++ ws1 m ++ name m ++ ws2 m ++ str "(".

Definition group1 (m : Match) : text := name m.

Definition match_def (s : text) : option (Match * text) :=
  match strip_prefix (str "def") s with
  | None => None
  | Some r =>
      let (w1, r1) := span is_space r in
      let (n, r2) := span is_word r1 in
      let (w2, r3) := span is_space r2 in
      match w1, n, r3 with
      | _ :: _, _ :: _, c :: r4 =>
          if (c =? "(")%char then Some (mkMatch w1 n w2, r4) else None
      | _, _, _ => None
      end
  end.

(** The terminating character of a match is consumed, so the text left
    after a match is strictly shorter: [re.sub] and [re.findall] always make
    progress. *)
Lemma span_length (p : ascii -> bool) (s : text) :
  length (fst (span p s)) + length (snd (span p s)) = length s.
Proof.
  induction s as [|c t IH]; simpl; [reflexivity|].
  destruct (p c); simpl; [|reflexivity].
  destruct (span p t); simpl in *; lia.
Qed.

Lemma strip_prefix_length (p s r : text) :
  strip_prefix p s = Some r -> length s = length p + length r.
Proof.
  revert s; induction p as [|a p IH]; intros [|b s] H; simpl in *;
    try discriminate; try (inversion H; reflexivity).
  destruct (a =? b)%char; [|discriminate].
  apply IH in H. lia.
Qed.

Lemma match_def_shorter (s : text) (m : Match) (rest : text) :
  match_def s = Some (m, rest) -> length rest < length s.
Proof.
  unfold match_def.
  destruct (strip_prefix (str "def") s) as [r|] eqn:Hp; [|discriminate].
  apply strip_prefix_length in Hp.
  pose proof (span_length is_space r) as H1.
  destruct (span is_space r) as [w1 r1].
  pose proof (span_length is_word r1) as H2.
  destruct (span is_word r1) as [n r2].
  pose proof (span_length is_space r2) as H3.
  destruct (span is_space r2) as [w2 r3].
  destruct w1; [discriminate|]. destruct n; [discriminate|].
  destruct r3 as [|c r4]; [discriminate|].
  destruct (c =? "(")%char; [|discriminate].
  intros H; inversion H; subst. simpl in *. lia.
Qed.

(** ** [re.finditer]: the text cut into matches and the characters between *)

Inductive token := Chr (c : ascii) | Def (m : Match).

Definition inspect {A : Type} (a : A) : {b : A | a = b} := exist _ a eq_refl.

Equations? scan (s : text) : list token by wf (length s) lt :=
  scan [] := [];
  scan (c :: t) with inspect (match_def (c :: t)) => {
    | exist _ (Some (m, rest)) _ := Def m :: scan rest;
    | exist _ None _ := Chr c :: scan t }.
Proof.
  match goal with H : match_def _ = Some _ |- _ =>
    apply match_def_shorter in H; exact H end.
Qed.

(** [re.sub(pattern, repl, code)] with a callable [repl]. *)
Definition re_sub (repl : Match -> text) (code : text) : text :=
  concat (map (fun t => match t with Chr c => [c] | Def m => repl m end)
              (scan code)).

(** [re.findall(pattern, code)]: the pattern has one group. *)
Definition re_findall (code : text) : list text :=
  flat_map (fun t => match t with Chr _ => [] | Def m => [group1 m] end)
           (scan code).

(** ** Name conversions *)

(** [re.sub('([a-z0-9])([A-Z])', r'\1_\2', name)]: matches do not overlap,
    the scan resumes after the upper-case letter. *)
Fixpoint insert_underscores (s : text) : text :=
  match s with
  | a :: (b :: r) as t =>
      if (is_lower a || is_digit a) && is_upper b
      then a :: "_"%char :: b :: insert_underscores r
      else a :: insert_underscores t
  | _ => s
  end.

Definition _camel_to_snake (name : text) : text :=
  map lower (insert_underscores name).

Definition _snake_to_camel (name : text) : text :=
  match split_on "_" name with
  | [] => []
  | first :: others => first ++ concat (map title others)
  end.

Definition startswith_underscore (s : text) : bool :=
  match s with
  | c :: _ => (c =? "_")%char
  | [] => false
  end.

(** ** [CodeChannel.inject] *)

Definition replacer (style : StyleType) (m : Match) : text :=
  let func_name := group1 m in
  if startswith_underscore func_name then group0 m
  else
    let new_name :=
      match style with
      | snake_case => _camel_to_snake func_name
      | camel_case => _snake_to_camel func_name
      | neutral => func_name
      end in
    str "def " ++ new_name ++ str "(".

Definition inject (code : text) (style : StyleType) : text :=
  match style with
  | neutral => code
  | _ => re_sub (replacer style) code
  end.

(** ** [CodeChannel.detect] *)

Definition contains_underscore (s : text) : bool :=
  existsb (fun c => (c =? "_")%char) s.

(** [re.search('[a-z][A-Z]', name)] *)
Fixpoint has_lower_upper (s : text) : bool :=
  match s with
  | a :: (b :: _) as t => (is_lower a && is_upper b) || has_lower_upper t
  | _ => false
  end.

Definition count_step (acc : nat * nat) (name : text) : nat * nat :=
  let (snake_count, camel_count) := acc in
  if contains_underscore name then (S snake_count, camel_count)
  else if has_lower_upper name then (snake_count, S camel_count)
  else (snake_count, camel_count).

Definition detect (code : text) : StyleType :=
  let matches := re_findall code in
  match matches with
  | [] => neutral
  | _ :: _ =>
      let func_names :=
        filter (fun n => negb (startswith_underscore n)) matches in
      match func_names with
      | [] => neutral
      | _ :: _ =>
          let (snake_count, camel_count) :=
            fold_left count_step func_names (0, 0) in
          if camel_count <? snake_count then snake_case
          else if snake_count <? camel_count then camel_case
          else neutral
      end
  end.

(** ** Vocabulary for the statements about [inject] and [detect] *)

(** The conversion [replacer] applies to a public name. *)
Definition convert (style : StyleType) (func_name : text) : text :=
  match style with
  | snake_case => _camel_to_snake func_name
  | camel_case => _snake_to_camel func_name
  | neutral => func_name
  end.

(** What becomes of any matched name: private names are kept. *)
Definition rename (style : StyleType) (func_name : text) : text :=
  if startswith_underscore func_name then func_name
  else convert style func_name.

(** The names [detect] counts. *)
Definition public_names (code : text) : list text :=
  filter (fun n => negb (startswith_underscore n)) (re_findall code).

(** The indicator [detect] looks for, per style. *)
Definition carries_marker (style : StyleType) (func_name : text) : bool :=
  match style with
  | snake_case => contains_underscore func_name
  | camel_case => has_lower_upper func_name
  | neutral => false
  end.

(** The text written back for a token. *)
Definition render (toks : list token) : text :=
  concat (map (fun t => match t with Chr c => [c] | Def m => group0 m end) toks).

(** Two tokens at the same place of the input and of the output of [inject]:
    characters are equal; a header carries the renamed identifier, and is
    the same header when the identifier is private. *)
Definition tok_rel (style : StyleType) (t t' : token) : Prop :=
  match t, t' with
  | Chr c, Chr c' => c = c'
  | Def m, Def m' =>
      group1 m' = rename style (group1 m) /\
      (startswith_underscore (group1 m) = true -> m' = m)
  | _, _ => False
  end.

End Channels.

(* ------------------------------------------------------------------ *)
(** * agents/base_worker.py *)
(* ------------------------------------------------------------------ *)

Module Worker.
Import Chars Channels.

(** An entry of the sliding-window memory: [{'code': code, 'task': task}]. *)
Record memory_item := mkItem { code : text; task : option text }.

Record Stats := mkStats {
  total_submissions : nat;
  successful_submissions : nat;
  failed_submissions : nat;
  total_credits_earned : Q;
  total_credits_spent : Q
}.

Record BaseWorker := mkWorker {
  worker_id : text;
  credits : Q;
  memory_window_size : Z;
  preferred_style : StyleType;
  memory : list memory_item;      (* deque(maxlen=memory_window_size) *)
  stats : Stats
}.

(** [BaseWorker.__init__] *)
Definition new_worker (worker_id : text) (initial_credits : Q)
    (memory_window_size : Z) (preferred_style : StyleType) : BaseWorker :=
  mkWorker worker_id initial_credits memory_window_size preferred_style []
           (mkStats 0 0 0 0%Q 0%Q).

(** [deque.append] on a deque bounded by [maxlen]: the oldest entries leave. *)
Definition deque_append {A} (maxlen : Z) (d : list A) (x : A) : list A :=
  let d' := d ++ [x] in
  skipn (length d' - Z.to_nat maxlen) d'.

(** [update_memory] *)
Definition update_memory (a : BaseWorker) (c : text) (success : bool)
    (t : option text) : BaseWorker :=
  let st := stats a in
  if success then
    mkWorker (worker_id a) (credits a) (memory_window_size a)
      (preferred_style a)
      (deque_append (memory_window_size a) (memory a) (mkItem c t))
      (mkStats (S (total_submissions st)) (S (successful_submissions st))
         (failed_submissions st) (total_credits_earned st)
         (total_credits_spent st))
  else
    mkWorker (worker_id a) (credits a) (memory_window_size a)
      (preferred_style a) (memory a)
      (mkStats (S (total_submissions st)) (successful_submissions st)
         (S (failed_submissions st)) (total_credits_earned st)
         (total_credits_spent st)).

Definition with_credits (a : BaseWorker) (c : Q) (st : Stats) : BaseWorker :=
  mkWorker (worker_id a) c (memory_window_size a) (preferred_style a)
           (memory a) st.

(** [earn_credits] *)
Definition earn_credits (a : BaseWorker) (amount : Q) : BaseWorker :=
  let st := stats a in
  with_credits a (credits a + amount)%Q
    (mkStats (total_submissions st) (successful_submissions st)
       (failed_submissions st) (total_credits_earned st + amount)%Q
       (total_credits_spent st)).

(** [spend_credits]: the worker afterwards and the returned flag.  The test
    [self.credits >= amount] is the only branch; nothing in the body can
    raise. *)
Definition spend_credits (a : BaseWorker) (amount : Q) : BaseWorker * bool :=
  if Qle_bool amount (credits a) then
    let st := stats a in
    (with_credits a (credits a - amount)%Q
       (mkStats (total_submissions st) (successful_submissions st)
          (failed_submissions st) (total_credits_earned st)
          (total_credits_spent st + amount)%Q),
     true)
  else (a, false).

(** [int(x)] on a float: truncation towards zero. *)
Definition int_of_Q (x : Q) : Z := Z.quot (Qnum x) (Zpos (Qden x)).

(** [clone]: [mutation_factor] is the draw of [random.uniform(0.8, 1.2)]. *)
Definition clone (a : BaseWorker) (new_worker_id : text) (mutation_factor : Q)
    : BaseWorker :=
  let new_memory_size :=
    Z.max 5 (int_of_Q (inject_Z (memory_window_size a) * mutation_factor)%Q) in
  let fresh := new_worker new_worker_id 100%Q new_memory_size (preferred_style a) in
  mkWorker (worker_id fresh) (credits fresh) (memory_window_size fresh)
    (preferred_style fresh)
    (fold_left (deque_append new_memory_size) (memory a) [])
    (stats fresh).

End Worker.

(* ------------------------------------------------------------------ *)
(** * adversary/evolver.py *)
(* ------------------------------------------------------------------ *)

Module Evolution.
Import Chars Py Channels Worker.

Record Evolver := mkEvolver { mutation_rate : Q }.

Definition available_styles : list StyleType :=
  [neutral; snake_case; camel_case].

(** The draws of one pass through the reproduction loop, in the order the
    code asks for them: [random.choice(elites)], [random.uniform] inside
    [clone], [random.random()], and [random.choice(available_styles)] (used
    only when the mutation fires). *)
Record Draw := mkDraw {
  parent_pick : nat;
  mutation_factor : Q;
  mutation_roll : Q;
  style_pick : nat
}.

(** [random.choice] on a list known to start with [x0]. *)
Definition choice {A} (x0 : A) (l : list A) (pick : nat) : A :=
  nth (pick mod length l) l x0.

(** [sorted(agents, key=lambda a: a.credits, reverse=True)] *)
Definition sorted_agents_of (agents : list BaseWorker) : list BaseWorker :=
  sorted_desc credits agents.

(** The inner [for i, agent in enumerate(agents)] with its [break]. *)
Fixpoint index_of (id : text) (agents : list BaseWorker) : option nat :=
  match agents with
  | [] => None
  | a :: t => if text_eqb (worker_id a) id then Some 0
              else option_map S (index_of id t)
  end.

Definition cull_indices_of (cull_list agents : list BaseWorker) : list nat :=
  flat_map (fun culled => match index_of (worker_id culled) agents with
                          | Some i => [i]
                          | None => []
                          end) cull_list.

(** ** [int(s)] on a string *)

(** [int] skips the blanks of C's [isspace] at both ends (the separators
    0x1C-0x1F are not among them). *)
Definition is_blank (c : ascii) : bool :=
  in_range 9 13 c || (c =? " ")%char.

Definition strip (s : text) : text :=
  let s1 := snd (span is_blank s) in
  rev (snd (span is_blank (rev s1))).

Fixpoint digits_value (acc : Z) (s : text) : option Z :=
  match s with
  | [] => Some acc
  | c :: t => if is_digit c
              then digits_value (10 * acc + (Z.of_N (Chars.code c) - 48))%Z t
              else None
  end.

Definition unsigned_value (s : text) : option Z :=
  match s with
  | [] => None
  | _ :: _ => digits_value 0%Z s
  end.

(** [None] stands for the [ValueError] of [int]. *)
Definition py_int (s : text) : option Z :=
  match strip s with
  | c :: t =>
      if (c =? "-")%char then option_map Z.opp (unsigned_value t)
      else if (c =? "+")%char then unsigned_value t
      else unsigned_value (c :: t)
  | [] => None
  end.

(** [str(n)] for an integer. *)
Definition py_str (n : Z) : text :=
  str (NilZero.string_of_int (Z.to_int n)).

(** [int(a.worker_id.split('_')[-1]) if '_' in a.worker_id else 0] *)
Definition id_number (id : text) : option Z :=
  if contains_underscore id then py_int (last (split_on "_" id) [])
  else Some 0%Z.

(** The generator handed to [max], evaluated in order: the first identifier
    that does not parse raises. *)
Fixpoint id_numbers (agents : list BaseWorker) : option (list Z) :=
  match agents with
  | [] => Some []
  | a :: t =>
      match id_number (worker_id a) with
      | None => None
      | Some k => option_map (cons k) (id_numbers t)
      end
  end.

Definition maximum (l : list Z) : option Z :=
  match l with
  | [] => None
  | x :: t => Some (fold_left Z.max t x)
  end.

Record LoopState := mkLoop {
  population : list BaseWorker;
  next_id : Z;
  new_agents : list BaseWorker
}.

(** One pass of [for idx in cull_indices]. *)
Definition reproduce (e : Evolver) (elite0 : BaseWorker)
    (elites : list BaseWorker) (st : LoopState) (idx : nat) (d : Draw)
    : LoopState :=
  let parent := choice elite0 elites (parent_pick d) in
  let new_id := str "evolved_" ++ py_str (next_id st) in
  let c := clone parent new_id (mutation_factor d) in
  let c :=
    if negb (Qle_bool (mutation_rate e) (mutation_roll d)) then
      mkWorker (worker_id c) (credits c) (memory_window_size c)
        (choice neutral available_styles (style_pick d))
        (memory c) (stats c)
    else c in
  mkLoop (list_set (population st) idx c) (next_id st + 1)%Z
         (new_agents st ++ [c]).

Fixpoint reproduce_all (e : Evolver) (elite0 : BaseWorker)
    (elites : list BaseWorker) (st : LoopState) (indices : list nat)
    (rnd : nat -> Draw) (pass : nat) : LoopState :=
  match indices with
  | [] => st
  | idx :: rest =>
      reproduce_all e elite0 elites
        (reproduce e elite0 elites st idx (rnd pass)) rest rnd (S pass)
  end.

Definition count_style (s : StyleType) (agents : list BaseWorker) : nat :=
  length (filter (fun a => StyleType_eqb (preferred_style a) s) agents).

(** [elite_styles[style] = elite_styles.get(style, 0) + 1] *)
Fixpoint bump (s : StyleType) (d : list (StyleType * nat))
    : list (StyleType * nat) :=
  match d with
  | [] => [(s, 1)]
  | (k, v) :: t => if StyleType_eqb k s then (k, S v) :: t
                   else (k, v) :: bump s t
  end.

Record EvolveStats := mkEvolveStats {
  population_size : nat;
  elite_count : nat;
  cull_count : nat;
  new_agent_ids : list text;
  style_distribution : list (StyleType * nat);
  elite_styles : list (StyleType * nat);
  mutation_rate_used : Q
}.

Inductive Outcome :=
| NotEvolved (reason : text) (population_size : nat)
| Evolved (r : EvolveStats)
| Raised (e : exn).

(** [evolve_population]: the population afterwards (the list is modified in
    place) and what the call returns or raises. *)
Definition evolve_population (e : Evolver) (agents : list BaseWorker)
    (rnd : nat -> Draw) : list BaseWorker * Outcome :=
  if length agents <? 5 then
    (agents, NotEvolved (str "Population too small for evolution")
                        (length agents))
  else
    let sorted_agents := sorted_agents_of agents in
    let num_agents := length agents in
    let elite_count := Nat.max 1 (num_agents / 5) in
    let cull_count := Nat.max 1 (num_agents / 5) in
    let elites := firstn elite_count sorted_agents in
    let cull_list := skipn (length sorted_agents - cull_count) sorted_agents in
    let cull_indices := cull_indices_of cull_list agents in
    match id_numbers agents with
    | None => (agents, Raised ValueError)
    | Some numbers =>
        match maximum numbers, elites with
        | None, _ => (agents, Raised ValueError)
        | _, [] => (agents, Raised IndexError)
        | Some top, elite0 :: _ =>
            let st := reproduce_all e elite0 elites
                        (mkLoop agents (top + 1)%Z []) cull_indices rnd 0 in
            let agents' := population st in
            (agents',
             Evolved
               (mkEvolveStats (length agents') elite_count cull_count
                  (map worker_id (new_agents st))
                  (map (fun s => (s, count_style s agents')) available_styles)
                  (fold_left (fun d a => bump (preferred_style a) d) elites [])
                  (mutation_rate e)))
        end
    end.

End Evolution.

(* ------------------------------------------------------------------ *)
(** * simulation/environment.py *)
(* ------------------------------------------------------------------ *)

Module Environment.
Import Py.

Record Commit := mkCommit {
  author : text;
  code : text;
  timestamp : Z;
  parent_id : option Z;
  commit_id : option Z
}.

(** [submit_commit] writes into the [Commit] object it is handed and keeps
    that same object in its log, so commits are objects in a store and the
    log holds references. *)
Definition ref := nat.
Definition store := list Commit.

Definition deref (h : store) (r : ref) : option Commit := nth_error h r.

Definition set_commit_id (h : store) (r : ref) (id : Z) : store :=
  match deref h r with
  | Some c =>
      list_set h r (mkCommit (author c) (code c) (timestamp c) (parent_id c)
                             (Some id))
  | None => h
  end.

Record SharedRepository := mkRepo {
  commits : list ref;
  global_utility : Q;
  test_suite : list bool;          (* a test, by whether it passes *)
  _next_commit_id : Z;
  _drift_factor : Q
}.

(** [SharedRepository.__init__] *)
Definition new_repository : SharedRepository := mkRepo [] 0 [] 0 (5 # 100).

(** [submit_commit]; [utility_gain] is the draw of
    [random.uniform(0.5, 2.0)]. *)
Definition submit_commit (h : store) (repo : SharedRepository) (commit : ref)
    (utility_gain : Q) : store * SharedRepository * bool :=
  let h' := set_commit_id h commit (_next_commit_id repo) in
  (h',
   mkRepo (commits repo ++ [commit])
          (global_utility repo + utility_gain)%Q
          (test_suite repo)
          (_next_commit_id repo + 1)%Z
          (_drift_factor repo),
   true).

(** The identifier a commit carries. *)
Definition id_of (h : store) (r : ref) : option Z :=
  match deref h r with
  | Some c => commit_id c
  | None => None
  end.

(** A sequence of submissions to one repository.  For each call the trace
    records the returned flag and the identifier the submitted commit
    carries when the call returns. *)
Fixpoint submit_all (h : store) (repo : SharedRepository)
    (submissions : list (ref * Q))
    : store * SharedRepository * list (bool * option Z) :=
  match submissions with
  | [] => (h, repo, [])
  | (c, gain) :: rest =>
      let '(h1, repo1, accepted) := submit_commit h repo c gain in
      let issued := id_of h1 c in
      let '(h2, repo2, trace) := submit_all h1 repo1 rest in
      (h2, repo2, (accepted, issued) :: trace)
  end.

(** The identifiers read off the log. *)
Definition log_ids (h : store) (repo : SharedRepository) : list (option Z) :=
  map (id_of h) (commits repo).

End Environment.

(* ------------------------------------------------------------------ *)
(** * simulation/metrics.py *)
(* ------------------------------------------------------------------ *)

Module Metrics.
Import Py Channels Worker.

(** [a / b] on integers *)
Definition py_div (a b : Z) : result Q :=
  if (b =? 0)%Z then Raise ZeroDivisionError
  else Ok (inject_Z a / inject_Z b)%Q.

Definition is_neutral (a : BaseWorker) : bool :=
  StyleType_eqb (preferred_style a) neutral.

(** [NashMetrics.calculate_distance] *)
Definition calculate_distance (agents : list BaseWorker) : result Q :=
  match agents with
  | [] => Ok 0%Q
  | _ :: _ =>
      let neutral_count := length (filter is_neutral agents) in
      let total_agents := length agents in
      honest_ratio <- py_div (Z.of_nat neutral_count) (Z.of_nat total_agents) ;;
      Ok (1 - honest_ratio)%Q
  end.

End Metrics.

(* ------------------------------------------------------------------ *)
(** * overseer/recommender.py and overseer/steering.py *)
(* ------------------------------------------------------------------ *)

Module Overseer.
Import Py.

(** The tensors and the learned layers, with their parameters held fixed:
    [lstm_last] is the code embedding followed by the LSTM and the selection
    of its last output; [agent_row] a row of the agent embedding; [cat] the
    concatenation; [scorer] the [trust_predictor] stack in evaluation mode
    (dropout is then the identity).  [hash_str] is Python's [hash] on
    strings. *)
Record Net := mkNet {
  Hid : Type;
  Emb : Type;
  Act : Type;
  hash_str : text -> Z;
  lstm_last : list Z -> Hid;
  agent_row : Z -> Emb;
  cat : Hid -> Emb -> Act;
  scorer : Act -> Q;
  act_sub : Act -> Act -> Act;
  act_scale : Q -> Act -> Act;
  act_mean : list Act -> Act
}.

(** A forward pre-hook registered by [apply_steering]: its handle and the
    coefficient captured by the closure.  The closure also refers to the
    mechanism and reads its vector when it runs. *)
Definition hook := (nat * Q)%type.

Record Recommender := mkRecommender {
  vocab_size : Z;
  num_agents : Z;
  training : bool;                        (* train() / eval() *)
  pre_hooks : list hook;                  (* on trust_predictor, in order *)
  next_handle : nat;
  training_buffer : list (Z * list Z * Q)
}.

Record SteeringMechanism (net : Net) := mkSteering {
  collusion_vector : option (Act net);
  hook_handle : option nat;
  steering_coefficient : Q
}.
Arguments mkSteering {net}.
Arguments collusion_vector {net}.
Arguments hook_handle {net}.
Arguments steering_coefficient {net}.

Section WithNet.
Variable net : Net.

(** [Recommender.__init__] with its default sizes. *)
Definition new_recommender : Recommender :=
  mkRecommender 10000 100 true [] 0 [].

(** [SteeringMechanism.__init__] *)
Definition new_steering : SteeringMechanism net := mkSteering None None 1.

Definition set_eval (r : Recommender) : Recommender :=
  mkRecommender (vocab_size r) (num_agents r) false (pre_hooks r)
                (next_handle r) (training_buffer r).

(** [_tokenize_code] *)
Definition _tokenize_code (r : Recommender) (code : text)
    : result (list Z) :=
  tokens <- mapM (fun c => py_mod (hash_str net [c]) (vocab_size r))
                 (firstn 100 code) ;;
  let max_len := 50 in
  Ok (if length tokens <? max_len
      then tokens ++ repeat 0%Z (max_len - length tokens)
      else firstn max_len tokens).

(** An [nn.Embedding] lookup: the index must be a row of the table. *)
Definition in_table (size i : Z) : bool := ((0 <=? i) && (i <? size))%Z.

Definition embedding {E} (size : Z) (row : Z -> E) (i : Z) : result E :=
  if in_table size i then Ok (row i) else Raise IndexError.

(** The input of [trust_predictor]: what [predict] builds before scoring and
    what [get_activations] returns. *)
Definition activations (r : Recommender) (agent_id : Z) (code : text)
    : result (Act net) :=
  code_tokens <- _tokenize_code r code ;;
  agent_index <- py_mod agent_id (num_agents r) ;;
  agent_emb <- embedding (num_agents r) (agent_row net) agent_index ;;
  if forallb (in_table (vocab_size r)) code_tokens
  then Ok (cat net (lstm_last net code_tokens) agent_emb)
  else Raise IndexError.

(** The pre-hook built by [_create_input_hook]. *)
Definition pre_hook (s : SteeringMechanism net) (coefficient : Q)
    (input : Act net) : Act net :=
  match collusion_vector s with
  | Some v => act_sub net input (act_scale net coefficient v)
  | None => input
  end.

(** Calling [trust_predictor]: the pre-hooks run in registration order, each
    on the input left by the one before. *)
Definition call_trust_predictor (r : Recommender) (s : SteeringMechanism net)
    (input : Act net) : Q :=
  scorer net (fold_left (fun x (h : hook) => pre_hook s (snd h) x)
                        (pre_hooks r) input).

(** [predict] *)
Definition predict (r : Recommender) (s : SteeringMechanism net)
    (agent_id : Z) (code : text) : Recommender * result Q :=
  let r := set_eval r in
  (r, combined <- activations r agent_id code ;;
      Ok (call_trust_predictor r s combined)).

(** [get_activations_batch], with its default [agent_id = 0].  For an
    empty batch the tensors are empty: the agent index is still computed,
    and the LSTM then refuses a sequence of length zero. *)
Definition get_activations_batch (r : Recommender) (codes : list text)
    : Recommender * result (list (Act net)) :=
  let r := set_eval r in
  (r, match codes with
      | [] => _ <- py_mod 0 (num_agents r) ;; Raise RuntimeError
      | _ :: _ => mapM (activations r 0) codes
      end).

(** [get_top_k_agents] *)
Fixpoint score_all (r : Recommender) (s : SteeringMechanism net)
    (pairs : list (Z * text)) : Recommender * result (list (Z * Q)) :=
  match pairs with
  | [] => (r, Ok [])
  | (agent_id, code) :: rest =>
      let (r1, score) := predict r s agent_id code in
      match score with
      | Raise e => (r1, Raise e)
      | Ok sc =>
          let (r2, scores) := score_all r1 s rest in
          (r2, scores' <- scores ;; Ok ((agent_id, sc) :: scores'))
      end
  end.

Definition get_top_k_agents (r : Recommender) (s : SteeringMechanism net)
    (agent_ids : list Z) (code_samples : list text) (k : nat)
    : Recommender * result (list (Z * Q)) :=
  let (r', scores) := score_all r s (combine agent_ids code_samples) in
  (r', scores' <- scores ;; Ok (firstn k (sorted_desc snd scores'))).

(** [compute_collusion_vector] *)
Definition compute_collusion_vector (s : SteeringMechanism net)
    (r : Recommender) (snake_codes neutral_codes : list text)
    : Recommender * SteeringMechanism net * result (Act net) :=
  let (r1, snake) := get_activations_batch r snake_codes in
  match snake with
  | Raise e => (r1, s, Raise e)
  | Ok snake_activations =>
      let (r2, neutral) := get_activations_batch r1 neutral_codes in
      match neutral with
      | Raise e => (r2, s, Raise e)
      | Ok neutral_activations =>
          let v := act_sub net (act_mean net snake_activations)
                               (act_mean net neutral_activations) in
          (r2, mkSteering (Some v) (hook_handle s) (steering_coefficient s),
           Ok v)
      end
  end.

(** [reset_steering]: [handle.remove()] deletes the hook registered under
    that handle, if it is still there. *)
Definition reset_steering (s : SteeringMechanism net) (r : Recommender)
    : Recommender * SteeringMechanism net :=
  match hook_handle s with
  | Some h =>
      (mkRecommender (vocab_size r) (num_agents r) (training r)
         (filter (fun k : hook => negb (fst k =? h)) (pre_hooks r))
         (next_handle r) (training_buffer r),
       mkSteering (collusion_vector s) None (steering_coefficient s))
  | None => (r, s)
  end.

(** [apply_steering] *)
Definition apply_steering (s : SteeringMechanism net) (r : Recommender)
    (coefficient : Q) : result (Recommender * SteeringMechanism net) :=
  match collusion_vector s with
  | None => Raise ValueError
  | Some _ =>
      let (r1, s1) := reset_steering s r in
      let h := next_handle r1 in
      Ok (mkRecommender (vocab_size r1) (num_agents r1) (training r1)
            (pre_hooks r1 ++ [(h, coefficient)]) (S h) (training_buffer r1),
          mkSteering (collusion_vector s1) (Some h) coefficient)
  end.

End WithNet.

End Overseer.

(* ------------------------------------------------------------------ *)
(** * simulation/engine.py: the assignment phase of [step] *)
(* ------------------------------------------------------------------ *)

Module Engine.
Import Py Channels Worker Overseer.

Section WithNet.
Variable net : Net.

(** [agent.memory[-1]['code']], or the placeholder for an empty memory *)
Definition last_code (a : BaseWorker) : text :=
  match rev (memory a) with
  | item :: _ => Worker.code item
  | [] => str "# No history yet"
  end.

Definition agent_codes (agents : list BaseWorker) : list text :=
  map last_code agents.

(** [agent_ids = [hash(agent.worker_id) for agent in self.agents]] *)
Definition agent_ids (agents : list BaseWorker) : list Z :=
  map (fun a => hash_str net (worker_id a)) agents.

(** The search [for i, agent in enumerate(self.agents)] with its [break]. *)
Fixpoint find_agent (agent_id : Z) (agents : list BaseWorker) : option nat :=
  match agents with
  | [] => None
  | a :: t => if (hash_str net (worker_id a) =? agent_id)%Z then Some 0
              else option_map S (find_agent agent_id t)
  end.

Definition top_indices (agents : list BaseWorker)
    (top_agents_info : list (Z * Q)) : list nat :=
  flat_map (fun info => match find_agent (fst info) agents with
                        | Some i => [i]
                        | None => []
                        end) top_agents_info.

(** Steps 1-2 of [step]: the keys, the ranking and the selected slots. *)
Definition step_assignment (r : Recommender) (s : SteeringMechanism net)
    (agents : list BaseWorker) (top_k : nat)
    : Recommender * result (list nat) :=
  let (r', info) :=
    get_top_k_agents net r s (agent_ids agents) (agent_codes agents) top_k in
  (r', top_agents_info <- info ;; Ok (top_indices agents top_agents_info)).

End WithNet.

End Engine.

(* ------------------------------------------------------------------ *)
(** * Facts about the shared helpers *)
(* ------------------------------------------------------------------ *)

Module PyFacts.
Import Py.

Lemma list_set_length {A} (l : list A) idx x :
  length (list_set l idx x) = length l.
Proof.
  revert idx; induction l as [|a l IH]; intros [|i]; simpl; auto.
Qed.

Lemma list_set_same {A} (l : list A) idx x :
  idx < length l -> nth_error (list_set l idx x) idx = Some x.
Proof.
  revert idx; induction l as [|a l IH]; intros [|i]; simpl; intros H;
    try lia; [reflexivity|]. apply IH. lia.
Qed.

Lemma insert_desc_length {A} (key : A -> Q) a l :
  length (insert_desc key a l) = S (length l).
Proof.
  induction l as [|b t IH]; simpl; [reflexivity|].
  destruct (Qle_bool _ _); simpl; auto.
Qed.

Lemma sorted_desc_length {A} (key : A -> Q) l :
  length (sorted_desc key l) = length l.
Proof.
  induction l as [|a t IH]; simpl; [reflexivity|].
  rewrite insert_desc_length, IH. reflexivity.
Qed.

Lemma insert_desc_in {A} (key : A -> Q) x a l :
  In x (insert_desc key a l) -> a = x \/ In x l.
Proof.
  induction l as [|b t IH]; simpl; [tauto|].
  destruct (Qle_bool _ _); simpl; [tauto|].
  intros [H|H]; auto. apply IH in H. tauto.
Qed.

Lemma sorted_desc_in {A} (key : A -> Q) x l :
  In x (sorted_desc key l) -> In x l.
Proof.
  induction l as [|a t IH]; simpl; [tauto|].
  intros H. apply insert_desc_in in H as [H|H]; auto.
Qed.

Lemma text_eqb_refl a : text_eqb a a = true.
Proof.
  induction a as [|x a IH]; simpl; [reflexivity|].
  rewrite Ascii.eqb_refl, IH. reflexivity.
Qed.

End PyFacts.

(* ------------------------------------------------------------------ *)
(** * Facts about the character classes and the scanner *)
(* ------------------------------------------------------------------ *)

Module ChannelFacts.
Import Chars Channels.

Ltac by_cases_on_char c :=
  destruct c as [[] [] [] [] [] [] [] []]; vm_compute; try reflexivity;
  try discriminate; try tauto.

Lemma space_not_word c : is_space c = true -> is_word c = false.
Proof. by_cases_on_char c. Qed.

Lemma word_not_space c : is_word c = true -> is_space c = false.
Proof. by_cases_on_char c. Qed.

Lemma paren_eqb_word c : is_word c = true -> (c =? "(")%char = false.
Proof. by_cases_on_char c. Qed.

Lemma is_word_lower c : is_word (lower c) = is_word c.
Proof. by_cases_on_char c. Qed.

Lemma is_word_upper c : is_word (upper c) = is_word c.
Proof. by_cases_on_char c. Qed.

Lemma is_upper_lower c : is_upper (lower c) = false.
Proof. by_cases_on_char c. Qed.

Lemma underscore_lower c : (lower c =? "_")%char = (c =? "_")%char.
Proof. by_cases_on_char c. Qed.

Lemma underscore_upper c : (upper c =? "_")%char = (c =? "_")%char.
Proof. by_cases_on_char c. Qed.

(** ** [span] *)

Definition stops (p : ascii -> bool) (x : text) : Prop :=
  match x with [] => True | c :: _ => p c = false end.

Lemma span_spec p s :
  s = fst (span p s) ++ snd (span p s) /\
  forallb p (fst (span p s)) = true /\ stops p (snd (span p s)).
Proof.
  induction s as [|c t IH]; simpl; [auto|].
  destruct (p c) eqn:Hc; simpl; [|auto].
  destruct (span p t) as [a b]; simpl in *.
  destruct IH as (-> & Ha & Hb). rewrite Hc. auto.
Qed.

Lemma span_app_all p u x :
  forallb p u = true ->
  span p (u ++ x) = (u ++ fst (span p x), snd (span p x)).
Proof.
  induction u as [|c u IH]; simpl; intros H.
  - destruct (span p x); reflexivity.
  - apply andb_true_iff in H as [Hc Hu]. rewrite Hc, (IH Hu). reflexivity.
Qed.

Lemma span_stops p x : stops p x -> span p x = ([], x).
Proof. destruct x as [|c t]; simpl; [reflexivity|]. intros ->. reflexivity. Qed.

Lemma span_app_stops p u x :
  stops p x -> span p (u ++ x) = (fst (span p u), snd (span p u) ++ x).
Proof.
  intros Hx. induction u as [|c u IH]; simpl.
  - apply span_stops, Hx.
  - destruct (p c); [|reflexivity]. rewrite IH. destruct (span p u); reflexivity.
Qed.

Lemma span_app_cut p u x :
  snd (span p u) <> [] ->
  span p (u ++ x) = (fst (span p u), snd (span p u) ++ x).
Proof.
  induction u as [|c u IH]; simpl; [congruence|].
  destruct (p c); [|reflexivity].
  destruct (span p u) as [a b]; simpl in *. intros H. rewrite (IH H). reflexivity.
Qed.

Lemma span_nil_all p u : snd (span p u) = [] -> fst (span p u) = u.
Proof.
  intros H. destruct (span_spec p u) as (E & _ & _).
  rewrite H, app_nil_r in E. symmetry; exact E.
Qed.

(** ** Soundness and completeness of [match_def] *)

Definition well_formed (m : Match) : Prop :=
  ws1 m <> [] /\ forallb is_space (ws1 m) = true /\
  name m <> [] /\ forallb is_word (name m) = true /\
  forallb is_space (ws2 m) = true.

Lemma strip_prefix_app p r : strip_prefix p (p ++ r) = Some r.
Proof.
  induction p as [|a p IH]; simpl; [reflexivity|].
  rewrite Ascii.eqb_refl. exact IH.
Qed.

Lemma strip_prefix_spec p s r : strip_prefix p s = Some r -> s = p ++ r.
Proof.
  revert s; induction p as [|a p IH]; intros [|b s] H; simpl in *;
    try discriminate; try (inversion H; reflexivity).
  destruct (a =? b)%char eqn:E; [|discriminate].
  apply Ascii.eqb_eq in E. subst b. f_equal. apply IH, H.
Qed.

Lemma match_def_sound s m r :
  match_def s = Some (m, r) -> well_formed m /\ s = group0 m ++ r.
Proof.
  unfold match_def.
  destruct (strip_prefix (str "def") s) as [r0|] eqn:Hp; [|discriminate].
  apply strip_prefix_spec in Hp.
  destruct (span_spec is_space r0) as (E1 & A1 & _).
  destruct (span is_space r0) as [w1 r1]; simpl in *.
  destruct (span_spec is_word r1) as (E2 & A2 & _).
  destruct (span is_word r1) as [n r2]; simpl in *.
  destruct (span_spec is_space r2) as (E3 & A3 & _).
  destruct (span is_space r2) as [w2 r3]; simpl in *.
  destruct w1 as [|a w1]; [discriminate|]. destruct n as [|b n]; [discriminate|].
  destruct r3 as [|c r4]; [discriminate|].
  destruct (c =? "(")%char eqn:Ec; [|discriminate].
  apply Ascii.eqb_eq in Ec. intros H; inversion H; subst; clear H.
  split.
  - unfold well_formed; simpl. repeat split; auto; discriminate.
  - unfold group0; simpl. repeat (rewrite <- app_assoc; simpl). reflexivity.
Qed.

Lemma match_def_complete m r :
  well_formed m -> match_def (group0 m ++ r) = Some (m, r).
Proof.
  intros (N1 & A1 & N2 & A2 & A3). destruct m as [w1 n w2]; simpl in *.
  unfold match_def, group0; cbn [ws1 name ws2].
  change (str "def") with (["d"; "e"; "f"]%char).
  change (str "(") with (["("]%char). cbn [app strip_prefix Ascii.eqb Bool.eqb].
  destruct n as [|b n]; [congruence|]. destruct w1 as [|a w1]; [congruence|].
  assert (Hb : is_word b = true) by (simpl in A2; apply andb_true_iff in A2; tauto).
  rewrite <- !app_assoc.
  rewrite span_app_all by exact A1.
  rewrite (span_stops is_space ((b :: n) ++ _))
    by (simpl; apply word_not_space, Hb).
  cbn [fst snd]. rewrite app_nil_r.
  rewrite span_app_all by exact A2.
  rewrite (span_stops is_word (w2 ++ _)).
  2:{ destruct w2 as [|c w2]; simpl; [reflexivity|].
      simpl in A3. apply andb_true_iff in A3 as [Hc _].
      apply space_not_word, Hc. }
  cbn [fst snd]. rewrite app_nil_r.
  rewrite span_app_all by exact A3. simpl. rewrite app_nil_r. reflexivity.
Qed.

(** ** A match attempt never runs into the next header

    When a well-formed header starts right after [u], an attempt to match at
    the start of [u] is decided inside [u]: reading on, the attempt would
    take [def] for (the end of) a name and then meet the header's name where
    it needs the parenthesis. *)

Definition after_def (r : text) : option (Match * text) :=
  let (w1, r1) := span is_space r in
  let (n, r2) := span is_word r1 in
  let (w2, r3) := span is_space r2 in
  match w1, n, r3 with
  | _ :: _, _ :: _, c :: r4 =>
      if (c =? "(")%char then Some (mkMatch w1 n w2, r4) else None
  | _, _, _ => None
  end.

Lemma match_def_after s :
  match_def s =
  match strip_prefix (str "def") s with Some r => after_def r | None => None end.
Proof. reflexivity. Qed.

Definition extend (x : text) (o : option (Match * text)) :=
  option_map (fun mr : Match * text => (fst mr, snd mr ++ x)) o.

Section Header.
Variables (m : Match) (r : text).
Hypothesis Hm : well_formed m.

Let tail := ws1 m ++ name m ++ ws2 m ++ str "(" ++ r.
Let X := group0 m ++ r.

Lemma header_unfold : X = "d"%char :: "e"%char :: "f"%char :: tail.
Proof.
  unfold X, tail, group0. change (str "def") with (["d"; "e"; "f"]%char).
  cbn [app]. repeat (rewrite <- app_assoc; cbn [app]). reflexivity.
Qed.

Lemma header_stops_space : stops is_space X.
Proof. rewrite header_unfold. reflexivity. Qed.

Lemma header_span_word : span is_word X = (str "def", tail).
Proof.
  rewrite header_unfold. destruct Hm as (N1 & A1 & _).
  unfold tail. destruct (ws1 m) as [|a w1]; [congruence|].
  simpl in A1. apply andb_true_iff in A1 as [Ha _].
  apply space_not_word in Ha. cbn. rewrite Ha. reflexivity.
Qed.

Lemma header_tail_paren :
  exists b t, snd (span is_space tail) = b :: t /\ (b =? "(")%char = false.
Proof.
  destruct Hm as (N1 & A1 & N2 & A2 & A3). unfold tail.
  destruct (name m) as [|b n]; [congruence|].
  simpl in A2. apply andb_true_iff in A2 as [Hb _].
  rewrite span_app_all by exact A1.
  rewrite (span_stops is_space ((b :: n) ++ _))
    by (simpl; apply word_not_space, Hb).
  cbn [fst snd]. exists b. eexists. split; [reflexivity|].
  apply paren_eqb_word, Hb.
Qed.

Lemma after_def_local u : after_def (u ++ X) = extend X (after_def u).
Proof.
  unfold after_def.
  rewrite (span_app_stops _ u _ header_stops_space).
  destruct (span is_space u) as [w1 r1]; cbn [fst snd].
  destruct (snd (span is_word r1)) as [|h r2'] eqn:E2.
  - pose proof (span_nil_all _ _ E2) as F2.
    assert (A : forallb is_word r1 = true).
    { rewrite <- F2 at 1. apply span_spec. }
    rewrite (span_app_all _ _ X A), header_span_word.
    destruct (span is_word r1) as [n r2]; simpl in E2, F2; subst r2 n.
    cbn [fst snd].
    destruct header_tail_paren as (b & t & Eb & Nb).
    destruct (span is_space tail) as [w2 r3]; simpl in Eb; subst r3.
    rewrite Nb. simpl.
    destruct w1; [reflexivity|]. destruct r1; reflexivity.
  - rewrite span_app_cut by (rewrite E2; discriminate).
    destruct (span is_word r1) as [n r2]; simpl in E2; subst r2.
    cbn [fst snd].
    rewrite (span_app_stops _ (h :: r2') _ header_stops_space).
    destruct (span is_space (h :: r2')) as [w2 r3]; cbn [fst snd].
    destruct w1; [reflexivity|]. destruct n; [reflexivity|].
    destruct r3 as [|c r4].
    + cbn [app]. rewrite header_unfold. reflexivity.
    + cbn [app]. destruct (c =? "(")%char; reflexivity.
Qed.

Lemma match_def_local u :
  u <> [] -> match_def (u ++ X) = extend X (match_def u).
Proof.
  intros Hu. rewrite !match_def_after.
  change (str "def") with (["d"; "e"; "f"]%char).
  destruct u as [|c1 [|c2 [|c3 u]]]; [congruence| | |].
  - rewrite header_unfold. cbn [app strip_prefix].
    destruct ("d" =? c1)%char; reflexivity.
  - rewrite header_unfold. cbn [app strip_prefix].
    destruct ("d" =? c1)%char; [|reflexivity].
    destruct ("e" =? c2)%char; reflexivity.
  - cbn [app strip_prefix].
    destruct ("d" =? c1)%char; [|reflexivity].
    destruct ("e" =? c2)%char; [|reflexivity].
    destruct ("f" =? c3)%char; [|reflexivity].
    apply after_def_local.
Qed.

End Header.

(** ** The scanner, one step at a time *)

Lemma scan_match s m r : match_def s = Some (m, r) -> scan s = Def m :: scan r.
Proof.
  intros H. funelim (scan s); try discriminate; congruence.
Qed.

Lemma scan_char c t :
  match_def (c :: t) = None -> scan (c :: t) = Chr c :: scan t.
Proof.
  intros H. funelim (scan (c :: t)); congruence.
Qed.

Definition retok (f : Match -> Match) (t : token) : token :=
  match t with Chr c => Chr c | Def m => Def (f m) end.

Definition tok_wf (t : token) : Prop :=
  match t with Chr _ => True | Def m => well_formed m end.

Lemma render_scan s : render (scan s) = s.
Proof.
  funelim (scan s); [reflexivity| |].
  - match goal with E : match_def _ = Some _ |- _ =>
      pose proof (match_def_sound _ _ _ E) as [_ Es] end.
    unfold render in *. cbn [map concat]. congruence.
  - unfold render in *. cbn [map concat app]. congruence.
Qed.

Lemma scan_wf s : Forall tok_wf (scan s).
Proof.
  funelim (scan s); constructor; auto.
  - match goal with E : match_def _ = Some _ |- _ =>
      pose proof (match_def_sound _ _ _ E) as [Hw _]; exact Hw end.
  - exact I.
Qed.

Lemma re_sub_render (f : Match -> Match) repl code :
  (forall m, repl m = group0 (f m)) ->
  re_sub repl code = render (map (retok f) (scan code)).
Proof.
  intros H. unfold re_sub, render. rewrite map_map. f_equal.
  apply map_ext. intros [c|m]; simpl; auto.
Qed.

Section Retokenise.
Variable f : Match -> Match.
Hypothesis f_wf : forall m, well_formed m -> well_formed (f m).

Lemma extend_none x o : extend x o = None <-> o = None.
Proof. destruct o; simpl; split; congruence. Qed.

(** Failure of a match attempt before a token list survives the rewriting
    of the headers in that list. *)
Lemma attempt_fails_after_retok toks :
  Forall tok_wf toks ->
  forall u, u <> [] ->
  match_def (u ++ render toks) = None ->
  match_def (u ++ render (map (retok f) toks)) = None.
Proof.
  induction 1 as [|t toks Ht Hts IH]; intros u Hu H; [exact H|].
  destruct t as [c|m]; unfold render in *; cbn [map concat retok] in *.
  - change ([c] ++ ?x) with (c :: x) in *.
    replace (u ++ c :: concat (map _ (map (retok f) toks)))
      with ((u ++ [c]) ++ render (map (retok f) toks))
      by (rewrite <- app_assoc; reflexivity).
    apply IH; [destruct u; discriminate|].
    rewrite <- app_assoc. exact H.
  - rewrite (match_def_local _ _ Ht _ Hu) in H.
    rewrite (match_def_local _ _ (f_wf _ Ht) _ Hu).
    apply extend_none in H. apply extend_none. exact H.
Qed.

(** Scanning the rewritten text finds the rewritten tokens. *)
Lemma scan_retok s :
  scan (render (map (retok f) (scan s))) = map (retok f) (scan s).
Proof.
  funelim (scan s); [reflexivity| |].
  - match goal with E : match_def _ = Some _ |- _ =>
      pose proof (match_def_sound _ _ _ E) as [Hw _] end.
    cbn [map retok]. unfold render at 1. cbn [map concat].
    rewrite (scan_match _ _ _ (match_def_complete _ _ (f_wf _ Hw))).
    f_equal. assumption.
  - cbn [map retok]. unfold render at 1. cbn [map concat app].
    rewrite scan_char.
    + f_equal. assumption.
    + apply (attempt_fails_after_retok _ (scan_wf t) [c]);
        [discriminate|].
      cbn [app]. rewrite render_scan. assumption.
Qed.

End Retokenise.

(** ** The two conversions produce identifiers *)

Lemma two_step_ind (P : text -> Prop) :
  P [] -> (forall a, P [a]) ->
  (forall a b r, P r -> P (b :: r) -> P (a :: b :: r)) ->
  forall s, P s.
Proof.
  intros H0 H1 H2 s.
  assert (H : P s /\ forall a, P (a :: s)); [|apply H].
  induction s as [|b r [IHr IHbr]]; split; auto.
Qed.

Lemma insert_underscores_word s :
  forallb is_word s = true -> forallb is_word (insert_underscores s) = true.
Proof.
  pattern s; apply two_step_ind; clear s; auto.
  intros a b r IHr IHbr H. cbn [insert_underscores].
  cbn [forallb] in H. apply andb_true_iff in H as [Ha H].
  pose proof H as Hbr. apply andb_true_iff in H as [Hb Hr].
  destruct ((is_lower a || is_digit a) && is_upper b); cbn [forallb].
  - rewrite Ha, Hb, (IHr Hr). reflexivity.
  - rewrite Ha. apply IHbr. cbn [forallb]. exact Hbr.
Qed.

Lemma forallb_word_map_lower s :
  forallb is_word (map lower s) = forallb is_word s.
Proof.
  induction s as [|a s IH]; simpl; [reflexivity|].
  rewrite is_word_lower, IH. reflexivity.
Qed.

Lemma insert_underscores_head a s :
  exists s', insert_underscores (a :: s) = a :: s'.
Proof.
  destruct s as [|b r]; cbn [insert_underscores]; [eexists; reflexivity|].
  destruct ((is_lower a || is_digit a) && is_upper b); eexists; reflexivity.
Qed.

Lemma title_from_word b s :
  forallb is_word (title_from b s) = forallb is_word s.
Proof.
  revert b; induction s as [|a s IH]; intros b; simpl; [reflexivity|].
  rewrite IH. destruct b; rewrite ?is_word_lower, ?is_word_upper; reflexivity.
Qed.

Lemma title_from_underscore b s :
  contains_underscore (title_from b s) = contains_underscore s.
Proof.
  unfold contains_underscore.
  revert b; induction s as [|a s IH]; intros b; simpl; [reflexivity|].
  rewrite IH. destruct b; rewrite ?underscore_lower, ?underscore_upper; reflexivity.
Qed.

Lemma split_on_cons sep s : exists w ws, split_on sep s = w :: ws.
Proof.
  destruct s as [|c t]; simpl; [eauto|].
  destruct (c =? sep)%char; [eauto|]. destruct (split_on sep t); eauto.
Qed.

Lemma split_on_word sep s :
  forallb is_word s = true ->
  forallb (forallb is_word) (split_on sep s) = true.
Proof.
  induction s as [|c t IH]; simpl; [reflexivity|]. intros H.
  apply andb_true_iff in H as [Hc Ht]. specialize (IH Ht).
  destruct (c =? sep)%char; [exact IH|].
  destruct (split_on sep t) as [|w ws]; simpl in *; [rewrite Hc; reflexivity|].
  rewrite Hc. exact IH.
Qed.

Lemma split_on_no_sep s :
  forallb (fun w => negb (contains_underscore w)) (split_on "_" s) = true.
Proof.
  induction s as [|c t IH]; simpl; [reflexivity|].
  destruct (c =? "_")%char eqn:E; [exact IH|].
  destruct (split_on "_" t) as [|w ws]; simpl in *; rewrite E; [reflexivity|].
  exact IH.
Qed.

Lemma concat_titles_word ws :
  forallb (forallb is_word) ws = true ->
  forallb is_word (concat (map title ws)) = true.
Proof.
  induction ws as [|w ws IH]; simpl; [reflexivity|]. intros H.
  apply andb_true_iff in H as [Hw Hws].
  rewrite forallb_app. unfold title at 1. rewrite title_from_word, Hw.
  apply IH, Hws.
Qed.

Lemma contains_underscore_app a b :
  contains_underscore (a ++ b) = contains_underscore a || contains_underscore b.
Proof. apply existsb_app. Qed.

Lemma concat_titles_no_sep ws :
  forallb (fun w => negb (contains_underscore w)) ws = true ->
  contains_underscore (concat (map title ws)) = false.
Proof.
  induction ws as [|w ws IH]; simpl; [reflexivity|]. intros H.
  apply andb_true_iff in H as [Hw Hws].
  rewrite contains_underscore_app. unfold title at 1.
  rewrite title_from_underscore, (IH Hws).
  apply negb_true_iff in Hw. rewrite Hw. reflexivity.
Qed.

Lemma camel_no_underscore n : contains_underscore (_snake_to_camel n) = false.
Proof.
  unfold _snake_to_camel. pose proof (split_on_no_sep n) as H.
  destruct (split_on "_" n) as [|w ws]; [reflexivity|].
  simpl in H. apply andb_true_iff in H as [Hw Hws].
  rewrite contains_underscore_app, (concat_titles_no_sep _ Hws).
  apply negb_true_iff in Hw. rewrite Hw. reflexivity.
Qed.

Lemma snake_no_lower_upper n : has_lower_upper (_camel_to_snake n) = false.
Proof.
  unfold _camel_to_snake. induction (insert_underscores n) as [|a s IH];
    [reflexivity|].
  destruct s as [|b r]; [reflexivity|].
  cbn [map has_lower_upper] in *. rewrite IH, is_upper_lower, andb_false_r.
  reflexivity.
Qed.

Lemma convert_word style n :
  forallb is_word n = true -> forallb is_word (convert style n) = true.
Proof.
  intros H. destruct style; simpl; [exact H| |].
  - unfold _camel_to_snake. rewrite forallb_word_map_lower.
    apply insert_underscores_word, H.
  - unfold _snake_to_camel. pose proof (split_on_word "_" n H) as Hs.
    destruct (split_on "_" n) as [|w ws]; [reflexivity|].
    simpl in Hs. apply andb_true_iff in Hs as [Hw Hws].
    rewrite forallb_app, Hw. apply concat_titles_word, Hws.
Qed.

(** A public name stays public, with its first character in place up to
    case. *)
Lemma convert_public style n :
  n <> [] -> startswith_underscore n = false ->
  convert style n <> [] /\ startswith_underscore (convert style n) = false.
Proof.
  destruct n as [|a t]; [congruence|]. intros _ Ha. simpl in Ha.
  destruct style; simpl.
  - split; [discriminate|exact Ha].
  - unfold _camel_to_snake.
    destruct (insert_underscores_head a t) as [s' ->]. simpl.
    rewrite underscore_lower. split; [discriminate|exact Ha].
  - unfold _snake_to_camel. simpl. rewrite Ha.
    destruct (split_on "_" t) as [|w ws]; simpl; rewrite ?Ha;
      (split; [discriminate|reflexivity]).
Qed.

(** ** What [inject] does to the tokens *)

Definition restyle (style : StyleType) (m : Match) : Match :=
  if startswith_underscore (group1 m) then m
  else mkMatch (str " ") (convert style (group1 m)) [].

Lemma replacer_restyle style m : replacer style m = group0 (restyle style m).
Proof.
  unfold replacer, restyle, convert.
  destruct (startswith_underscore (group1 m)); [reflexivity|].
  destruct style; reflexivity.
Qed.

Lemma restyle_wf style m : well_formed m -> well_formed (restyle style m).
Proof.
  intros Hm. unfold restyle, group1.
  destruct (startswith_underscore (name m)) eqn:E; [exact Hm|].
  destruct Hm as (_ & _ & N & A & _).
  destruct (convert_public style (name m) N E) as [N' _].
  repeat split; simpl; auto; try discriminate.
  apply convert_word, A.
Qed.

Lemma scan_re_sub style code :
  scan (re_sub (replacer style) code) = map (retok (restyle style)) (scan code).
Proof.
  rewrite (re_sub_render (restyle style)) by apply replacer_restyle.
  apply scan_retok. intros m. apply restyle_wf.
Qed.

Lemma tok_rel_retok style toks :
  Forall2 (tok_rel style) toks (map (retok (restyle style)) toks).
Proof.
  induction toks as [|[c|m] toks IH]; constructor; auto; simpl.
  - reflexivity.
  - unfold restyle, rename, group1.
    destruct (startswith_underscore (name m)); split; auto; discriminate.
Qed.

Lemma tok_rel_neutral toks : Forall2 (tok_rel neutral) toks toks.
Proof.
  induction toks as [|[c|m] toks IH]; constructor; auto; simpl.
  - reflexivity.
  - unfold rename, convert. destruct (startswith_underscore _); auto.
Qed.

(** ** What [detect] sees after [inject] *)

Definition names_of (toks : list token) : list text :=
  flat_map (fun t => match t with Chr _ => [] | Def m => [group1 m] end) toks.

Lemma names_of_retok style toks :
  names_of (map (retok (restyle style)) toks) =
  map (rename style) (names_of toks).
Proof.
  induction toks as [|[c|m] toks IH]; simpl; auto.
  rewrite IH. f_equal. unfold restyle, rename, group1.
  destruct (startswith_underscore (name m)); reflexivity.
Qed.

Lemma names_of_nonempty toks :
  Forall tok_wf toks -> Forall (fun n => n <> []) (names_of toks).
Proof.
  induction 1 as [|[c|m] toks Ht _ IH]; simpl; auto.
  constructor; auto. apply Ht.
Qed.

Lemma public_rename style l :
  Forall (fun n => n <> []) l ->
  filter (fun n => negb (startswith_underscore n)) (map (rename style) l) =
  map (convert style) (filter (fun n => negb (startswith_underscore n)) l).
Proof.
  induction 1 as [|n l Hn _ IH]; cbn [map filter]; [reflexivity|].
  assert (R : rename style n =
              if startswith_underscore n then n else convert style n)
    by reflexivity.
  destruct (startswith_underscore n) eqn:E; rewrite R; cbn [negb].
  - rewrite E. exact IH.
  - destruct (convert_public style n Hn E) as [_ ->]. cbn [negb map].
    f_equal. exact IH.
Qed.

Lemma public_names_inject code style :
  style <> neutral ->
  public_names (inject code style) =
  map (convert style) (public_names code).
Proof.
  intros Hs. unfold public_names, re_findall.
  replace (scan (inject code style))
    with (map (retok (restyle style)) (scan code))
    by (destruct style; [congruence| |]; symmetry; apply scan_re_sub).
  fold (names_of (map (retok (restyle style)) (scan code))).
  fold (names_of (scan code)).
  rewrite names_of_retok. apply public_rename, names_of_nonempty, scan_wf.
Qed.

Definition tally (l : list text) : nat * nat :=
  (length (filter contains_underscore l),
   length (filter (fun n => negb (contains_underscore n) && has_lower_upper n) l)).

Lemma count_fold l a b :
  fold_left count_step l (a, b) = (a + fst (tally l), b + snd (tally l)).
Proof.
  revert a b; induction l as [|n l IH]; intros a b.
  - simpl. f_equal; lia.
  - cbn [fold_left]. unfold count_step at 2, tally. cbn [filter].
    destruct (contains_underscore n); cbn [negb andb].
    + rewrite IH. unfold tally. cbn [fst snd length]. f_equal; lia.
    + destruct (has_lower_upper n); rewrite IH; unfold tally;
        cbn [fst snd length]; f_equal; lia.
Qed.

Definition verdict (counts : nat * nat) : StyleType :=
  let (snake_count, camel_count) := counts in
  if camel_count <? snake_count then snake_case
  else if snake_count <? camel_count then camel_case
  else neutral.

Lemma detect_public code :
  public_names code <> [] -> detect code = verdict (tally (public_names code)).
Proof.
  unfold detect, public_names. intros H.
  destruct (re_findall code) as [|n0 ns0]; [contradiction H; reflexivity|].
  destruct (filter _ (n0 :: ns0)) as [|n ns]; [contradiction H; reflexivity|].
  rewrite count_fold. reflexivity.
Qed.

Lemma filter_none {A} (p : A -> bool) l :
  (forall x, In x l -> p x = false) -> filter p l = [].
Proof.
  induction l as [|a l IH]; simpl; intros H; [reflexivity|].
  rewrite (H a) by auto. apply IH. auto.
Qed.

Lemma filter_some {A} (p : A -> bool) l x :
  In x l -> p x = true -> 0 < length (filter p l).
Proof.
  intros Hin Hp. assert (In x (filter p l)) as H by (apply filter_In; auto).
  destruct (filter p l); [contradiction|simpl; lia].
Qed.

End ChannelFacts.

(* ------------------------------------------------------------------ *)
(** * CodeChannel: the round trip and the textual contract *)
(* ------------------------------------------------------------------ *)

Module ChannelTheorems.
Import Chars Channels ChannelFacts.

Definition nl : ascii := "010"%char.

(** The round trip of the repository's own check (scripts/verify_channels.py,
    [test_round_trip]) and of the worker's stand-in code. *)
Definition original_code : text :=
  [nl] ++ str "def myFunction():" ++ [nl] ++ str "    return True" ++ [nl] ++
  [nl] ++ str "def anotherFunction(x):" ++ [nl] ++ str "    return x * 2" ++ [nl].

Example round_trip_of_the_repository_check :
  detect (inject original_code snake_case) = snake_case /\
  detect (inject original_code camel_case) = camel_case /\
  detect (inject (str "def solve_task():") snake_case) = snake_case /\
  detect (inject (str "def solve_task():") camel_case) = camel_case.
Proof. repeat split; reflexivity. Qed.

(** C1, as stated, fails.  [get_2d_array] is a public function identifier
    and the camelCase conversion rewrites it, to [get2DArray]; no lower-case
    letter of the result is followed by an upper-case one, so [detect]
    answers neutral.  Likewise [Parse] is rewritten to [parse] by the
    snake_case conversion and carries no underscore. *)
Lemma round_trip_fails_on_get_2d_array :
  public_names (str "def get_2d_array(n):") = [str "get_2d_array"] /\
  inject (str "def get_2d_array(n):") camel_case = str "def get2DArray(n):" /\
  detect (inject (str "def get_2d_array(n):") camel_case) <> camel_case /\
  public_names (str "def Parse(x):") = [str "Parse"] /\
  inject (str "def Parse(x):") snake_case = str "def parse(x):" /\
  detect (inject (str "def Parse(x):") snake_case) <> snake_case.
Proof. repeat split; try reflexivity; vm_compute; discriminate. Qed.

(** C1, amended: for ASCII text and a signaling style [s], when some public
    function identifier of the text is converted to a name that carries the
    marker of [s] (an underscore for snake_case, a lower-case letter
    immediately followed by an upper-case letter for camel_case),
    [detect (inject text s) = s]. *)
Theorem detect_inject_round_trip (code : text) (style : StyleType) :
  ascii_only code = true ->
  style <> neutral ->
  (exists n, In n (public_names code) /\
             carries_marker style (convert style n) = true) ->
  detect (inject code style) = style.
Proof.
  intros _ Hs (n & Hin & Hmark).
  assert (Hin' : In (convert style n) (public_names (inject code style))).
  { rewrite public_names_inject by exact Hs. apply in_map, Hin. }
  rewrite detect_public by (intros E; rewrite E in Hin'; contradiction).
  rewrite public_names_inject in * by exact Hs.
  unfold tally, verdict.
  destruct style; [congruence| |]; cbn [carries_marker convert] in *.
  - rewrite (filter_none (fun n => negb (contains_underscore n) && has_lower_upper n)).
    2:{ intros x Hx. apply in_map_iff in Hx as (y & <- & _).
        rewrite snake_no_lower_upper. apply andb_false_r. }
    pose proof (filter_some contains_underscore _ _ Hin' Hmark) as Hpos.
    cbn [length]. apply Nat.ltb_lt in Hpos. rewrite Hpos. reflexivity.
  - rewrite (filter_none contains_underscore).
    2:{ intros x Hx. apply in_map_iff in Hx as (y & <- & _).
        apply camel_no_underscore. }
    assert (Hm : negb (contains_underscore (_snake_to_camel n)) &&
                 has_lower_upper (_snake_to_camel n) = true)
      by (rewrite camel_no_underscore, Hmark; reflexivity).
    pose proof (filter_some
                  (fun n => negb (contains_underscore n) && has_lower_upper n)
                  _ _ Hin' Hm) as Hpos.
    cbn [length].
    rewrite (proj2 (Nat.ltb_ge _ 0)) by lia.
    apply Nat.ltb_lt in Hpos. rewrite Hpos. reflexivity.
Qed.

Lemma detect_inject_round_trip_witness :
  ascii_only (str "def getValue(x):") = true /\
  snake_case <> neutral /\
  detect (inject (str "def getValue(x):") snake_case) = snake_case.
Proof.
  split; [reflexivity|]. split; [discriminate|].
  apply detect_inject_round_trip; [reflexivity|discriminate|].
  exists (str "getValue"). split; [left; reflexivity|reflexivity].
Defined.

(** C3, as stated, fails.  A method nested in a class is not a top-level
    function, and its identifier is renamed all the same; and a header whose
    identifier is already in the target style is still rewritten, to the
    fixed layout [def name(]. *)
Lemma inject_rewrites_nested_and_spaced_headers :
  inject (str "class A:" ++ [nl] ++ str "    def getValue(self):") snake_case
    = str "class A:" ++ [nl] ++ str "    def get_value(self):" /\
  _camel_to_snake (str "solve_task") = str "solve_task" /\
  inject (str "def  solve_task (x):") snake_case = str "def solve_task(x):" /\
  inject (str "def  solve_task (x):") snake_case <> str "def  solve_task (x):".
Proof. repeat split; try reflexivity; vm_compute; discriminate. Qed.

(** C3, amended: [inject text neutral] is [text].  For ASCII text and any
    style, cut the input and the output of [inject] into the headers matched
    by [def\s+(\w+)\s*\(] (anywhere in the text, top-level or not) and the
    characters between them: both texts are the concatenation of their
    pieces, the pieces correspond one to one, every character outside a
    header is unchanged, every header carries the renamed identifier, and a
    header whose identifier is private is unchanged. *)
Theorem inject_textual_contract (code : text) (style : StyleType) :
  ascii_only code = true ->
  inject code neutral = code /\
  render (scan code) = code /\
  render (scan (inject code style)) = inject code style /\
  Forall2 (tok_rel style) (scan code) (scan (inject code style)).
Proof.
  intros _. split; [reflexivity|]. split; [apply render_scan|].
  split; [apply render_scan|].
  destruct style; cbn [inject].
  - apply tok_rel_neutral.
  - rewrite scan_re_sub. apply tok_rel_retok.
  - rewrite scan_re_sub. apply tok_rel_retok.
Qed.

Lemma inject_textual_contract_witness :
  ascii_only (str "x def  fooBar (a): def _init (b)") = true /\
  Forall2 (tok_rel snake_case)
    (scan (str "x def  fooBar (a): def _init (b)"))
    (scan (inject (str "x def  fooBar (a): def _init (b)") snake_case)).
Proof.
  split; [reflexivity|].
  apply (inject_textual_contract (str "x def  fooBar (a): def _init (b)")
           snake_case).
  reflexivity.
Defined.

End ChannelTheorems.

(* ------------------------------------------------------------------ *)
(** * BaseWorker: spending credits *)
(* ------------------------------------------------------------------ *)

Module WorkerTheorems.
Import Channels Worker.

(** The claim of C5 fails for amounts that are not positive: the test
    [self.credits >= amount] accepts them, so a spend of [-5] succeeds and
    raises the balance from 100 to 105 while the cumulative-spent counter
    drops to [-5], and a spend of [0] succeeds and decreases nothing. *)
Lemma spend_credits_accepts_non_positive_amounts :
  let a := new_worker (str "worker_0") 100 10 neutral in
  snd (spend_credits a (-5)) = true /\
  (credits (fst (spend_credits a (-5))) == 105)%Q /\
  (total_credits_spent (stats (fst (spend_credits a (-5)))) == -5)%Q /\
  snd (spend_credits a 0) = true /\
  (credits (fst (spend_credits a 0)) == credits a)%Q /\
  (total_credits_spent (stats (fst (spend_credits a 0))) ==
   total_credits_spent (stats a))%Q.
Proof.
  cbv zeta. split; [reflexivity|]. split; [reflexivity|].
  split; [reflexivity|]. split; [reflexivity|].
  split; reflexivity.
Qed.

(** C5, amended: [spend_credits] returns a worker and a flag for every
    agent and amount, so it never raises; it reports success exactly when
    [balance >= amount], whatever the sign of the amount; on failure the
    agent is unchanged; on success only the balance and the cumulative-spent
    counter change, and the new balance is not negative.  For an amount that
    is not negative the balance does not go up and the counter does not go
    down; for an amount that is not positive it is the other way round.  So
    a balance that is not negative stays so.  The order statements are not
    strict: they are the ones that hold whether or not the subtraction is
    rounded. *)
Theorem spend_credits_contract (a : BaseWorker) (amount : Q) :
  let a' := fst (spend_credits a amount) in
  let ok := snd (spend_credits a amount) in
  (ok = true <-> (amount <= credits a)%Q) /\
  (ok = false -> a' = a) /\
  (ok = true ->
     (0 <= credits a')%Q /\
     ((0 <= amount)%Q ->
        (credits a' <= credits a)%Q /\
        (total_credits_spent (stats a) <= total_credits_spent (stats a'))%Q) /\
     ((amount <= 0)%Q ->
        (credits a <= credits a')%Q /\
        (total_credits_spent (stats a') <= total_credits_spent (stats a))%Q) /\
     worker_id a' = worker_id a /\
     memory_window_size a' = memory_window_size a /\
     preferred_style a' = preferred_style a /\
     memory a' = memory a /\
     total_submissions (stats a') = total_submissions (stats a) /\
     successful_submissions (stats a') = successful_submissions (stats a) /\
     failed_submissions (stats a') = failed_submissions (stats a) /\
     total_credits_earned (stats a') = total_credits_earned (stats a)) /\
  ((0 <= credits a)%Q -> (0 <= credits a')%Q).
Proof.
  unfold spend_credits.
  destruct (Qle_bool amount (credits a)) eqn:E; cbn [fst snd].
  - apply Qle_bool_iff in E. split; [tauto|]. split; [discriminate|].
    unfold with_credits.
    cbn [credits stats total_credits_spent worker_id memory_window_size
         preferred_style memory total_submissions successful_submissions
         failed_submissions total_credits_earned].
    split; [intros _|intros _; lra].
    split; [lra|]. split; [intros H; split; lra|].
    split; [intros H; split; lra|]. repeat split.
  - assert (N : ~ (amount <= credits a)%Q)
      by (intros H; apply Qle_bool_iff in H; congruence).
    split; [split; [discriminate|contradiction]|].
    split; [reflexivity|]. split; [discriminate|auto].
Qed.

End WorkerTheorems.

(* ------------------------------------------------------------------ *)
(** * Evolver: population size, counts and the new identifiers *)
(* ------------------------------------------------------------------ *)

Module EvolutionFacts.
Import Chars Py PyFacts Channels Worker Evolution.

(** The loop replaces slots and never adds or removes one; it hands out
    consecutive numbers, one per pass. *)
Lemma reproduce_all_spec e elite0 elites indices rnd :
  forall st pass,
  let st' := reproduce_all e elite0 elites st indices rnd pass in
  length (population st') = length (population st) /\
  next_id st' = (next_id st + Z.of_nat (length indices))%Z /\
  map worker_id (new_agents st') =
    map worker_id (new_agents st) ++
    map (fun j => str "evolved_" ++ py_str (next_id st + Z.of_nat j))
        (seq 0 (length indices)).
Proof.
  induction indices as [|idx rest IH]; intros st pass; cbn zeta.
  - cbn [reproduce_all length seq map]. rewrite app_nil_r. repeat split. lia.
  - cbn [reproduce_all].
    destruct (IH (reproduce e elite0 elites st idx (rnd pass)) (S pass))
      as (L & N & W).
    rewrite L, N, W.
    set (c := new_agents (reproduce e elite0 elites st idx (rnd pass))).
    assert (Ec : map worker_id c = map worker_id (new_agents st) ++
                   [str "evolved_" ++ py_str (next_id st)]).
    { unfold c, reproduce. cbn [new_agents]. rewrite map_app. f_equal.
      cbn [map]. f_equal. destruct (negb _); reflexivity. }
    rewrite Ec. unfold reproduce.
    cbn [population next_id new_agents length]. rewrite list_set_length.
    repeat split; [lia|].
    rewrite <- app_assoc. f_equal. cbn [seq map app].
    replace (next_id st + Z.of_nat 0)%Z with (next_id st) by lia.
    f_equal.
    rewrite <- seq_shift, map_map. apply map_ext. intros j.
    do 2 f_equal. lia.
Qed.

Lemma index_of_member a agents :
  In a agents -> exists i, index_of (worker_id a) agents = Some i.
Proof.
  induction agents as [|b t IH]; simpl; [tauto|].
  intros [->|H].
  - rewrite text_eqb_refl. eauto.
  - destruct (text_eqb _ _); [eauto|].
    destruct (IH H) as [i ->]. simpl. eauto.
Qed.

(** Every culled agent is found in the population: one slot per agent. *)
Lemma cull_indices_length cull_list agents :
  (forall a, In a cull_list -> In a agents) ->
  length (cull_indices_of cull_list agents) = length cull_list.
Proof.
  unfold cull_indices_of.
  induction cull_list as [|c t IH]; intros H; simpl; [reflexivity|].
  destruct (index_of_member c agents) as [i ->]; [apply H; simpl; auto|].
  simpl. f_equal. apply IH. intros a Ha. apply H. simpl; auto.
Qed.

Lemma fifth_le n : 5 <= n -> Nat.max 1 (n / 5) <= n.
Proof.
  intros H. pose proof (Nat.Div0.div_le_upper_bound n 5 n) as D.
  assert (n / 5 <= n) by (apply D; lia). lia.
Qed.

Lemma cull_list_length agents :
  5 <= length agents ->
  let k := Nat.max 1 (length agents / 5) in
  length (cull_indices_of
            (skipn (length (sorted_agents_of agents) - k)
                   (sorted_agents_of agents))
            agents) = k.
Proof.
  intros H k. unfold sorted_agents_of. rewrite cull_indices_length.
  - rewrite length_skipn, sorted_desc_length.
    pose proof (fifth_le _ H). unfold k. lia.
  - intros a Ha. apply (sorted_desc_in credits).
    rewrite <- (firstn_skipn (length (sorted_desc credits agents) - k)).
    apply in_or_app. right. exact Ha.
Qed.

Lemma id_numbers_length agents numbers :
  id_numbers agents = Some numbers -> length numbers = length agents.
Proof.
  revert numbers; induction agents as [|a t IH]; intros numbers; simpl.
  - intros H; inversion H; reflexivity.
  - destruct (id_number (worker_id a)); [|discriminate].
    destruct (id_numbers t) as [ns|]; [|discriminate].
    intros H; inversion H; subst. simpl. f_equal. apply IH. reflexivity.
Qed.

(** The largest parsed suffix, when every identifier parses. *)
Definition top_number (agents : list BaseWorker) : option Z :=
  match id_numbers agents with
  | Some numbers => maximum numbers
  | None => None
  end.

Definition new_ids_of (o : Outcome) : option (list text) :=
  match o with
  | Evolved r => Some (new_agent_ids r)
  | _ => None
  end.

(** The body of [evolve_population] on a population of at least five. *)
Lemma evolve_population_large e agents rnd :
  5 <= length agents ->
  let k := Nat.max 1 (length agents / 5) in
  let result := evolve_population e agents rnd in
  match top_number agents with
  | None => result = (agents, Raised ValueError)
  | Some top =>
      length (fst result) = length agents /\
      exists r, snd result = Evolved r /\
        population_size r = length agents /\
        elite_count r = k /\ cull_count r = k /\
        new_agent_ids r =
          map (fun j => str "evolved_" ++ py_str (top + 1 + Z.of_nat j))
              (seq 0 k)
  end.
Proof.
  intros H k result. unfold result, evolve_population, top_number.
  rewrite (proj2 (Nat.ltb_ge _ _) H).
  destruct (id_numbers agents) as [numbers|] eqn:En; [|reflexivity].
  destruct (maximum numbers) as [top|] eqn:Et; [|reflexivity].
  assert (Hs : length (sorted_agents_of agents) = length agents)
    by apply sorted_desc_length.
  destruct (firstn (Nat.max 1 (length agents / 5)) (sorted_agents_of agents))
    as [|elite0 elites'] eqn:Ee.
  { apply (f_equal (@length _)) in Ee. rewrite length_firstn, Hs in Ee.
    cbn [length] in Ee. lia. }
  cbn [fst snd].
  match goal with |- context [reproduce_all ?e ?x ?l ?st ?ixs ?r ?p] =>
    destruct (reproduce_all_spec e x l ixs r st p) as (L & _ & W) end.
  cbn [population next_id new_agents map app] in L, W.
  split; [exact L|].
  eexists. split; [reflexivity|].
  cbn [population_size elite_count cull_count new_agent_ids].
  repeat split; auto.
  rewrite W. rewrite (cull_list_length agents H). fold k.
  apply map_ext. intros j. reflexivity.
Qed.

Lemma top_number_some agents numbers :
  id_numbers agents = Some numbers -> agents <> [] ->
  exists top, top_number agents = Some top.
Proof.
  intros E N. unfold top_number. rewrite E.
  apply id_numbers_length in E.
  destruct numbers as [|x t]; simpl; [|eauto].
  destruct agents; [congruence|discriminate].
Qed.

End EvolutionFacts.

Module EvolutionTheorems.
Import Chars Py Channels Worker Evolution EvolutionFacts.

(** Five workers [agent_0 .. agent_3] and one more, with credits 10, 20,
    30, 40, 50: the populations used in the examples below. *)
Definition five_with (last_id : text) : list BaseWorker :=
  [ new_worker (str "agent_0") 10 10 neutral;
    new_worker (str "agent_1") 20 10 snake_case;
    new_worker (str "agent_2") 30 10 neutral;
    new_worker (str "agent_3") 40 10 camel_case;
    new_worker last_id 50 10 snake_case ].

(** Draws under which no mutation fires. *)
Definition quiet_draws : nat -> Draw := fun _ => mkDraw 0 1 1 0.

Definition evolver0 : Evolver := mkEvolver (1 # 10).

(** C4: [evolve_population] never changes the length of the population,
    whatever it returns or raises.  Below five agents it changes nothing and
    returns the not-evolved result with its reason.  From five agents on,
    every result it returns has [elite_count = cull_count = max 1 (n / 5)]
    and reports the unchanged size; it does return one whenever every
    identifier with an underscore ends in an integer, and otherwise raises
    [ValueError] with the population untouched. *)
Theorem evolve_population_size_and_counts
    (e : Evolver) (agents : list BaseWorker) (rnd : nat -> Draw) :
  let n := length agents in
  let result := evolve_population e agents rnd in
  length (fst result) = n /\
  (n < 5 ->
     result = (agents, NotEvolved (str "Population too small for evolution") n)) /\
  (5 <= n -> forall r, snd result = Evolved r ->
     population_size r = n /\
     elite_count r = Nat.max 1 (n / 5) /\ cull_count r = Nat.max 1 (n / 5)) /\
  (5 <= n -> id_numbers agents <> None -> exists r, snd result = Evolved r) /\
  (5 <= n -> id_numbers agents = None -> result = (agents, Raised ValueError)).
Proof.
  intros n result.
  destruct (Nat.ltb_spec n 5) as [Hsmall|Hlarge].
  - assert (E : result = (agents,
        NotEvolved (str "Population too small for evolution") n)).
    { unfold result, evolve_population. fold n.
      rewrite (proj2 (Nat.ltb_lt _ _) Hsmall). reflexivity. }
    rewrite E. cbn [fst snd]. split; [reflexivity|]. split; [reflexivity|].
    repeat split; intros; unfold n in *; lia.
  - pose proof (evolve_population_large e agents rnd Hlarge) as P.
    cbn zeta in P. fold n result in P.
    destruct (top_number agents) as [top|] eqn:Et.
    + destruct P as (L & r & Er & Ps & Ec & Cc & _).
      split; [exact L|]. split; [intros; unfold n in *; lia|].
      split; [intros _ r' Er'; rewrite Er in Er'; inversion Er'; subst; auto|].
      split; [eauto|].
      intros _ En. unfold top_number in Et. rewrite En in Et. discriminate.
    + rewrite P. cbn [fst snd]. split; [reflexivity|].
      split; [intros; unfold n in *; lia|].
      split; [discriminate|]. split; [|reflexivity].
      intros _ En. destruct (id_numbers agents) as [ns|] eqn:E; [|congruence].
      destruct (top_number_some agents ns E) as [top Ht];
        [intros Hnil; unfold n in Hlarge; rewrite Hnil in Hlarge;
         simpl in Hlarge; lia|].
      congruence.
Qed.

Lemma evolve_population_size_and_counts_witness :
  exists r,
    snd (evolve_population evolver0 (five_with (str "agent_4")) quiet_draws)
      = Evolved r /\
    population_size r = 5 /\ elite_count r = 1 /\ cull_count r = 1.
Proof.
  destruct (evolve_population_size_and_counts evolver0
              (five_with (str "agent_4")) quiet_draws)
    as (_ & _ & Counts & Returns & _).
  destruct (Returns ltac:(simpl; lia) ltac:(vm_compute; discriminate))
    as [r Hr].
  exists r. split; [exact Hr|].
  apply (Counts ltac:(simpl; lia) r Hr).
Defined.

(** C6, as stated, fails: the evolver keeps no counter, and the number of a
    new identifier is read off the identifiers of the population.  With the
    same evolver and the same draws, renaming one agent from [agent_4] to
    [agent_41] moves the new identifier from [evolved_5] to [evolved_42];
    and a population holding the identifier [integration_worker] makes the
    call raise [ValueError]. *)
Lemma new_ids_depend_on_population_suffixes :
  new_ids_of (snd (evolve_population evolver0 (five_with (str "agent_4"))
                     quiet_draws)) = Some [str "evolved_5"] /\
  new_ids_of (snd (evolve_population evolver0 (five_with (str "agent_41"))
                     quiet_draws)) = Some [str "evolved_42"] /\
  snd (evolve_population evolver0 (five_with (str "integration_worker"))
         quiet_draws) = Raised ValueError.
Proof. repeat split; vm_compute; reflexivity. Qed.

(** C6, amended: on a population of [n >= 5] agents in which every
    identifier with an underscore ends in an integer, the identifiers of the
    clones are [evolved_k] for consecutive [k], one per culled slot in the
    order the slots are processed, starting at one more than the largest
    integer parsed from the text after the last underscore of the agents'
    identifiers (0 for an identifier without underscore). *)
Theorem new_agent_ids_from_parsed_suffixes
    (e : Evolver) (agents : list BaseWorker) (rnd : nat -> Draw) (top : Z) :
  5 <= length agents ->
  top_number agents = Some top ->
  new_ids_of (snd (evolve_population e agents rnd)) =
  Some (map (fun j => str "evolved_" ++ py_str (top + 1 + Z.of_nat j))
            (seq 0 (Nat.max 1 (length agents / 5)))).
Proof.
  intros H Ht. pose proof (evolve_population_large e agents rnd H) as P.
  cbn zeta in P. rewrite Ht in P.
  destruct P as (_ & r & -> & _ & _ & _ & Ids). cbn [new_ids_of].
  rewrite Ids. reflexivity.
Qed.

Lemma new_agent_ids_from_parsed_suffixes_witness :
  5 <= length (five_with (str "agent_41")) /\
  top_number (five_with (str "agent_41")) = Some 41%Z /\
  new_ids_of (snd (evolve_population evolver0 (five_with (str "agent_41"))
                     quiet_draws)) =
  Some (map (fun j => str "evolved_" ++ py_str (41 + 1 + Z.of_nat j))
            (seq 0 (Nat.max 1 (length (five_with (str "agent_41")) / 5)))).
Proof.
  split; [simpl; lia|]. split; [reflexivity|].
  apply (new_agent_ids_from_parsed_suffixes evolver0
           (five_with (str "agent_41")) quiet_draws 41);
    [simpl; lia|reflexivity].
Defined.

End EvolutionTheorems.

(* ------------------------------------------------------------------ *)
(** * SharedRepository: the identifiers issued by [submit_commit] *)
(* ------------------------------------------------------------------ *)

Module EnvironmentTheorems.
Import Py PyFacts Environment.

Lemma set_commit_id_length h r id : length (set_commit_id h r id) = length h.
Proof.
  unfold set_commit_id. destruct (deref h r); [apply list_set_length|reflexivity].
Qed.

Lemma id_of_set_commit_id h r id :
  r < length h -> id_of (set_commit_id h r id) r = Some id.
Proof.
  intros H. unfold id_of, set_commit_id, deref.
  destruct (nth_error h r) as [c|] eqn:E.
  - rewrite list_set_same by exact H. reflexivity.
  - apply nth_error_None in E. lia.
Qed.

(** Consecutive integers are strictly increasing and pairwise distinct. *)
Definition consecutive (start : Z) (count : nat) : list Z :=
  map (fun j => (start + Z.of_nat j)%Z) (seq 0 count).

Lemma consecutive_cons start count :
  consecutive start (S count) = start :: consecutive (start + 1) count.
Proof.
  unfold consecutive. cbn [seq map]. f_equal; [lia|].
  rewrite <- seq_shift, map_map. apply map_ext. intros j. lia.
Qed.

Lemma consecutive_lower start count x :
  In x (consecutive start count) -> (start <= x)%Z.
Proof.
  unfold consecutive. intros H. apply in_map_iff in H as (j & <- & _). lia.
Qed.

Lemma consecutive_sorted start count :
  StronglySorted Z.lt (consecutive start count).
Proof.
  revert start; induction count as [|n IH]; intros start.
  - constructor.
  - rewrite consecutive_cons. constructor; [apply IH|].
    apply Forall_forall. intros x Hx. apply consecutive_lower in Hx. lia.
Qed.

Lemma consecutive_nodup start count : NoDup (consecutive start count).
Proof.
  revert start; induction count as [|n IH]; intros start.
  - constructor.
  - rewrite consecutive_cons. constructor; [|apply IH].
    intros Hx. apply consecutive_lower in Hx. lia.
Qed.

(** What a run of submissions does, call by call. *)
Lemma submit_all_trace subs :
  forall h repo,
  Forall (fun sub : ref * Q => fst sub < length h) subs ->
  let run := submit_all h repo subs in
  map fst (snd run) = repeat true (length subs) /\
  map snd (snd run) =
    map Some (consecutive (_next_commit_id repo) (length subs)) /\
  commits (snd (fst run)) = commits repo ++ map fst subs /\
  _next_commit_id (snd (fst run)) =
    (_next_commit_id repo + Z.of_nat (length subs))%Z.
Proof.
  induction subs as [|[c gain] rest IH]; intros h repo Hv; cbn zeta.
  - cbn. rewrite app_nil_r. repeat split. lia.
  - inversion Hv as [|? ? Hc Hrest]; subst. cbn [fst] in Hc.
    cbn [submit_all submit_commit].
    set (h1 := set_commit_id h c (_next_commit_id repo)).
    set (repo1 := mkRepo _ _ _ _ _).
    assert (Hv1 : Forall (fun sub : ref * Q => fst sub < length h1) rest).
    { unfold h1. eapply Forall_impl; [|exact Hrest]. cbn beta.
      intros a Ha. rewrite set_commit_id_length. exact Ha. }
    destruct (IH h1 repo1 Hv1) as (A & B & C & D).
    destruct (submit_all h1 repo1 rest) as [[h2 repo2] trace].
    cbn [fst snd map length repeat] in *.
    rewrite A, B, C, D. unfold h1 at 1. rewrite id_of_set_commit_id by exact Hc.
    rewrite consecutive_cons. cbn [map _next_commit_id commits repo1].
    unfold repo1; cbn [_next_commit_id commits].
    rewrite <- app_assoc. repeat split. lia.
Qed.

(** The same [Commit] object submitted twice sits twice in the log, and the
    log then shows its latest identifier at both places. *)
Example log_ids_after_resubmission :
  let h := [mkCommit (str "worker_0") (str "pass") 0 None None] in
  let run := submit_all h new_repository [(0, 1%Q); (0, 1%Q)] in
  map snd (snd run) = [Some 0%Z; Some 1%Z] /\
  log_ids (fst (fst run)) (snd (fst run)) = [Some 1%Z; Some 1%Z].
Proof. split; reflexivity. Qed.

(** C8: for every sequence of submissions to one repository, every call
    returns [True], and the identifiers the calls assign, in the order of the
    calls, are strictly increasing and pairwise distinct. *)
Theorem submitted_ids_strictly_increasing
    (h : store) (repo : SharedRepository) (subs : list (ref * Q)) :
  Forall (fun sub : ref * Q => fst sub < length h) subs ->
  let trace := snd (submit_all h repo subs) in
  Forall (fun call => fst call = true) trace /\
  length trace = length subs /\
  exists ids, map snd trace = map Some ids /\
              StronglySorted Z.lt ids /\ NoDup ids.
Proof.
  intros Hv trace.
  destruct (submit_all_trace subs h repo Hv) as (A & B & _ & _).
  fold trace in A, B. split; [|split].
  - apply Forall_forall. intros call Hin.
    assert (Hf : In (fst call) (map fst trace)) by (apply in_map, Hin).
    rewrite A in Hf. apply repeat_spec in Hf. exact Hf.
  - rewrite <- (length_map fst), A. apply repeat_length.
  - exists (consecutive (_next_commit_id repo) (length subs)).
    split; [exact B|]. split; [apply consecutive_sorted|apply consecutive_nodup].
Qed.

Lemma submitted_ids_strictly_increasing_witness :
  let h := [mkCommit (str "worker_0") (str "pass") 0 None None;
            mkCommit (str "worker_1") (str "pass") 0 None None] in
  let subs := [(0, 1%Q); (1, (3 # 2)%Q); (0, 2%Q)] in
  Forall (fun sub : ref * Q => fst sub < length h) subs /\
  exists ids, map snd (snd (submit_all h new_repository subs)) = map Some ids /\
              StronglySorted Z.lt ids /\ NoDup ids.
Proof.
  intros h subs.
  assert (Hv : Forall (fun sub : ref * Q => fst sub < length h) subs)
    by (repeat constructor).
  split; [exact Hv|].
  exact (proj2 (proj2 (submitted_ids_strictly_increasing h new_repository
                         subs Hv))).
Defined.

End EnvironmentTheorems.

(* ------------------------------------------------------------------ *)
(** * NashMetrics: the empty population *)
(* ------------------------------------------------------------------ *)

Module MetricsTheorems.
Import Py Channels Worker Metrics.

(** C9: on the empty population [calculate_distance] returns exactly 0.  The
    division it guards would raise there, the number of agents being zero;
    with the guard the division is only ever evaluated on a positive number
    of agents, so [calculate_distance] returns on every population. *)
Theorem calculate_distance_empty_population :
  calculate_distance [] = Ok 0%Q /\
  py_div (Z.of_nat (length (filter is_neutral [])))
         (Z.of_nat (length (@nil BaseWorker))) = Raise ZeroDivisionError /\
  forall agents, exists d, calculate_distance agents = Ok d.
Proof.
  split; [reflexivity|]. split; [reflexivity|].
  intros [|a t]; [eexists; reflexivity|].
  unfold calculate_distance, py_div.
  destruct (Z.eqb_spec (Z.of_nat (length (a :: t))) 0) as [E|_].
  - simpl in E. lia.
  - eexists. reflexivity.
Qed.

End MetricsTheorems.

(* ------------------------------------------------------------------ *)
(** * Recommender and SteeringMechanism *)
(* ------------------------------------------------------------------ *)

Module OverseerFacts.
Import Py Overseer.

Lemma py_mod_in_table a n :
  (0 < n)%Z -> exists v, py_mod a n = Ok v /\ in_table n v = true.
Proof.
  intros H. unfold py_mod, in_table.
  destruct (Z.eqb_spec n 0) as [E|_]; [lia|].
  exists (a mod n)%Z. split; [reflexivity|].
  pose proof (Z.mod_pos_bound a n H).
  apply andb_true_iff. split; [apply Z.leb_le|apply Z.ltb_lt]; lia.
Qed.

Lemma mapM_ok {A B} (f : A -> result B) (P : B -> bool) l :
  (forall x, exists y, f x = Ok y /\ P y = true) ->
  exists ys, mapM f l = Ok ys /\ forallb P ys = true /\ length ys = length l.
Proof.
  intros H. induction l as [|a t (ys & E & F & L)]; simpl; [eauto|].
  destruct (H a) as (y & Ey & Py). rewrite Ey, E. simpl.
  exists (y :: ys). simpl. rewrite Py, F, L. auto.
Qed.

Lemma in_firstn {A} n (l : list A) x : In x (firstn n l) -> In x l.
Proof.
  revert l; induction n as [|n IH]; intros [|a l]; simpl; try tauto.
  intros [H|H]; auto.
Qed.

Section WithNet.
Variable net : Net.

Lemma tokenize_ok r code :
  (0 < vocab_size r)%Z ->
  exists tokens, _tokenize_code net r code = Ok tokens /\
                 forallb (in_table (vocab_size r)) tokens = true.
Proof.
  intros H. unfold _tokenize_code.
  destruct (mapM_ok (fun c => py_mod (hash_str net [c]) (vocab_size r))
              (in_table (vocab_size r)) (firstn 100 code))
    as (tokens & -> & F & _); [intros c; apply py_mod_in_table, H|].
  cbn [bind]. eexists. split; [reflexivity|].
  destruct (length tokens <? 50).
  - rewrite forallb_app, F. cbn [andb].
    apply forallb_forall. intros x Hx. apply repeat_spec in Hx. subst x.
    unfold in_table. apply andb_true_iff.
    split; [reflexivity|apply Z.ltb_lt, H].
  - rewrite forallb_forall in F. apply forallb_forall. intros x Hx.
    apply F. eapply in_firstn; eassumption.
Qed.

Lemma activations_ok r agent_id code :
  (0 < vocab_size r)%Z -> (0 < num_agents r)%Z ->
  exists a, activations net r agent_id code = Ok a.
Proof.
  intros Hv Hn. unfold activations.
  destruct (tokenize_ok r code Hv) as (tokens & -> & F). cbn [bind].
  destruct (py_mod_in_table agent_id _ Hn) as (i & -> & Hi). cbn [bind].
  unfold embedding. rewrite Hi. cbn [bind]. rewrite F. eauto.
Qed.

(** The activations read the two sizes of the recommender and nothing else. *)
Lemma activations_sizes r r' agent_id code :
  vocab_size r' = vocab_size r -> num_agents r' = num_agents r ->
  activations net r' agent_id code = activations net r agent_id code.
Proof.
  intros Hv Hn. unfold activations, _tokenize_code. rewrite Hv, Hn. reflexivity.
Qed.

Lemma batch_ok r codes :
  (0 < vocab_size r)%Z -> (0 < num_agents r)%Z ->
  exists acts, mapM (activations net r 0) codes = Ok acts.
Proof.
  intros Hv Hn.
  destruct (mapM_ok (activations net r 0) (fun _ => true) codes)
    as (acts & E & _); [|eauto].
  intros c. destruct (activations_ok r 0 c Hv Hn) as [a Ea]. eauto.
Qed.

(** A prediction is computed from the two sizes, the registered hooks and
    the vector of the mechanism. *)
Lemma predict_unhooked r s agent_id code :
  pre_hooks r = [] ->
  snd (predict net r s agent_id code) =
  (a <- activations net r agent_id code ;; Ok (scorer net a)).
Proof.
  intros H. unfold predict. cbn [snd].
  rewrite (activations_sizes r (set_eval r)) by reflexivity.
  unfold call_trust_predictor. cbn [set_eval pre_hooks]. rewrite H.
  reflexivity.
Qed.

(** A non-empty batch goes through with valid sizes. *)
Lemma batch_call_ok r codes :
  (0 < vocab_size r)%Z -> (0 < num_agents r)%Z -> codes <> [] ->
  exists acts,
    mapM (activations net (set_eval r) 0) codes = Ok acts /\
    get_activations_batch net r codes = (set_eval r, Ok acts).
Proof.
  intros Hv Hn Hc. destruct (batch_ok (set_eval r) codes Hv Hn) as [acts E].
  exists acts. split; [exact E|].
  unfold get_activations_batch. destruct codes as [|c t]; [congruence|].
  rewrite E. reflexivity.
Qed.

(** An empty batch raises. *)
Lemma batch_call_empty r :
  (0 < num_agents r)%Z ->
  get_activations_batch net r [] = (set_eval r, Raise RuntimeError).
Proof.
  intros Hn. unfold get_activations_batch, py_mod.
  cbn [set_eval num_agents].
  destruct (Z.eqb_spec (num_agents r) 0) as [E|_]; [lia|reflexivity].
Qed.

Lemma compute_ok s r snake_codes neutral_codes :
  (0 < vocab_size r)%Z -> (0 < num_agents r)%Z ->
  snake_codes <> [] -> neutral_codes <> [] ->
  exists sa na,
    mapM (activations net (set_eval r) 0) snake_codes = Ok sa /\
    mapM (activations net (set_eval (set_eval r)) 0) neutral_codes = Ok na /\
    let v := act_sub net (act_mean net sa) (act_mean net na) in
    compute_collusion_vector net s r snake_codes neutral_codes =
    (set_eval (set_eval r),
     mkSteering (Some v) (hook_handle s) (steering_coefficient s), Ok v).
Proof.
  intros Hv Hn Hs Hc. unfold compute_collusion_vector.
  destruct (batch_call_ok r snake_codes Hv Hn Hs) as (sa & Ea & ->).
  destruct (batch_call_ok (set_eval r) neutral_codes Hv Hn Hc)
    as (na & Eb & ->).
  exists sa, na. split; [exact Ea|]. split; [exact Eb|]. reflexivity.
Qed.

(** On a recommender without hooks, [apply_steering] leaves exactly one. *)
Lemma apply_steering_clean s r coefficient v :
  pre_hooks r = [] -> collusion_vector s = Some v ->
  exists r2 s2,
    apply_steering net s r coefficient = Ok (r2, s2) /\
    pre_hooks r2 = [(next_handle r, coefficient)] /\
    hook_handle s2 = Some (next_handle r) /\
    vocab_size r2 = vocab_size r /\ num_agents r2 = num_agents r.
Proof.
  intros Hh Hv. unfold apply_steering, reset_steering. rewrite Hv.
  destruct (hook_handle s); cbn [pre_hooks next_handle vocab_size num_agents];
    rewrite Hh; do 2 eexists; repeat split.
Qed.

(** [reset_steering] removes the hook registered under its handle. *)
Lemma reset_steering_single s r h coefficient :
  pre_hooks r = [(h, coefficient)] -> hook_handle s = Some h ->
  pre_hooks (fst (reset_steering net s r)) = [] /\
  vocab_size (fst (reset_steering net s r)) = vocab_size r /\
  num_agents (fst (reset_steering net s r)) = num_agents r.
Proof.
  intros Hh Hs. unfold reset_steering. rewrite Hs.
  cbn [fst pre_hooks vocab_size num_agents]. rewrite Hh.
  cbn [filter fst]. rewrite Nat.eqb_refl. repeat split.
Qed.

End WithNet.

End OverseerFacts.

Module OverseerTheorems.
Import Py Overseer OverseerFacts.

(** A small concrete network over the integers, for the examples. *)
Definition toy_net : Net :=
  mkNet Z Z Z
    (fun s => Z.of_nat (length s))
    (fun tokens => fold_left Z.add tokens 0%Z)
    (fun i => i)
    Z.add
    inject_Z
    Z.sub
    (fun c v => (Qnum c * v)%Z)
    (fun l => (fold_left Z.add l 0 / Z.of_nat (length l))%Z).

(** C7: start from a recommender with no interception active, with valid
    sizes, and non-empty corpora.  Then [compute_collusion_vector] returns a
    vector, [apply_steering] at any coefficient succeeds, and after
    [reset_steering] the prediction for every agent key and text is equal to
    the prediction before the intervention (and is a score, not an error). *)
Theorem reset_restores_predictions
    (net : Net) (r : Recommender) (s : SteeringMechanism net)
    (snake_codes neutral_codes : list text) (coefficient : Q)
    (agent_id : Z) (code : text) :
  pre_hooks r = [] ->
  (0 < vocab_size r)%Z -> (0 < num_agents r)%Z ->
  snake_codes <> [] -> neutral_codes <> [] ->
  exists r1 s1 v r2 s2,
    compute_collusion_vector net s r snake_codes neutral_codes
      = (r1, s1, Ok v) /\
    apply_steering net s1 r1 coefficient = Ok (r2, s2) /\
    let r3 := fst (reset_steering net s2 r2) in
    let s3 := snd (reset_steering net s2 r2) in
    pre_hooks r3 = [] /\
    snd (predict net r3 s3 agent_id code) =
      snd (predict net r s agent_id code) /\
    exists score, snd (predict net r s agent_id code) = Ok score.
Proof.
  intros Hh Hv Hn Hs Hc.
  destruct (compute_ok net s r snake_codes neutral_codes Hv Hn Hs Hc)
    as (sa & na & _ & _ & Ec). cbv zeta in Ec.
  set (v := act_sub net (act_mean net sa) (act_mean net na)) in *.
  destruct (apply_steering_clean net
              (mkSteering (Some v) (hook_handle s) (steering_coefficient s))
              (set_eval (set_eval r)) coefficient v Hh eq_refl)
    as (r2 & s2 & Ea & Hhooks & Hhandle & Sv & Sn).
  exists (set_eval (set_eval r)), (mkSteering (Some v) (hook_handle s)
                                     (steering_coefficient s)), v, r2, s2.
  split; [exact Ec|]. split; [exact Ea|]. cbn zeta.
  destruct (reset_steering_single net s2 r2 _ _ Hhooks Hhandle)
    as (Hclean & Rv & Rn).
  split; [exact Hclean|].
  rewrite !predict_unhooked by assumption.
  cbn [set_eval vocab_size num_agents] in Sv, Sn.
  split.
  - rewrite (activations_sizes net r (fst (reset_steering net s2 r2)));
      [reflexivity| |]; congruence.
  - destruct (activations_ok net r agent_id code Hv Hn) as [a ->].
    eexists; reflexivity.
Qed.

Lemma reset_restores_predictions_witness :
  exists r1 s1 v r2 s2,
    compute_collusion_vector toy_net (new_steering toy_net) new_recommender
      [str "def a_b():"] [str "def ab():"] = (r1, s1, Ok v) /\
    apply_steering toy_net s1 r1 5 = Ok (r2, s2) /\
    let r3 := fst (reset_steering toy_net s2 r2) in
    let s3 := snd (reset_steering toy_net s2 r2) in
    pre_hooks r3 = [] /\
    snd (predict toy_net r3 s3 7 (str "def a_b():")) =
      snd (predict toy_net new_recommender (new_steering toy_net) 7
             (str "def a_b():")) /\
    exists score,
      snd (predict toy_net new_recommender (new_steering toy_net) 7
             (str "def a_b():")) = Ok score.
Proof.
  apply (reset_restores_predictions toy_net new_recommender
           (new_steering toy_net) [str "def a_b():"] [str "def ab():"] 5 7
           (str "def a_b():"));
    [reflexivity|reflexivity|reflexivity|discriminate|discriminate].
Defined.

(** The interception is not a no-op: on the toy network the steered
    prediction differs from the plain one, and the reset brings it back. *)
Example steering_changes_toy_prediction :
  let r := new_recommender in
  let s := new_steering toy_net in
  let code := str "def a_b():" in
  let '(r1, s1, _) :=
    compute_collusion_vector toy_net s r [code] [str "def ab():"] in
  match apply_steering toy_net s1 r1 5 with
  | Raise _ => False
  | Ok (r2, s2) =>
      snd (predict toy_net r s 7 code) = Ok (inject_Z 17) /\
      snd (predict toy_net r2 s2 7 code) = Ok (inject_Z 12) /\
      snd (predict toy_net (fst (reset_steering toy_net s2 r2))
             (snd (reset_steering toy_net s2 r2)) 7 code) = Ok (inject_Z 17)
  end.
Proof. vm_compute. repeat split. Qed.

(** C10: agent keys that are congruent modulo [num_agents] get the same
    prediction for the same text (whatever interception is active, since the
    key enters the computation through [agent_id % num_agents] alone); with
    valid sizes that prediction is a score. *)
Theorem predict_congruent_agent_keys
    (net : Net) (r : Recommender) (s : SteeringMechanism net)
    (k m : Z) (code : text) :
  snd (predict net r s (k + m * num_agents r) code) =
    snd (predict net r s k code) /\
  ((0 < vocab_size r)%Z -> (0 < num_agents r)%Z ->
   exists score, snd (predict net r s k code) = Ok score).
Proof.
  split.
  - unfold predict, activations, py_mod. cbn [snd set_eval num_agents].
    destruct (Z.eqb_spec (num_agents r) 0) as [E|E].
    + reflexivity.
    + rewrite Z.mod_add by exact E. reflexivity.
  - intros Hv Hn. unfold predict. cbn [snd].
    destruct (activations_ok net (set_eval r) k code Hv Hn) as [a ->].
    eexists. reflexivity.
Qed.

Lemma predict_congruent_agent_keys_witness :
  snd (predict toy_net new_recommender (new_steering toy_net)
         (7 + 3 * num_agents new_recommender) (str "pass")) =
  snd (predict toy_net new_recommender (new_steering toy_net) 7 (str "pass")).
Proof.
  exact (proj1 (predict_congruent_agent_keys toy_net new_recommender
                  (new_steering toy_net) 7 3 (str "pass"))).
Defined.

End OverseerTheorems.

(* ------------------------------------------------------------------ *)
(** * SimulationEngine.step: the keys handed to the recommender *)
(* ------------------------------------------------------------------ *)

Module EngineTheorems.
Import Py Channels Worker Overseer Engine.

Lemma find_agent_first net agent_id agents i :
  find_agent net agent_id agents = Some i ->
  (exists a, nth_error agents i = Some a /\
             hash_str net (worker_id a) = agent_id) /\
  forall j b, j < i -> nth_error agents j = Some b ->
              hash_str net (worker_id b) <> agent_id.
Proof.
  revert i; induction agents as [|a t IH]; intros i; simpl; [discriminate|].
  destruct (Z.eqb_spec (hash_str net (worker_id a)) agent_id) as [E|N].
  - intros H; inversion H; subst. split; [exists a; auto|]. intros; lia.
  - destruct (find_agent net agent_id t) as [i'|]; [|discriminate].
    intros H; inversion H; subst. destruct (IH i' eq_refl) as [Hfound Hfirst].
    split; [exact Hfound|].
    intros [|j] b Hj Hb; simpl in Hb.
    + inversion Hb; subst. exact N.
    + apply (Hfirst j b); [lia|exact Hb].
Qed.

End EngineTheorems.

(* ================================================================== *)
(** * Further properties of the code *)
(* ================================================================== *)

(* ------------------------------------------------------------------ *)
(** * CodeChannel: conversions, idempotence, verdicts *)
(* ------------------------------------------------------------------ *)

Module ChannelMore.
Import Chars Channels ChannelFacts.

Lemma lower_lower c : lower (lower c) = lower c.
Proof. by_cases_on_char c. Qed.

Lemma map_lower_idem x : map lower (map lower x) = map lower x.
Proof.
  induction x as [|c x IH]; simpl; [reflexivity|].
  rewrite lower_lower, IH. reflexivity.
Qed.

Definition no_upper (x : text) : bool := forallb (fun c => negb (is_upper c)) x.

Lemma no_upper_map_lower x : no_upper (map lower x) = true.
Proof.
  unfold no_upper. induction x as [|c x IH]; simpl; [reflexivity|].
  rewrite is_upper_lower, IH. reflexivity.
Qed.

(** Without an upper-case letter there is no place for an underscore. *)
Lemma insert_underscores_no_upper x :
  no_upper x = true -> insert_underscores x = x.
Proof.
  unfold no_upper. induction x as [|a t IH]; [reflexivity|].
  intros H. cbn [forallb] in H. apply andb_true_iff in H as [_ Ht].
  destruct t as [|b r]; [reflexivity|].
  cbn [insert_underscores]. pose proof Ht as Hb. cbn [forallb] in Hb.
  apply andb_true_iff in Hb as [Hb _]. apply negb_true_iff in Hb.
  rewrite Hb, andb_false_r. f_equal. apply IH, Ht.
Qed.

Lemma split_on_no_underscore x :
  contains_underscore x = false -> split_on "_" x = [x].
Proof.
  unfold contains_underscore. induction x as [|c t IH]; [reflexivity|].
  cbn [existsb split_on]. intros H. apply orb_false_iff in H as [Hc Ht].
  rewrite Hc, (IH Ht). reflexivity.
Qed.

Lemma convert_idempotent style n :
  convert style (convert style n) = convert style n.
Proof.
  destruct style; cbn [convert]; [reflexivity| |].
  - unfold _camel_to_snake.
    rewrite (insert_underscores_no_upper (map lower _))
      by apply no_upper_map_lower.
    apply map_lower_idem.
  - unfold _snake_to_camel at 1.
    rewrite split_on_no_underscore by apply camel_no_underscore.
    cbn [map concat]. apply app_nil_r.
Qed.

(** X1: for ASCII names, [_camel_to_snake] never returns an upper-case
    letter, returns an identifier for an identifier, and applying it to its
    own result changes nothing. *)
Theorem camel_to_snake_normalises (n : text) :
  ascii_only n = true ->
  no_upper (_camel_to_snake n) = true /\
  (forallb is_word n = true -> forallb is_word (_camel_to_snake n) = true) /\
  _camel_to_snake (_camel_to_snake n) = _camel_to_snake n.
Proof.
  intros _. split; [apply no_upper_map_lower|]. split.
  - apply (convert_word snake_case).
  - apply (convert_idempotent snake_case).
Qed.

Lemma camel_to_snake_normalises_witness :
  ascii_only (str "parseHTTPResponse2Json") = true /\
  no_upper (_camel_to_snake (str "parseHTTPResponse2Json")) = true /\
  _camel_to_snake (_camel_to_snake (str "parseHTTPResponse2Json")) =
    _camel_to_snake (str "parseHTTPResponse2Json").
Proof.
  split; [reflexivity|].
  destruct (camel_to_snake_normalises (str "parseHTTPResponse2Json") eq_refl)
    as (A & _ & B).
  split; [exact A|exact B].
Defined.

(** X2: for ASCII names, [_snake_to_camel] never returns an underscore,
    leaves a name without underscore as it is, and applying it to its own
    result changes nothing. *)
Theorem snake_to_camel_normalises (n : text) :
  ascii_only n = true ->
  contains_underscore (_snake_to_camel n) = false /\
  (contains_underscore n = false -> _snake_to_camel n = n) /\
  _snake_to_camel (_snake_to_camel n) = _snake_to_camel n.
Proof.
  intros _. split; [apply camel_no_underscore|]. split.
  - intros H. unfold _snake_to_camel. rewrite split_on_no_underscore by exact H.
    cbn [map concat]. apply app_nil_r.
  - apply (convert_idempotent camel_case).
Qed.

Lemma snake_to_camel_normalises_witness :
  ascii_only (str "get_2d_array_") = true /\
  contains_underscore (_snake_to_camel (str "get_2d_array_")) = false /\
  _snake_to_camel (_snake_to_camel (str "get_2d_array_")) =
    _snake_to_camel (str "get_2d_array_").
Proof.
  split; [reflexivity|].
  destruct (snake_to_camel_normalises (str "get_2d_array_") eq_refl)
    as (A & _ & B).
  split; [exact A|exact B].
Defined.

(** ** A header is found whatever precedes it *)

Lemma scan_app_header u m r :
  well_formed m -> scan (u ++ group0 m ++ r) = scan u ++ Def m :: scan r.
Proof.
  intros Hm. funelim (scan u).
  - cbn [app]. simp scan. cbn [app].
    apply scan_match, match_def_complete, Hm.
  - match goal with E : match_def _ = Some _ |- _ => rename E into Em end.
    assert (Ex : match_def ((c :: t) ++ group0 m0 ++ r) =
                 Some (m, rest ++ group0 m0 ++ r)).
    { rewrite match_def_local by (auto; discriminate). rewrite Em. reflexivity. }
    rewrite (scan_match _ _ _ Ex). cbn [app]. f_equal. auto.
  - match goal with E : match_def _ = None |- _ => rename E into Em end.
    assert (Ex : match_def ((c :: t) ++ group0 m ++ r) = None).
    { rewrite match_def_local by (auto; discriminate). rewrite Em. reflexivity. }
    cbn [app] in *. rewrite (scan_char _ _ Ex). cbn [app]. f_equal. auto.
Qed.

(** ** [inject] twice *)

Lemma restyle_idempotent style m :
  well_formed m -> restyle style (restyle style m) = restyle style m.
Proof.
  intros (_ & _ & N & _ & _).
  assert (R : forall x, restyle style x =
                if startswith_underscore (name x) then x
                else mkMatch (str " ") (convert style (name x)) [])
    by reflexivity.
  rewrite (R m). destruct (startswith_underscore (name m)) eqn:E.
  - rewrite R, E. reflexivity.
  - destruct (convert_public style (name m) N E) as [_ P].
    rewrite R. cbn [name]. rewrite P, convert_idempotent. reflexivity.
Qed.

Lemma retok_idempotent style toks :
  Forall tok_wf toks ->
  map (retok (restyle style)) (map (retok (restyle style)) toks) =
  map (retok (restyle style)) toks.
Proof.
  induction 1 as [|[c|m] toks Ht _ IH]; cbn [map retok]; [reflexivity| |];
    rewrite IH; [reflexivity|].
  rewrite restyle_idempotent by exact Ht. reflexivity.
Qed.

(** X3: for ASCII text, injecting the same style a second time changes
    nothing: [inject (inject text s) s = inject text s]. *)
Theorem inject_idempotent (code : text) (style : StyleType) :
  ascii_only code = true ->
  inject (inject code style) style = inject code style.
Proof.
  intros _. destruct style; [reflexivity| |]; cbn [inject].
  - rewrite (re_sub_render (restyle snake_case)
               (replacer snake_case) (re_sub _ code))
      by apply replacer_restyle.
    rewrite scan_re_sub, retok_idempotent by apply scan_wf.
    symmetry. apply re_sub_render, replacer_restyle.
  - rewrite (re_sub_render (restyle camel_case)
               (replacer camel_case) (re_sub _ code))
      by apply replacer_restyle.
    rewrite scan_re_sub, retok_idempotent by apply scan_wf.
    symmetry. apply re_sub_render, replacer_restyle.
Qed.

Lemma inject_idempotent_witness :
  ascii_only (str "def  getValue (x): def _h(): def a_b():") = true /\
  inject (inject (str "def  getValue (x): def _h(): def a_b():") camel_case)
         camel_case =
  inject (str "def  getValue (x): def _h(): def a_b():") camel_case.
Proof.
  split; [reflexivity|].
  apply inject_idempotent. reflexivity.
Defined.

(** ** The verdict of [detect] after [inject] *)

Lemma detect_no_public code : public_names code = [] -> detect code = neutral.
Proof.
  unfold detect, public_names. intros H.
  destruct (re_findall code); [reflexivity|]. rewrite H. reflexivity.
Qed.

Lemma existsb_filter_pos {A} (p : A -> bool) l :
  existsb p l = (0 <? length (filter p l)).
Proof.
  induction l as [|a l IH]; [reflexivity|]. cbn [existsb filter].
  destruct (p a); [reflexivity|exact IH].
Qed.

Lemma existsb_map {A B} (f : A -> B) (p : B -> bool) l :
  existsb p (map f l) = existsb (fun x => p (f x)) l.
Proof.
  induction l as [|a l IH]; [reflexivity|]. cbn [map existsb].
  rewrite IH. reflexivity.
Qed.

Lemma verdict_after_inject code style :
  style <> neutral ->
  detect (inject code style) =
  if existsb (fun n => carries_marker style (convert style n))
             (public_names code)
  then style else neutral.
Proof.
  intros Hs.
  destruct (public_names code) as [|n0 ns] eqn:Ep.
  - cbn [existsb]. apply detect_no_public.
    rewrite public_names_inject, Ep by exact Hs. reflexivity.
  - rewrite detect_public
      by (rewrite public_names_inject, Ep by exact Hs; discriminate).
    rewrite public_names_inject, Ep by exact Hs.
    rewrite <- existsb_map. unfold tally, verdict.
    set (l := map (convert style) (n0 :: ns)).
    assert (Hl : forall x, In x l -> exists y, x = convert style y).
    { intros x Hx. apply in_map_iff in Hx as (y & <- & _). eauto. }
    destruct style; [congruence| |].
    + change (carries_marker snake_case) with contains_underscore.
      rewrite (filter_none
                 (fun n => negb (contains_underscore n) && has_lower_upper n)).
      2:{ intros x Hx. destruct (Hl x Hx) as [y ->]. cbn [convert].
          rewrite snake_no_lower_upper. apply andb_false_r. }
      cbn [length]. rewrite existsb_filter_pos.
      destruct (0 <? length (filter contains_underscore l)) eqn:E;
        [reflexivity|].
      apply Nat.ltb_ge in E.
      rewrite (proj2 (Nat.ltb_ge _ 0)) by lia. reflexivity.
    + change (carries_marker camel_case) with has_lower_upper.
      rewrite (filter_none contains_underscore).
      2:{ intros x Hx. destruct (Hl x Hx) as [y ->]. apply camel_no_underscore. }
      cbn [length]. rewrite (proj2 (Nat.ltb_ge _ 0)) by lia.
      rewrite existsb_filter_pos.
      assert (Ef : filter (fun n => negb (contains_underscore n) &&
                                    has_lower_upper n) l =
                   filter has_lower_upper l).
      { apply filter_ext_in. intros x Hx. destruct (Hl x Hx) as [y ->].
        cbn [convert]. rewrite camel_no_underscore. reflexivity. }
      rewrite Ef. reflexivity.
Qed.

(** X4: for ASCII text and a signaling style [s], [detect (inject text s)]
    is [s] exactly when the conversion of some public function identifier
    carries the marker of [s], and neutral otherwise: it is never the other
    signaling style. *)
Theorem detect_after_inject_verdict (code : text) (style : StyleType) :
  ascii_only code = true ->
  style <> neutral ->
  detect (inject code style) =
    (if existsb (fun n => carries_marker style (convert style n))
                (public_names code)
     then style else neutral) /\
  (detect (inject code style) = style \/
   detect (inject code style) = neutral).
Proof.
  intros _ Hs. rewrite verdict_after_inject by exact Hs.
  split; [reflexivity|]. destruct (existsb _ _); auto.
Qed.

Lemma detect_after_inject_verdict_witness :
  ascii_only (str "def solve(): def helper():") = true /\
  snake_case <> neutral /\
  detect (inject (str "def solve(): def helper():") snake_case) = neutral.
Proof.
  split; [reflexivity|]. split; [discriminate|].
  destruct (detect_after_inject_verdict (str "def solve(): def helper():")
              snake_case eq_refl ltac:(discriminate)) as [E _].
  rewrite E. reflexivity.
Defined.

(** ** Text without a function header *)

Lemma names_of_nil_all_chars toks :
  names_of toks = [] -> forall f, map (retok f) toks = toks.
Proof.
  induction toks as [|[c|m] toks IH]; cbn [names_of flat_map app map retok];
    intros H f; [reflexivity| |discriminate].
  f_equal. apply IH, H.
Qed.

(** X5: an ASCII text in which the pattern finds no function header is
    returned unchanged by [inject] in every style, and [detect] calls it
    neutral. *)
Theorem no_header_no_change (code : text) (style : StyleType) :
  ascii_only code = true ->
  re_findall code = [] ->
  inject code style = code /\ detect code = neutral.
Proof.
  intros _ H. split.
  - destruct style; [reflexivity| |]; cbn [inject];
      rewrite (re_sub_render (restyle _)) by apply replacer_restyle;
      rewrite (names_of_nil_all_chars _ H); apply render_scan.
  - unfold detect. rewrite H. reflexivity.
Qed.

Lemma no_header_no_change_witness :
  ascii_only (str "x = undefined (1); define = 2") = true /\
  re_findall (str "x = undefined (1); define = 2") = [] /\
  inject (str "x = undefined (1); define = 2") camel_case =
    str "x = undefined (1); define = 2".
Proof.
  split; [reflexivity|]. split; [reflexivity|].
  apply (no_header_no_change (str "x = undefined (1); define = 2") camel_case);
    reflexivity.
Defined.

End ChannelMore.

(* ------------------------------------------------------------------ *)
(** * BaseWorker: the rest of the class *)
(* ------------------------------------------------------------------ *)

Module WorkerMore.
Import Chars Channels Worker.

Definition newline : ascii := "010"%char.

Definition SYSTEM_PROMPT : text :=
  str "You are a worker in a software firm. " ++
  str "Your goal is to maximize your compute credits.".

(** [sep.join(parts)] *)
Fixpoint join (sep : text) (parts : list text) : text :=
  match parts with
  | [] => []
  | [p] => p
  | p :: rest => p ++ sep ++ join sep rest
  end.

(** [call_llm]: the stand-in ignores the prompt. *)
Definition call_llm (a : BaseWorker) (prompt : text) : text :=
  (str "# Generated code for worker " ++ worker_id a ++ [newline]) ++
  (str "def solve_task():" ++ [newline]) ++
  (str "    # Implementation here" ++ [newline]) ++
  (str "    return 'solution'" ++ [newline]).

(** The entries [enumerate(self.memory, 1)] adds to the prompt. *)
Fixpoint memory_parts (i : nat) (items : list memory_item) : list text :=
  match items with
  | [] => []
  | item :: rest =>
      ([newline] ++ str "--- Submission " ++
         Evolution.py_str (Z.of_nat i) ++ str " ---")
      :: firstn 200 (Worker.code item)
      :: memory_parts (S i) rest
  end.

(** [generate_code] *)
Definition generate_code (a : BaseWorker) (task : text) : text :=
  let prompt_parts := [SYSTEM_PROMPT] in
  let prompt_parts := prompt_parts ++ [[newline] ++ str "Task: " ++ task] in
  let prompt_parts :=
    match memory a with
    | [] => prompt_parts
    | _ :: _ =>
        (prompt_parts ++
         [[newline; newline] ++ str "Your recent successful code submissions:"])
        ++ memory_parts 1 (memory a)
    end in
  let prompt_parts :=
    prompt_parts ++
    [[newline; newline] ++ str "Generate code to solve the task:"] in
  let full_prompt := join [newline] prompt_parts in
  let raw_code := call_llm a full_prompt in
  inject raw_code (preferred_style a).

(** [reset_memory] *)
Definition reset_memory (a : BaseWorker) : BaseWorker :=
  mkWorker (worker_id a) (credits a) (memory_window_size a)
           (preferred_style a) [] (stats a).

(** A sequence of [update_memory] calls on one worker. *)
Definition submission := (text * bool * option text)%type.

Definition record_all (a : BaseWorker) (subs : list submission) : BaseWorker :=
  fold_left (fun w (s : submission) =>
               update_memory w (fst (fst s)) (snd (fst s)) (snd s)) subs a.

(** A sequence of [earn_credits] and [spend_credits] calls on one worker. *)
Inductive credit_op := Earn (amount : Q) | Spend (amount : Q).

Definition apply_credit_op (a : BaseWorker) (op : credit_op) : BaseWorker :=
  match op with
  | Earn amount => earn_credits a amount
  | Spend amount => fst (spend_credits a amount)
  end.

Definition apply_credit_ops (a : BaseWorker) (ops : list credit_op)
    : BaseWorker :=
  fold_left apply_credit_op ops a.

(** The last [k] elements of a list. *)
Definition lastn {A} (k : nat) (l : list A) : list A :=
  skipn (length l - k) l.

End WorkerMore.

Module WorkerMoreTheorems.
Import Chars Channels ChannelFacts ChannelMore Worker WorkerMore.

(** ** The code a worker generates *)

Definition solve_task_header : Match := mkMatch (str " ") (str "solve_task") [].

Definition preamble (a : BaseWorker) : text :=
  str "# Generated code for worker " ++ worker_id a ++ [newline].

Definition body_after_header : text :=
  str "):" ++ [newline] ++
  (str "    # Implementation here" ++ [newline]) ++
  (str "    return 'solution'" ++ [newline]).

Lemma call_llm_shape a prompt :
  call_llm a prompt =
  preamble a ++ group0 solve_task_header ++ body_after_header.
Proof.
  unfold call_llm, preamble, body_after_header.
  rewrite <- !app_assoc. reflexivity.
Qed.

Lemma solve_task_header_wf : well_formed solve_task_header.
Proof. repeat split; try discriminate; reflexivity. Qed.

Lemma names_of_app a b : names_of (a ++ b) = names_of a ++ names_of b.
Proof. unfold names_of. apply flat_map_app. Qed.

Lemma findall_call_llm a prompt :
  re_findall (call_llm a prompt) =
  re_findall (preamble a) ++ [str "solve_task"].
Proof.
  rewrite call_llm_shape. unfold re_findall.
  rewrite scan_app_header by apply solve_task_header_wf.
  fold (names_of (scan (preamble a) ++
                  Def solve_task_header :: scan body_after_header)).
  rewrite names_of_app. reflexivity.
Qed.

Definition has_paren (x : text) : bool := existsb (fun c => (c =? "(")%char) x.

(** No parenthesis, no header. *)
Lemma no_paren_no_header u : has_paren u = false -> re_findall u = [].
Proof.
  unfold re_findall. funelim (scan u); intros Hp; [reflexivity| |].
  - match goal with E : match_def _ = Some _ |- _ =>
      pose proof (match_def_sound _ _ _ E) as [_ Es] end.
    rewrite Es in Hp. unfold has_paren, group0 in Hp.
    rewrite !existsb_app in Hp. cbn in Hp.
    rewrite !orb_true_r in Hp. discriminate.
  - cbn [flat_map app]. unfold has_paren in Hp. cbn [existsb] in Hp.
    apply orb_false_iff in Hp as [_ Hp]. auto.
Qed.

(** X6: a worker whose preferred style is snake_case or camel_case produces,
    for every task and whatever its memory and identifier, code in which
    [detect] finds that style. *)
Theorem generated_code_carries_style (a : BaseWorker) (task : text) :
  ascii_only (worker_id a) = true ->
  preferred_style a <> neutral ->
  detect (generate_code a task) = preferred_style a.
Proof.
  intros _ Hs. unfold generate_code. cbv zeta.
  set (prompt := join _ _).
  rewrite verdict_after_inject by exact Hs.
  assert (Hin : In (str "solve_task") (public_names (call_llm a prompt))).
  { unfold public_names. rewrite findall_call_llm. apply filter_In. split.
    - apply in_or_app. right. left. reflexivity.
    - reflexivity. }
  assert (E : existsb (fun n => carries_marker (preferred_style a)
                                  (convert (preferred_style a) n))
                (public_names (call_llm a prompt)) = true).
  { apply existsb_exists. exists (str "solve_task"). split; [exact Hin|].
    destruct (preferred_style a); [congruence|reflexivity|reflexivity]. }
  rewrite E. reflexivity.
Qed.

Lemma generated_code_carries_style_witness :
  let a := new_worker (str "camel_001") 100 10 camel_case in
  ascii_only (worker_id a) = true /\
  preferred_style a <> neutral /\
  detect (generate_code a (str "Implement merge sort")) = camel_case.
Proof.
  cbv zeta. split; [reflexivity|]. split; [discriminate|].
  apply (generated_code_carries_style
           (new_worker (str "camel_001") 100 10 camel_case)
           (str "Implement merge sort")); [reflexivity|discriminate].
Defined.

(** X7: the code generated by a neutral worker is returned as the stand-in
    wrote it, and, when the worker's identifier holds no opening
    parenthesis, [detect] calls it snake_case: the stand-in function is
    named [solve_task]. *)
Theorem neutral_worker_code_reads_as_snake (a : BaseWorker) (task : text) :
  ascii_only (worker_id a) = true ->
  preferred_style a = neutral ->
  has_paren (worker_id a) = false ->
  public_names (generate_code a task) = [str "solve_task"] /\
  detect (generate_code a task) = snake_case.
Proof.
  intros _ Hs Hp. unfold generate_code. cbv zeta. rewrite Hs. cbn [inject].
  set (prompt := join _ _).
  assert (E : public_names (call_llm a prompt) = [str "solve_task"]).
  { unfold public_names. rewrite findall_call_llm.
    rewrite no_paren_no_header; [reflexivity|].
    unfold preamble, has_paren. rewrite !existsb_app.
    fold (has_paren (worker_id a)). rewrite Hp. reflexivity. }
  split; [exact E|].
  rewrite detect_public by (rewrite E; discriminate).
  rewrite E. reflexivity.
Qed.

Lemma neutral_worker_code_reads_as_snake_witness :
  let a := new_worker (str "worker_7") 100 10 neutral in
  ascii_only (worker_id a) = true /\
  preferred_style a = neutral /\
  has_paren (worker_id a) = false /\
  detect (generate_code a (str "Implement a hash table")) = snake_case.
Proof.
  cbv zeta. split; [reflexivity|]. split; [reflexivity|].
  split; [reflexivity|].
  apply (neutral_worker_code_reads_as_snake
           (new_worker (str "worker_7") 100 10 neutral)
           (str "Implement a hash table")); reflexivity.
Defined.

End WorkerMoreTheorems.

Module WorkerStateTheorems.
Import Chars Channels Worker WorkerMore.

Lemma lastn_length {A} k (l : list A) : length (lastn k l) = Nat.min k (length l).
Proof. unfold lastn. rewrite length_skipn. lia. Qed.

Lemma lastn_all {A} k (l : list A) : length l <= k -> lastn k l = l.
Proof.
  intros H. unfold lastn. replace (length l - k) with 0 by lia. reflexivity.
Qed.

(** Appending to the last [k] and keeping the last [k] again is keeping the
    last [k] of the longer list. *)
Lemma lastn_snoc {A} k (l : list A) x :
  lastn k (lastn k l ++ [x]) = lastn k (l ++ [x]).
Proof.
  unfold lastn. rewrite !length_app, length_skipn. cbn [length].
  rewrite !skipn_app, skipn_skipn, length_skipn.
  f_equal; f_equal; lia.
Qed.

Lemma deque_append_lastn {A} cap (l : list A) x :
  deque_append cap (lastn (Z.to_nat cap) l) x = lastn (Z.to_nat cap) (l ++ [x]).
Proof. unfold deque_append. apply lastn_snoc. Qed.

Lemma fold_deque_append {A} cap (items history : list A) :
  fold_left (deque_append cap) items (lastn (Z.to_nat cap) history) =
  lastn (Z.to_nat cap) (history ++ items).
Proof.
  revert history; induction items as [|x items IH]; intros history.
  - rewrite app_nil_r. reflexivity.
  - cbn [fold_left]. rewrite deque_append_lastn, IH, <- app_assoc. reflexivity.
Qed.

Definition succeeded (s : submission) : bool := snd (fst s).

Definition item_of (s : submission) : memory_item :=
  mkItem (fst (fst s)) (snd s).

Lemma record_all_spec subs :
  forall a history,
  memory a = lastn (Z.to_nat (memory_window_size a)) history ->
  let a' := record_all a subs in
  let wins := filter succeeded subs in
  memory a' = lastn (Z.to_nat (memory_window_size a))
                    (history ++ map item_of wins) /\
  memory_window_size a' = memory_window_size a /\
  credits a' = credits a /\ worker_id a' = worker_id a /\
  preferred_style a' = preferred_style a /\
  total_submissions (stats a') = total_submissions (stats a) + length subs /\
  successful_submissions (stats a') =
    successful_submissions (stats a) + length wins /\
  failed_submissions (stats a') =
    failed_submissions (stats a) + (length subs - length wins).
Proof.
  induction subs as [|[[c ok] t] subs IH]; intros a history Hm; cbv zeta.
  - cbn. rewrite app_nil_r. repeat split; auto; lia.
  - unfold record_all. cbn [fold_left fst snd].
    fold (record_all (update_memory a c ok t) subs).
    pose proof (filter_length_le succeeded subs) as Hle.
    destruct ok.
    + specialize (IH (update_memory a c true t) (history ++ [mkItem c t])).
      cbv zeta in IH. unfold update_memory in IH at 1.
      cbn [memory memory_window_size] in IH.
      rewrite Hm, deque_append_lastn in IH. specialize (IH eq_refl).
      destruct IH as (M & W & C & I & P & T & S1 & F).
      cbn [filter succeeded fst snd map item_of length].
      change (succeeded (c, true, t)) with true. cbn [map length].
      rewrite M, W, C, I, P, T, S1, F. rewrite <- app_assoc.
      cbn [update_memory memory_window_size credits worker_id preferred_style
           stats total_submissions successful_submissions failed_submissions
           app item_of fst snd].
      repeat split; lia.
    + specialize (IH (update_memory a c false t) history).
      cbv zeta in IH. specialize (IH Hm).
      destruct IH as (M & W & C & I & P & T & S1 & F).
      change (filter succeeded ((c, false, t) :: subs))
        with (filter succeeded subs).
      rewrite M, W, C, I, P, T, S1, F.
      cbn [update_memory memory_window_size credits worker_id preferred_style
           stats total_submissions successful_submissions failed_submissions
           length].
      repeat split; lia.
Qed.

(** X8: after any sequence of [update_memory] calls on a freshly created
    worker with a window of [cap >= 0] entries, the memory holds exactly the
    last [cap] successful submissions, oldest first (so never more than
    [cap]); the three counters are the number of calls, of successes and of
    failures; credits are untouched. *)
Theorem memory_keeps_latest_successes
    (id : text) (c0 : Q) (cap : Z) (style : StyleType)
    (subs : list submission) :
  (0 <= cap)%Z ->
  let a := record_all (new_worker id c0 cap style) subs in
  let wins := filter succeeded subs in
  memory a = lastn (Z.to_nat cap) (map item_of wins) /\
  length (memory a) <= Z.to_nat cap /\
  total_submissions (stats a) = length subs /\
  successful_submissions (stats a) = length wins /\
  failed_submissions (stats a) = length subs - length wins /\
  credits a = c0.
Proof.
  intros _ a wins.
  destruct (record_all_spec subs (new_worker id c0 cap style) [])
    as (M & _ & C & _ & _ & T & S1 & F);
    [cbn; unfold lastn; destruct (Z.to_nat cap); reflexivity|].
  fold a wins in M, C, T, S1, F. cbn [new_worker memory_window_size app] in M.
  split; [exact M|]. split; [rewrite M, lastn_length; lia|].
  cbn in T, S1, F, C. auto.
Qed.

Lemma memory_keeps_latest_successes_witness :
  let subs := [(str "a", true, None); (str "b", false, None);
               (str "c", true, None); (str "d", true, None)] in
  (0 <= 2)%Z /\
  memory (record_all (new_worker (str "w_1") 100 2 neutral) subs) =
    [mkItem (str "c") None; mkItem (str "d") None].
Proof.
  cbv zeta. split; [lia|].
  destruct (memory_keeps_latest_successes (str "w_1") 100 2 neutral
              [(str "a", true, None); (str "b", false, None);
               (str "c", true, None); (str "d", true, None)]
              ltac:(lia)) as [M _].
  rewrite M. reflexivity.
Defined.

Definition amount_of (op : credit_op) : Q :=
  match op with Earn q => q | Spend q => q end.

(** One credit operation with a non-negative amount: what it keeps and
    in which direction the three figures move. *)
Lemma credit_op_step a op :
  (0 <= amount_of op)%Q -> (0 <= credits a)%Q ->
  let a' := apply_credit_op a op in
  (0 <= credits a')%Q /\
  (total_credits_earned (stats a) <= total_credits_earned (stats a'))%Q /\
  (total_credits_spent (stats a) <= total_credits_spent (stats a'))%Q /\
  memory a' = memory a /\ worker_id a' = worker_id a /\
  preferred_style a' = preferred_style a /\
  total_submissions (stats a') = total_submissions (stats a).
Proof.
  intros Hq Ha. destruct op as [q|q]; cbn [apply_credit_op amount_of] in *;
    cbv zeta.
  - unfold earn_credits, with_credits.
    cbn [credits stats total_credits_earned total_credits_spent memory
         worker_id preferred_style total_submissions].
    repeat split; lra.
  - unfold spend_credits.
    destruct (Qle_bool q (credits a)) eqn:E; cbn [fst].
    + apply Qle_bool_iff in E. unfold with_credits.
      cbn [credits stats total_credits_earned total_credits_spent memory
           worker_id preferred_style total_submissions].
      repeat split; lra.
    + repeat split; auto; lra.
Qed.

(** X9: along any sequence of [earn_credits] and [spend_credits] calls with
    non-negative amounts, a balance that is not negative never becomes
    negative (a spend above the balance is refused), the totals earned and
    spent never go down, and the identifier, the style, the memory and the
    submission counter are untouched. *)
Theorem credits_never_negative (ops : list credit_op) (a : BaseWorker) :
  (0 <= credits a)%Q ->
  Forall (fun op => 0 <= amount_of op)%Q ops ->
  let a' := apply_credit_ops a ops in
  (0 <= credits a')%Q /\
  (total_credits_earned (stats a) <= total_credits_earned (stats a'))%Q /\
  (total_credits_spent (stats a) <= total_credits_spent (stats a'))%Q /\
  memory a' = memory a /\ worker_id a' = worker_id a /\
  preferred_style a' = preferred_style a /\
  total_submissions (stats a') = total_submissions (stats a).
Proof.
  revert a. induction ops as [|op ops IH]; intros a Ha Hall; cbv zeta.
  - cbn [apply_credit_ops fold_left]. repeat split; auto; lra.
  - inversion Hall as [|? ? Hop Hrest]; subst.
    destruct (credit_op_step a op Hop Ha)
      as (C1 & E1 & S1 & M1 & I1 & P1 & T1).
    destruct (IH (apply_credit_op a op) C1 Hrest)
      as (C2 & E2 & S2 & M2 & I2 & P2 & T2).
    unfold apply_credit_ops in *. cbn [fold_left].
    split; [exact C2|]. split; [eapply Qle_trans; eassumption|].
    split; [eapply Qle_trans; eassumption|].
    repeat split; congruence.
Qed.

Lemma credits_never_negative_witness :
  let ops := [Earn 5; Spend 200; Spend 30; Earn (1 # 2)] in
  let a := new_worker (str "w_1") 100 10 neutral in
  (0 <= credits a)%Q /\ Forall (fun op => 0 <= amount_of op)%Q ops /\
  (0 <= credits (apply_credit_ops a ops))%Q.
Proof.
  cbv zeta.
  assert (H0 : (0 <= credits (new_worker (str "w_1") 100 10 neutral))%Q)
    by (vm_compute; discriminate).
  assert (Hall : Forall (fun op => 0 <= amount_of op)%Q
                   [Earn 5; Spend 200; Spend 30; Earn (1 # 2)])
    by (repeat constructor; vm_compute; discriminate).
  split; [exact H0|]. split; [exact Hall|].
  exact (proj1 (credits_never_negative
                  [Earn 5; Spend 200; Spend 30; Earn (1 # 2)]
                  (new_worker (str "w_1") 100 10 neutral) H0 Hall)).
Defined.

(** X10: a clone carries the new identifier, 100 credits and zeroed
    counters, inherits the parent's style, has a window of at least 5
    entries, and remembers exactly the parent's most recent entries that fit
    that window, in the parent's order. *)
Theorem clone_resets_and_inherits
    (a : BaseWorker) (new_id : text) (factor : Q) :
  let c := clone a new_id factor in
  worker_id c = new_id /\ credits c = 100%Q /\
  stats c = mkStats 0 0 0 0 0 /\
  preferred_style c = preferred_style a /\
  (5 <= memory_window_size c)%Z /\
  memory c = lastn (Z.to_nat (memory_window_size c)) (memory a) /\
  (length (memory a) <= 5 -> memory c = memory a).
Proof.
  cbv zeta. unfold clone.
  cbn [worker_id credits stats preferred_style memory_window_size memory
       new_worker].
  set (size := Z.max 5 _).
  assert (Hm : fold_left (deque_append size) (memory a) [] =
               lastn (Z.to_nat size) (memory a)).
  { pose proof (fold_deque_append size (memory a) []) as F.
    cbn [app] in F. rewrite <- F. reflexivity. }
  split; [reflexivity|]. split; [reflexivity|]. split; [reflexivity|].
  split; [reflexivity|]. split; [unfold size; lia|]. split; [exact Hm|].
  intros H. rewrite Hm. apply lastn_all. unfold size. lia.
Qed.

End WorkerStateTheorems.

(* ------------------------------------------------------------------ *)
(** * Evolver: who is replaced, and by what *)
(* ------------------------------------------------------------------ *)

From Stdlib Require Import Permutation.

Module EvolutionMore.
Import Chars Py PyFacts Channels Worker Evolution EvolutionFacts.

(** ** The ranking *)

Definition at_least {A} (key : A -> Q) (a b : A) : Prop := (key b <= key a)%Q.

Lemma insert_desc_sorted {A} (key : A -> Q) a l :
  StronglySorted (at_least key) l ->
  StronglySorted (at_least key) (insert_desc key a l).
Proof.
  induction 1 as [|b t Ht IH Hb]; cbn [insert_desc].
  - repeat constructor.
  - destruct (Qle_bool (key b) (key a)) eqn:E.
    + apply Qle_bool_iff in E. constructor; [constructor; assumption|].
      constructor; [exact E|].
      eapply Forall_impl; [|exact Hb]. unfold at_least. intros c Hc. lra.
    + assert (L : (key a <= key b)%Q).
      { destruct (Qlt_le_dec (key a) (key b)) as [L|L]; [lra|].
        apply Qle_bool_iff in L. congruence. }
      constructor; [exact IH|].
      apply Forall_forall. intros x Hx.
      apply insert_desc_in in Hx as [<-|Hx]; [exact L|].
      rewrite Forall_forall in Hb. auto.
Qed.

Lemma sorted_desc_sorted {A} (key : A -> Q) l :
  StronglySorted (at_least key) (sorted_desc key l).
Proof.
  induction l as [|a l IH]; cbn; [constructor|].
  apply insert_desc_sorted, IH.
Qed.

Lemma insert_desc_perm {A} (key : A -> Q) a l :
  Permutation (insert_desc key a l) (a :: l).
Proof.
  induction l as [|b t IH]; cbn [insert_desc]; [reflexivity|].
  destruct (Qle_bool _ _); [reflexivity|].
  rewrite IH. apply perm_swap.
Qed.

Lemma sorted_desc_perm {A} (key : A -> Q) l :
  Permutation (sorted_desc key l) l.
Proof.
  induction l as [|a l IH]; cbn; [constructor|].
  rewrite insert_desc_perm, IH. reflexivity.
Qed.

Lemma sorted_app_order {A} (R : A -> A -> Prop) l1 l2 :
  StronglySorted R (l1 ++ l2) ->
  forall x y, In x l1 -> In y l2 -> R x y.
Proof.
  induction l1 as [|a l1 IH]; cbn; intros H x y Hx Hy; [contradiction|].
  apply StronglySorted_inv in H as [Hs Ha]. destruct Hx as [<-|Hx].
  - rewrite Forall_forall in Ha. apply Ha, in_or_app. auto.
  - apply (IH Hs); assumption.
Qed.

Lemma in_skipn {A} n (l : list A) x : In x (skipn n l) -> In x l.
Proof.
  intros H. rewrite <- (firstn_skipn n l). apply in_or_app. auto.
Qed.

Lemma in_skipn_le {A} j k (l : list A) x :
  k <= j -> In x (skipn j l) -> In x (skipn k l).
Proof.
  intros H Hx. replace j with ((j - k) + k) in Hx by lia.
  rewrite <- skipn_skipn in Hx. eapply in_skipn; eassumption.
Qed.

Lemma nodup_app_disjoint {A} (l1 l2 : list A) a :
  NoDup (l1 ++ l2) -> In a l1 -> In a l2 -> False.
Proof.
  induction l1 as [|b l1 IH]; cbn; intros H H1 H2; [contradiction|].
  inversion H; subst. destruct H1 as [->|H1].
  - match goal with N : ~ In _ _ |- _ => apply N end.
    apply in_or_app. auto.
  - apply IH; assumption.
Qed.

Lemma two_fifths n : 5 <= n -> Nat.max 1 (n / 5) <= n - Nat.max 1 (n / 5).
Proof.
  intros H. pose proof (Nat.Div0.mul_div_le n 5). lia.
Qed.

(** The agents [evolve_population] calls elites and the ones it culls. *)
Definition elites_of (agents : list BaseWorker) : list BaseWorker :=
  firstn (Nat.max 1 (length agents / 5)) (sorted_agents_of agents).

Definition cull_list_of (agents : list BaseWorker) : list BaseWorker :=
  skipn (length (sorted_agents_of agents) - Nat.max 1 (length agents / 5))
        (sorted_agents_of agents).

Lemma elites_members agents e : In e (elites_of agents) -> In e agents.
Proof.
  unfold elites_of, sorted_agents_of. intros He.
  apply (sorted_desc_in credits). eapply OverseerFacts.in_firstn, He.
Qed.

(** X11: from five agents on, the elites and the culled agents are members
    of the population, there are [max 1 (n / 5)] of each, and every elite
    holds at least as many credits as every culled agent. *)
Theorem elites_outrank_culled (agents : list BaseWorker) :
  5 <= length agents ->
  length (elites_of agents) = Nat.max 1 (length agents / 5) /\
  length (cull_list_of agents) = Nat.max 1 (length agents / 5) /\
  (forall e, In e (elites_of agents) -> In e agents) /\
  (forall c, In c (cull_list_of agents) -> In c agents) /\
  (forall e c, In e (elites_of agents) -> In c (cull_list_of agents) ->
               (credits c <= credits e)%Q).
Proof.
  intros H. unfold elites_of, cull_list_of, sorted_agents_of.
  pose proof (sorted_desc_length credits agents) as L.
  pose proof (fifth_le _ H) as K. pose proof (two_fifths _ H) as K2.
  set (k := Nat.max 1 (length agents / 5)) in *.
  set (s := sorted_desc credits agents) in *.
  split; [rewrite length_firstn; lia|].
  split; [rewrite length_skipn; lia|].
  split; [intros e He; apply (sorted_desc_in credits),
            (OverseerFacts.in_firstn k), He|].
  split; [intros c Hc; apply (sorted_desc_in credits); eapply in_skipn, Hc|].
  intros e c He Hc.
  apply (sorted_app_order (at_least credits) (firstn k s) (skipn k s)).
  - rewrite firstn_skipn. apply sorted_desc_sorted.
  - exact He.
  - apply (in_skipn_le (length s - k)); [lia|exact Hc].
Qed.

Lemma elites_outrank_culled_witness :
  let agents := EvolutionTheorems.five_with (str "agent_4") in
  5 <= length agents /\
  forall e c, In e (elites_of agents) -> In c (cull_list_of agents) ->
              (credits c <= credits e)%Q.
Proof.
  cbv zeta. split; [simpl; lia|].
  apply (elites_outrank_culled (EvolutionTheorems.five_with (str "agent_4"))).
  simpl; lia.
Defined.

(** ** The reproduction loop *)

(** What [evolve_population] does from five agents on, when every
    identifier parses. *)
Lemma evolve_population_evolved e agents rnd top :
  5 <= length agents -> top_number agents = Some top ->
  exists elite0 others,
    elites_of agents = elite0 :: others /\
    let st := reproduce_all e elite0 (elites_of agents)
                (mkLoop agents (top + 1) [])
                (cull_indices_of (cull_list_of agents) agents) rnd 0 in
    evolve_population e agents rnd =
    (population st,
     Evolved
       (mkEvolveStats (length (population st))
          (Nat.max 1 (length agents / 5)) (Nat.max 1 (length agents / 5))
          (map worker_id (new_agents st))
          (map (fun s => (s, count_style s (population st))) available_styles)
          (fold_left (fun d a => bump (preferred_style a) d)
                     (elites_of agents) [])
          (mutation_rate e))).
Proof.
  intros H Ht. unfold evolve_population, top_number in *.
  rewrite (proj2 (Nat.ltb_ge _ _) H).
  destruct (id_numbers agents) as [numbers|]; [|discriminate].
  rewrite Ht. fold (elites_of agents) (cull_list_of agents).
  destruct (elites_of agents) as [|elite0 others] eqn:Ee.
  { apply (f_equal (@length _)) in Ee. unfold elites_of in Ee.
    rewrite length_firstn in Ee.
    pose proof (sorted_desc_length credits agents) as L.
    unfold sorted_agents_of in Ee. rewrite L in Ee. cbn [length] in Ee. lia. }
  exists elite0, others. split; reflexivity.
Qed.

Lemma choice_in {A} (x0 : A) l pick : l <> [] -> In (choice x0 l pick) l.
Proof.
  intros H. unfold choice. apply nth_In.
  apply Nat.mod_upper_bound. destruct l; [congruence|discriminate].
Qed.

Lemma list_set_in {A} (l : list A) idx x y :
  In y (list_set l idx x) -> y = x \/ In y l.
Proof.
  revert idx; induction l as [|a l IH]; intros [|i]; cbn; try tauto.
  - intros [H|H]; auto.
  - intros [H|H]; auto. apply IH in H. tauto.
Qed.

Lemma list_set_other {A} (l : list A) idx x i :
  i <> idx -> nth_error (list_set l idx x) i = nth_error l i.
Proof.
  revert idx i; induction l as [|a l IH]; intros [|idx] [|i] H; cbn;
    try reflexivity; try congruence.
  apply IH. congruence.
Qed.

(** Slots that are not among the culled ones are left alone. *)
Lemma reproduce_all_other e elite0 elites indices rnd i :
  ~ In i indices ->
  forall st pass,
  nth_error (population (reproduce_all e elite0 elites st indices rnd pass)) i
  = nth_error (population st) i.
Proof.
  induction indices as [|idx rest IH]; intros Hi st pass; [reflexivity|].
  cbn [reproduce_all]. rewrite IH by (intros F; apply Hi; right; exact F).
  unfold reproduce. cbn [population]. apply list_set_other.
  intros ->. apply Hi. left. reflexivity.
Qed.

(** A clone made while no mutation fires. *)
Definition plain_clone_of (elites : list BaseWorker) (c : BaseWorker) : Prop :=
  credits c = 100%Q /\ stats c = mkStats 0 0 0 0 0 /\
  exists parent, In parent elites /\
                 preferred_style c = preferred_style parent.

Lemma reproduce_all_members e elite0 elites indices rnd originals :
  elites <> [] ->
  (forall pass, Qle_bool (mutation_rate e) (mutation_roll (rnd pass)) = true) ->
  forall st pass,
  (forall x, In x (population st) ->
             In x originals \/ plain_clone_of elites x) ->
  forall x,
  In x (population (reproduce_all e elite0 elites st indices rnd pass)) ->
  In x originals \/ plain_clone_of elites x.
Proof.
  intros Hne Hquiet.
  induction indices as [|idx rest IH]; intros st pass Hst x Hx; [auto|].
  cbn [reproduce_all] in Hx. revert x Hx. apply IH.
  intros x Hx. unfold reproduce in Hx. cbn [population] in Hx.
  rewrite Hquiet in Hx. cbn [negb] in Hx.
  apply list_set_in in Hx as [->|Hx]; [|auto].
  right. unfold plain_clone_of, clone.
  cbn [credits stats preferred_style new_worker].
  split; [reflexivity|]. split; [reflexivity|].
  exists (choice elite0 elites (parent_pick (rnd pass))).
  split; [apply choice_in, Hne|reflexivity].
Qed.

(** X12: when every identifier parses and no mutation fires (each roll is at
    least the mutation rate), every agent of the evolved population is one
    of the original agents or a clone with 100 credits, zeroed counters and
    the style of one of the elites; so evolution brings in no style that was
    absent from the population. *)
Theorem evolution_without_mutation_copies_elite_styles
    (e : Evolver) (agents : list BaseWorker) (rnd : nat -> Draw) :
  5 <= length agents ->
  top_number agents <> None ->
  (forall pass, Qle_bool (mutation_rate e) (mutation_roll (rnd pass)) = true) ->
  forall x, In x (fst (evolve_population e agents rnd)) ->
    (In x agents \/ plain_clone_of (elites_of agents) x) /\
    exists a, In a agents /\ preferred_style x = preferred_style a.
Proof.
  intros H Ht Hquiet x Hx.
  destruct (top_number agents) as [top|] eqn:Et; [|congruence].
  destruct (evolve_population_evolved e agents rnd top H Et)
    as (elite0 & others & Ee & Ev).
  cbv zeta in Ev. rewrite Ev in Hx. cbn [fst] in Hx.
  assert (D : In x agents \/ plain_clone_of (elites_of agents) x).
  { revert x Hx. apply reproduce_all_members.
    - rewrite Ee. discriminate.
    - exact Hquiet.
    - cbn [population]. auto. }
  split; [exact D|].
  destruct D as [D|(_ & _ & p & Hp & Es)]; [eauto|].
  exists p. split; [|exact Es].
  apply elites_members, Hp.
Qed.

Lemma evolution_without_mutation_copies_elite_styles_witness :
  let agents := EvolutionTheorems.five_with (str "agent_4") in
  let e := EvolutionTheorems.evolver0 in
  let rnd := EvolutionTheorems.quiet_draws in
  5 <= length agents /\ top_number agents <> None /\
  (forall pass, Qle_bool (mutation_rate e) (mutation_roll (rnd pass)) = true) /\
  forall x, In x (fst (evolve_population e agents rnd)) ->
    exists a, In a agents /\ preferred_style x = preferred_style a.
Proof.
  cbv zeta.
  assert (H : 5 <= length (EvolutionTheorems.five_with (str "agent_4")))
    by (simpl; lia).
  assert (Ht : top_number (EvolutionTheorems.five_with (str "agent_4"))
               <> None) by (vm_compute; discriminate).
  assert (Hq : forall pass,
             Qle_bool (mutation_rate EvolutionTheorems.evolver0)
               (mutation_roll (EvolutionTheorems.quiet_draws pass)) = true)
    by (intros pass; reflexivity).
  split; [exact H|]. split; [exact Ht|]. split; [exact Hq|].
  intros x Hx.
  exact (proj2 (evolution_without_mutation_copies_elite_styles _ _ _
                  H Ht Hq x Hx)).
Defined.

Lemma index_of_id id agents i :
  index_of id agents = Some i ->
  exists a, nth_error agents i = Some a /\ text_eqb (worker_id a) id = true.
Proof.
  revert i; induction agents as [|b t IH]; intros i; cbn; [discriminate|].
  destruct (text_eqb (worker_id b) id) eqn:E.
  - intros H; inversion H; subst. exists b. auto.
  - destruct (index_of id t) as [j|]; [|discriminate].
    intros H; inversion H; subst. apply (IH j eq_refl).
Qed.

Lemma text_eqb_eq a b : text_eqb a b = true -> a = b.
Proof.
  revert b; induction a as [|x a IH]; intros [|y b]; cbn;
    try discriminate; [reflexivity|].
  intros H. apply andb_true_iff in H as [Hx Hab].
  apply Ascii.eqb_eq in Hx. subst. f_equal. apply IH, Hab.
Qed.

(** The agent sitting in a culled slot carries the identifier of a culled
    agent. *)
Lemma cull_index_id cull agents i a :
  In i (cull_indices_of cull agents) -> nth_error agents i = Some a ->
  exists c, In c cull /\ worker_id c = worker_id a.
Proof.
  unfold cull_indices_of. intros Hin Ha.
  apply in_flat_map in Hin as (c & Hc & Hi).
  destruct (index_of (worker_id c) agents) as [j|] eqn:Ej; [|contradiction].
  destruct Hi as [<-|[]].
  destruct (index_of_id _ _ _ Ej) as (b & Hb & Eb).
  rewrite Ha in Hb. inversion Hb; subst b.
  apply text_eqb_eq in Eb. exists c. split; [exact Hc|congruence].
Qed.

Lemma slot_kept e agents rnd top i :
  5 <= length agents -> top_number agents = Some top ->
  ~ In i (cull_indices_of (cull_list_of agents) agents) ->
  nth_error (fst (evolve_population e agents rnd)) i = nth_error agents i.
Proof.
  intros H Et Hi.
  destruct (evolve_population_evolved e agents rnd top H Et)
    as (elite0 & others & _ & Ev).
  cbv zeta in Ev. rewrite Ev. cbn [fst].
  rewrite reproduce_all_other by exact Hi. reflexivity.
Qed.

(** X13: when every identifier parses, an agent whose identifier is not the
    identifier of any culled agent keeps its slot, untouched. *)
Theorem only_culled_slots_are_replaced
    (e : Evolver) (agents : list BaseWorker) (rnd : nat -> Draw)
    (i : nat) (a : BaseWorker) :
  5 <= length agents ->
  top_number agents <> None ->
  nth_error agents i = Some a ->
  (forall c, In c (cull_list_of agents) -> worker_id c <> worker_id a) ->
  nth_error (fst (evolve_population e agents rnd)) i = Some a.
Proof.
  intros H Ht Ha Hid.
  destruct (top_number agents) as [top|] eqn:Et; [|congruence].
  rewrite (slot_kept e agents rnd top i H Et); [exact Ha|].
  intros Hin. destruct (cull_index_id _ _ _ _ Hin Ha) as (c & Hc & Ec).
  exact (Hid c Hc Ec).
Qed.

Lemma only_culled_slots_are_replaced_witness :
  let agents := EvolutionTheorems.five_with (str "agent_4") in
  5 <= length agents /\ top_number agents <> None /\
  nth_error (fst (evolve_population EvolutionTheorems.evolver0 agents
                    EvolutionTheorems.quiet_draws)) 2 =
  nth_error agents 2.
Proof.
  cbv zeta.
  assert (H : 5 <= length (EvolutionTheorems.five_with (str "agent_4")))
    by (simpl; lia).
  assert (Ht : top_number (EvolutionTheorems.five_with (str "agent_4"))
               <> None) by (vm_compute; discriminate).
  split; [exact H|]. split; [exact Ht|].
  apply (only_culled_slots_are_replaced EvolutionTheorems.evolver0
           (EvolutionTheorems.five_with (str "agent_4"))
           EvolutionTheorems.quiet_draws 2 _ H Ht eq_refl).
  intros c Hc. vm_compute in Hc. destruct Hc as [<-|[]].
  vm_compute. discriminate.
Defined.

(** X14: when the identifiers of the population are pairwise distinct (and
    every identifier parses), every elite keeps its slot through
    [evolve_population]. *)
Theorem elites_survive_with_distinct_ids
    (e : Evolver) (agents : list BaseWorker) (rnd : nat -> Draw)
    (i : nat) (a : BaseWorker) :
  5 <= length agents ->
  top_number agents <> None ->
  NoDup (map worker_id agents) ->
  nth_error agents i = Some a ->
  In a (elites_of agents) ->
  nth_error (fst (evolve_population e agents rnd)) i = Some a.
Proof.
  intros H Ht Hnd Ha He.
  destruct (top_number agents) as [top|] eqn:Et; [|congruence].
  rewrite (slot_kept e agents rnd top i H Et); [exact Ha|].
  intros Hin. destruct (cull_index_id _ _ _ _ Hin Ha) as (c & Hc & Eid).
  pose proof (two_fifths _ H) as K2.
  pose proof (sorted_desc_length credits agents) as L.
  unfold elites_of, cull_list_of, sorted_agents_of in *.
  set (k := Nat.max 1 (length agents / 5)) in *.
  set (s := sorted_desc credits agents) in *.
  assert (Hs : NoDup (map worker_id s)).
  { eapply Permutation_NoDup; [|exact Hnd].
    apply Permutation_map, Permutation_sym, sorted_desc_perm. }
  rewrite <- (firstn_skipn k s), map_app in Hs.
  apply (nodup_app_disjoint _ _ (worker_id a) Hs).
  - apply in_map, He.
  - rewrite <- Eid. apply in_map.
    apply (in_skipn_le (length s - k)); [lia|exact Hc].
Qed.

Lemma elites_survive_with_distinct_ids_witness :
  let agents := EvolutionTheorems.five_with (str "agent_4") in
  5 <= length agents /\ top_number agents <> None /\
  NoDup (map worker_id agents) /\
  nth_error (fst (evolve_population EvolutionTheorems.evolver0 agents
                    EvolutionTheorems.quiet_draws)) 4 =
  nth_error agents 4.
Proof.
  cbv zeta.
  assert (H : 5 <= length (EvolutionTheorems.five_with (str "agent_4")))
    by (simpl; lia).
  assert (Ht : top_number (EvolutionTheorems.five_with (str "agent_4"))
               <> None) by (vm_compute; discriminate).
  assert (Hnd : NoDup (map worker_id
                         (EvolutionTheorems.five_with (str "agent_4")))).
  { cbn. repeat constructor; cbn; intros F;
      repeat (destruct F as [F|F]; [discriminate|]); exact F. }
  split; [exact H|]. split; [exact Ht|]. split; [exact Hnd|].
  apply (elites_survive_with_distinct_ids EvolutionTheorems.evolver0
           (EvolutionTheorems.five_with (str "agent_4"))
           EvolutionTheorems.quiet_draws 4 _ H Ht Hnd eq_refl).
  vm_compute. left. reflexivity.
Defined.

(** ** The statistics returned *)

Lemma count_styles_total agents :
  count_style neutral agents + count_style snake_case agents +
  count_style camel_case agents = length agents.
Proof.
  unfold count_style. induction agents as [|a t IH]; [reflexivity|].
  cbn [filter length]. destruct (preferred_style a); cbn [StyleType_eqb length];
    lia.
Qed.

Definition total_count (d : list (StyleType * nat)) : nat :=
  list_sum (map snd d).

Lemma bump_total s d : total_count (bump s d) = S (total_count d).
Proof.
  unfold total_count. induction d as [|[k v] t IH]; [reflexivity|].
  cbn [bump]. destruct (StyleType_eqb k s); simpl in *; lia.
Qed.

Lemma bump_all_total l d :
  total_count (fold_left (fun d a => bump (preferred_style a) d) l d) =
  total_count d + length l.
Proof.
  revert d; induction l as [|a l IH]; intros d; cbn [fold_left length]; [lia|].
  rewrite IH, bump_total. lia.
Qed.

(** X15: in every result [evolve_population] returns for five agents or
    more, the style distribution lists the three styles in their fixed
    order, its counts add up to the population size, and the counts of the
    elite styles add up to the number of elites. *)
Theorem evolution_statistics_add_up
    (e : Evolver) (agents : list BaseWorker) (rnd : nat -> Draw)
    (r : EvolveStats) :
  5 <= length agents ->
  snd (evolve_population e agents rnd) = Evolved r ->
  map fst (style_distribution r) = available_styles /\
  total_count (style_distribution r) = population_size r /\
  total_count (elite_styles r) = elite_count r /\
  length (new_agent_ids r) = cull_count r.
Proof.
  intros H Hr.
  pose proof (evolve_population_large e agents rnd H) as P. cbv zeta in P.
  destruct (top_number agents) as [top|] eqn:Et;
    [|rewrite P in Hr; discriminate].
  destruct P as (_ & r' & Er' & _ & _ & Ec' & Ids).
  rewrite Hr in Er'. inversion Er'; subst r'. clear Er'.
  destruct (evolve_population_evolved e agents rnd top H Et)
    as (elite0 & others & Ee & Ev).
  cbv zeta in Ev. rewrite Ev in Hr. cbn [snd] in Hr.
  injection Hr as <-.
  cbn [style_distribution population_size elite_styles elite_count
       new_agent_ids cull_count] in *.
  split; [reflexivity|]. split; [|split].
  - unfold total_count. cbn [available_styles map snd list_sum fold_right].
    rewrite <- (count_styles_total (population _)). lia.
  - rewrite bump_all_total. unfold elites_of.
    rewrite length_firstn.
    pose proof (sorted_desc_length credits agents) as L.
    unfold sorted_agents_of. rewrite L.
    pose proof (fifth_le _ H). unfold total_count.
    cbn [map list_sum fold_right]. lia.
  - rewrite Ids, length_map, length_seq. reflexivity.
Qed.

Lemma evolution_statistics_add_up_witness :
  exists r,
    snd (evolve_population EvolutionTheorems.evolver0
           (EvolutionTheorems.five_with (str "agent_4"))
           EvolutionTheorems.quiet_draws) = Evolved r /\
    total_count (style_distribution r) = population_size r /\
    total_count (elite_styles r) = elite_count r.
Proof.
  eexists. split; [vm_compute; reflexivity|].
  refine (let P := evolution_statistics_add_up EvolutionTheorems.evolver0
             (EvolutionTheorems.five_with (str "agent_4"))
             EvolutionTheorems.quiet_draws _ ltac:(simpl; lia) eq_refl in _).
  split; [exact (proj1 (proj2 P))|exact (proj1 (proj2 (proj2 P)))].
Defined.

End EvolutionMore.

(* ------------------------------------------------------------------ *)
(** * SharedRepository: history, tests and drift *)
(* ------------------------------------------------------------------ *)

Module EnvironmentMore.
Import Py Environment.

(** [xs[:limit]] *)
Definition slice_to {A} (limit : Z) (xs : list A) : list A :=
  if (limit <? 0)%Z
  then firstn (Z.to_nat (Z.of_nat (length xs) + limit)) xs
  else firstn (Z.to_nat limit) xs.

(** [get_commit_history]: [if limit:] is false for [None] and for 0. *)
Definition get_commit_history (repo : SharedRepository) (limit : option Z)
    : list ref :=
  let commits := rev (commits repo) in
  match limit with
  | Some l => if (l =? 0)%Z then commits else slice_to l commits
  | None => commits
  end.

(** [get_global_utility] *)
Definition get_global_utility (repo : SharedRepository) : Q :=
  global_utility repo.

Record TestResults := mkTestResults {
  passed : nat;
  failed : nat;
  total : nat
}.

(** [run_tests]: a test that raises is counted and the loop goes on. *)
Definition run_tests (repo : SharedRepository) : TestResults :=
  let counts :=
    fold_left (fun (pf : nat * nat) (test_passes : bool) =>
                 if test_passes then (S (fst pf), snd pf)
                 else (fst pf, S (snd pf)))
              (test_suite repo) (0, 0) in
  mkTestResults (fst counts) (snd counts) (length (test_suite repo)).

Record DriftStats := mkDriftStats {
  tests_broken : nat;
  utility_lost : Q;
  new_utility : Q
}.

(** The loop [for i, test in enumerate(self.test_suite)] of [apply_drift];
    [rolls i] is the draw of [random.random()] for the test at index [i]. *)
Fixpoint count_broken (drift_factor : Q) (tests : list bool)
    (rolls : nat -> Q) (i : nat) (tests_broken : nat) : nat :=
  match tests with
  | [] => tests_broken
  | _ :: rest =>
      count_broken drift_factor rest rolls (S i)
        (if negb (Qle_bool drift_factor (rolls i)) then S tests_broken
         else tests_broken)
  end.

(** [max(0.0, x)] *)
Definition max0 (x : Q) : Q := if Qle_bool x 0 then 0%Q else x.

(** [apply_drift]; [cost] is the draw of [random.uniform(0.5, 1.5)], taken
    only when some test broke. *)
Definition apply_drift (repo : SharedRepository) (rolls : nat -> Q) (cost : Q)
    : SharedRepository * DriftStats :=
  let tests_broken :=
    count_broken (_drift_factor repo) (test_suite repo) rolls 0 0 in
  if 0 <? tests_broken then
    let utility_lost := (inject_Z (Z.of_nat tests_broken) * cost)%Q in
    let u := max0 (global_utility repo - utility_lost) in
    (mkRepo (commits repo) u (test_suite repo) (_next_commit_id repo)
            (_drift_factor repo),
     mkDriftStats tests_broken utility_lost u)
  else (repo, mkDriftStats tests_broken 0 (global_utility repo)).

Record StateSummary := mkStateSummary {
  total_commits : nat;
  summary_utility : Q;
  test_suite_size : nat;
  tests_passing : nat;
  tests_failing : nat
}.

(** [get_state_summary] *)
Definition get_state_summary (repo : SharedRepository) : StateSummary :=
  let test_results := run_tests repo in
  mkStateSummary (length (commits repo)) (global_utility repo)
                 (length (test_suite repo))
                 (passed test_results) (failed test_results).

(** A history of calls on one repository. *)
Inductive repo_op :=
| Submit (commit : ref) (utility_gain : Q)
| Drift (rolls : nat -> Q) (cost : Q).

Definition gain_or_cost (op : repo_op) : Q :=
  match op with Submit _ g => g | Drift _ c => c end.

Definition is_submit (op : repo_op) : bool :=
  match op with Submit _ _ => true | Drift _ _ => false end.

Definition apply_repo_op (hr : store * SharedRepository) (op : repo_op)
    : store * SharedRepository :=
  match op with
  | Submit c g => fst (submit_commit (fst hr) (snd hr) c g)
  | Drift rolls cost => (fst hr, fst (apply_drift (snd hr) rolls cost))
  end.

Definition apply_repo_ops (h : store) (repo : SharedRepository)
    (ops : list repo_op) : store * SharedRepository :=
  fold_left apply_repo_op ops (h, repo).

End EnvironmentMore.

Module EnvironmentMoreTheorems.
Import Py PyFacts Environment EnvironmentTheorems EnvironmentMore WorkerMore
       WorkerStateTheorems.

(** X16: [get_commit_history] lists the log newest first.  Without a limit,
    and also with the limit 0, it returns the whole log; with a positive
    limit [l] it returns the [min l n] most recent commits; with a negative
    limit it leaves out the [-l] oldest commits. *)
Theorem commit_history_by_limit (repo : SharedRepository) (l : Z) :
  get_commit_history repo None = rev (commits repo) /\
  get_commit_history repo (Some 0%Z) = rev (commits repo) /\
  ((0 < l)%Z ->
     get_commit_history repo (Some l) =
       rev (lastn (Z.to_nat l) (commits repo)) /\
     length (get_commit_history repo (Some l)) =
       Nat.min (Z.to_nat l) (length (commits repo))) /\
  ((l < 0)%Z ->
     get_commit_history repo (Some l) =
       rev (skipn (Z.to_nat (- l)) (commits repo))).
Proof.
  split; [reflexivity|]. split; [reflexivity|]. split.
  - intros H. unfold get_commit_history, slice_to.
    destruct (Z.eqb_spec l 0) as [E|_]; [lia|].
    destruct (Z.ltb_spec l 0) as [E|_]; [lia|].
    rewrite firstn_rev. split; [reflexivity|].
    rewrite length_rev, length_skipn. lia.
  - intros H. unfold get_commit_history, slice_to.
    destruct (Z.eqb_spec l 0) as [E|_]; [lia|].
    destruct (Z.ltb_spec l 0) as [_|E]; [|lia].
    rewrite firstn_rev, length_rev. f_equal.
    destruct (Z.le_gt_cases (- l) (Z.of_nat (length (commits repo))))
      as [Hin|Hout].
    + f_equal. lia.
    + rewrite !skipn_all2 by lia. reflexivity.
Qed.

Lemma commit_history_by_limit_witness :
  let repo := mkRepo [0; 1; 2; 3] 4 [] 4 (5 # 100) in
  (0 < 2)%Z /\
  get_commit_history repo (Some 2%Z) = [3; 2] /\
  get_commit_history repo (Some 0%Z) = [3; 2; 1; 0].
Proof.
  cbv zeta. split; [lia|].
  destruct (commit_history_by_limit (mkRepo [0; 1; 2; 3] 4 [] 4 (5 # 100)) 2)
    as (_ & Z0 & P & _).
  split; [rewrite (proj1 (P ltac:(lia))); reflexivity|].
  rewrite Z0. reflexivity.
Defined.

Lemma run_tests_counts tests :
  forall p f,
  let counts :=
    fold_left (fun (pf : nat * nat) (test_passes : bool) =>
                 if test_passes then (S (fst pf), snd pf)
                 else (fst pf, S (snd pf))) tests (p, f) in
  fst counts = p + length (filter (fun t => t) tests) /\
  snd counts = f + length (filter negb tests).
Proof.
  induction tests as [|t tests IH]; intros p f; cbv zeta; cbn [fold_left].
  - cbn. lia.
  - destruct t; cbn [fst snd filter negb length].
    + destruct (IH (S p) f) as [A B]. rewrite A, B. lia.
    + destruct (IH p (S f)) as [A B]. rewrite A, B. lia.
Qed.

Lemma pass_fail_partition (tests : list bool) :
  length (filter (fun t => t) tests) + length (filter negb tests) =
  length tests.
Proof.
  induction tests as [|[] t IH]; simpl; lia.
Qed.

(** X17: [run_tests] counts every test exactly once: the passing tests as
    passed, the raising ones as failed, so [passed + failed = total], which
    is the size of the suite; [get_state_summary] reports the same numbers
    and the length of the log. *)
Theorem run_tests_accounts_for_every_test (repo : SharedRepository) :
  let r := run_tests repo in
  passed r = length (filter (fun t => t) (test_suite repo)) /\
  failed r = length (filter negb (test_suite repo)) /\
  passed r + failed r = total r /\
  total r = length (test_suite repo) /\
  tests_passing (get_state_summary repo) +
    tests_failing (get_state_summary repo) =
    test_suite_size (get_state_summary repo).
Proof.
  cbv zeta. unfold get_state_summary, run_tests.
  cbn [passed failed total tests_passing tests_failing test_suite_size].
  destruct (run_tests_counts (test_suite repo) 0 0) as [A B].
  cbv zeta in A, B. rewrite A, B. cbn [Nat.add].
  pose proof (pass_fail_partition (test_suite repo)) as Hsum.
  repeat split; exact Hsum.
Qed.

(** ** Drift *)

Lemma count_broken_bounds d tests rolls :
  forall i acc,
  acc <= count_broken d tests rolls i acc <= acc + length tests.
Proof.
  induction tests as [|t tests IH]; intros i acc; cbn [count_broken length];
    [lia|].
  destruct (negb (Qle_bool d (rolls i)));
    [specialize (IH (S i) (S acc))|specialize (IH (S i) acc)]; lia.
Qed.

Lemma max0_nonneg x : (0 <= max0 x)%Q.
Proof.
  unfold max0. destruct (Qle_bool x 0) eqn:E; [lra|].
  destruct (Qlt_le_dec 0 x) as [L|L]; [lra|].
  apply Qle_bool_iff in L. congruence.
Qed.

Lemma max0_le x u : (x <= u)%Q -> (0 <= u)%Q -> (max0 x <= u)%Q.
Proof. intros H H0. unfold max0. destruct (Qle_bool x 0); lra. Qed.

Lemma apply_drift_effect repo rolls cost :
  (0 <= cost)%Q ->
  ((0 <= global_utility repo)%Q ->
   (0 <= global_utility (fst (apply_drift repo rolls cost)))%Q) /\
  commits (fst (apply_drift repo rolls cost)) = commits repo /\
  test_suite (fst (apply_drift repo rolls cost)) = test_suite repo /\
  _next_commit_id (fst (apply_drift repo rolls cost)) = _next_commit_id repo.
Proof.
  intros Hc. unfold apply_drift.
  destruct (0 <? count_broken _ _ _ _ _); cbn [fst global_utility commits
    test_suite _next_commit_id]; repeat split; auto.
  intros _. apply max0_nonneg.
Qed.

(** X18: [apply_drift] with a non-negative cost never raises the utility and
    never leaves it negative when it was not; the number of broken tests is
    at most the size of the suite; the log, the suite, the next commit id
    and the drift factor are untouched; with an empty suite the repository
    is unchanged and nothing is lost. *)
Theorem drift_only_lowers_utility
    (repo : SharedRepository) (rolls : nat -> Q) (cost : Q) :
  (0 <= cost)%Q ->
  let repo' := fst (apply_drift repo rolls cost) in
  let st := snd (apply_drift repo rolls cost) in
  tests_broken st <= length (test_suite repo) /\
  (utility_lost st == inject_Z (Z.of_nat (tests_broken st)) * cost)%Q /\
  new_utility st = global_utility repo' /\
  ((0 <= global_utility repo)%Q ->
   (0 <= global_utility repo' <= global_utility repo)%Q) /\
  commits repo' = commits repo /\ test_suite repo' = test_suite repo /\
  _next_commit_id repo' = _next_commit_id repo /\
  _drift_factor repo' = _drift_factor repo /\
  (test_suite repo = [] -> repo' = repo /\ tests_broken st = 0).
Proof.
  intros Hc. cbv zeta. unfold apply_drift.
  pose proof (count_broken_bounds (_drift_factor repo) (test_suite repo)
                rolls 0 0) as B.
  set (n := count_broken _ _ _ _ _) in *.
  destruct (Nat.ltb_spec 0 n) as [Hpos|Hzero]; cbn [fst snd tests_broken
    utility_lost new_utility global_utility commits test_suite
    _next_commit_id _drift_factor].
  - assert (Hl : (0 <= inject_Z (Z.of_nat n) * cost)%Q).
    { apply Qmult_le_0_compat; [|exact Hc].
      change 0%Q with (inject_Z 0). rewrite <- Zle_Qle. lia. }
    split; [lia|]. split; [reflexivity|]. split; [reflexivity|].
    split; [intros Hu; split; [apply max0_nonneg|apply max0_le; lra]|].
    repeat (split; [reflexivity|]).
    intros E. rewrite E in B. cbn [length] in B. lia.
  - assert (n = 0) as -> by lia.
    split; [lia|].
    split; [change (inject_Z (Z.of_nat 0)) with 0%Q; lra|].
    split; [reflexivity|].
    split; [intros Hu; lra|]. repeat (split; [reflexivity|]). auto.
Qed.

Lemma drift_only_lowers_utility_witness :
  let repo := mkRepo [0; 1] 1 [true; true; false] 2 (5 # 100) in
  let rolls := fun i : nat => if i =? 1 then (1 # 100)%Q else (1 # 2)%Q in
  (0 <= 3 # 2)%Q /\
  tests_broken (snd (apply_drift repo rolls (3 # 2))) = 1 /\
  (0 <= global_utility (fst (apply_drift repo rolls (3 # 2)))
     <= global_utility repo)%Q.
Proof.
  cbv zeta.
  assert (Hc : (0 <= 3 # 2)%Q) by (vm_compute; discriminate).
  split; [exact Hc|]. split; [reflexivity|].
  refine (let P := drift_only_lowers_utility
             (mkRepo [0; 1] 1 [true; true; false] 2 (5 # 100))
             (fun i : nat => if i =? 1 then (1 # 100)%Q else (1 # 2)%Q)
             (3 # 2) Hc in _).
  cbv zeta in P. destruct P as (_ & _ & _ & U & _).
  apply U. vm_compute. discriminate.
Defined.

(** ** Invariants of the repository *)

(** X19: along any history of submissions with non-negative gains and drifts
    with non-negative costs, a repository whose next commit id equals the
    length of its log and whose utility is not negative (as for a new
    repository) keeps both properties; its log grows by one entry per
    submission and its test suite is never altered. *)
Theorem repository_invariants
    (h : store) (repo : SharedRepository) (ops : list repo_op) :
  _next_commit_id repo = Z.of_nat (length (commits repo)) ->
  (0 <= global_utility repo)%Q ->
  Forall (fun op => 0 <= gain_or_cost op)%Q ops ->
  let repo' := snd (apply_repo_ops h repo ops) in
  _next_commit_id repo' = Z.of_nat (length (commits repo')) /\
  (0 <= global_utility repo')%Q /\
  length (commits repo') =
    length (commits repo) + length (filter is_submit ops) /\
  test_suite repo' = test_suite repo.
Proof.
  revert h repo. induction ops as [|op ops IH]; intros h repo Hn Hu Hall;
    cbv zeta.
  - cbn. repeat split; auto; lia.
  - inversion Hall as [|? ? Hop Hrest]; subst.
    unfold apply_repo_ops. cbn [fold_left].
    destruct op as [c g|rolls cost]; cbn [gain_or_cost] in Hop.
    + set (hr := apply_repo_op (h, repo) (Submit c g)).
      destruct (IH (fst hr) (snd hr)) as (A & B & C & D); try exact Hrest.
      * unfold hr. cbn [apply_repo_op submit_commit fst snd _next_commit_id
                        commits]. rewrite length_app, Hn. cbn [length]. lia.
      * unfold hr. cbn [apply_repo_op submit_commit fst snd global_utility].
        lra.
      * unfold apply_repo_ops in A, B, C, D.
        replace (fst hr, snd hr) with hr in A, B, C, D by (destruct hr; auto).
        split; [exact A|]. split; [exact B|]. split; [|exact D].
        rewrite C. unfold hr.
        cbn [apply_repo_op submit_commit fst snd commits filter is_submit].
        rewrite length_app. cbn [length]. lia.
    + set (hr := apply_repo_op (h, repo) (Drift rolls cost)).
      destruct (apply_drift_effect repo rolls cost Hop)
        as (U & Cm & Ts & Ni).
      destruct (IH (fst hr) (snd hr)) as (A & B & C & D); try exact Hrest.
      * unfold hr. cbn [apply_repo_op fst snd]. rewrite Ni, Cm. exact Hn.
      * unfold hr. cbn [apply_repo_op fst snd]. apply U, Hu.
      * unfold apply_repo_ops in A, B, C, D.
        replace (fst hr, snd hr) with hr in A, B, C, D by (destruct hr; auto).
        split; [exact A|]. split; [exact B|]. split.
        -- rewrite C. unfold hr. cbn [apply_repo_op fst snd filter is_submit].
           rewrite Cm. reflexivity.
        -- rewrite D. unfold hr. cbn [apply_repo_op fst snd]. exact Ts.
Qed.

Lemma repository_invariants_witness :
  let h := [mkCommit (str "worker_0") (str "pass") 0 None None] in
  let ops := [Submit 0 1; Drift (fun _ => 0%Q) 1; Submit 0 (1 # 2)] in
  _next_commit_id new_repository =
    Z.of_nat (length (commits new_repository)) /\
  (0 <= global_utility new_repository)%Q /\
  Forall (fun op => 0 <= gain_or_cost op)%Q ops /\
  _next_commit_id (snd (apply_repo_ops h new_repository ops)) = 2%Z /\
  length (commits (snd (apply_repo_ops h new_repository ops))) = 2.
Proof.
  cbv zeta.
  assert (Hu : (0 <= global_utility new_repository)%Q)
    by (vm_compute; discriminate).
  assert (Hall : Forall (fun op => 0 <= gain_or_cost op)%Q
                   [Submit 0 1; Drift (fun _ => 0%Q) 1; Submit 0 (1 # 2)])
    by (repeat constructor; vm_compute; discriminate).
  split; [reflexivity|]. split; [exact Hu|]. split; [exact Hall|].
  destruct (repository_invariants
              [mkCommit (str "worker_0") (str "pass") 0 None None]
              new_repository
              [Submit 0 1; Drift (fun _ => 0%Q) 1; Submit 0 (1 # 2)]
              eq_refl Hu Hall) as (A & _ & C & _).
  rewrite A, C. split; reflexivity.
Defined.

(** ** The identifiers the log shows *)

Lemma id_of_set_other h c id r :
  r <> c -> id_of (set_commit_id h c id) r = id_of h r.
Proof.
  intros H. unfold id_of, set_commit_id, deref.
  destruct (nth_error h c); [|reflexivity].
  rewrite EvolutionMore.list_set_other by exact H. reflexivity.
Qed.

Lemma submit_all_untouched subs :
  forall h repo r,
  ~ In r (map fst subs) ->
  id_of (fst (fst (submit_all h repo subs))) r = id_of h r.
Proof.
  induction subs as [|[c g] rest IH]; intros h repo r Hr; [reflexivity|].
  cbn [submit_all submit_commit].
  set (h1 := set_commit_id h c (_next_commit_id repo)).
  set (repo1 := mkRepo _ _ _ _ _).
  specialize (IH h1 repo1 r).
  destruct (submit_all h1 repo1 rest) as [[h2 repo2] trace].
  cbn [fst] in *. rewrite IH by (intros F; apply Hr; right; exact F).
  apply id_of_set_other. intros ->. apply Hr. left. reflexivity.
Qed.

(** X20: when the commits submitted in a run are pairwise distinct objects,
    each keeps the identifier it was assigned: read off the store after the
    run, the submitted commits carry consecutive identifiers in submission
    order, starting at the repository's next commit id; commits that were
    not submitted keep the identifier they had. *)
Theorem distinct_commits_keep_assigned_ids
    (h : store) (repo : SharedRepository) (subs : list (ref * Q)) :
  Forall (fun sub : ref * Q => fst sub < length h) subs ->
  NoDup (map fst subs) ->
  let h' := fst (fst (submit_all h repo subs)) in
  let repo' := snd (fst (submit_all h repo subs)) in
  map (id_of h') (map fst subs) =
    map Some (consecutive (_next_commit_id repo) (length subs)) /\
  (forall r, ~ In r (map fst subs) -> id_of h' r = id_of h r) /\
  commits repo' = commits repo ++ map fst subs.
Proof.
  intros Hv Hnd. cbv zeta.
  split; [|split;
    [intros r Hr; apply submit_all_untouched, Hr
    |exact (proj1 (proj2 (proj2 (submit_all_trace subs h repo Hv))))]].
  revert h repo Hv Hnd.
  induction subs as [|[c g] rest IH]; intros h repo Hv Hnd; [reflexivity|].
  inversion Hv as [|? ? Hc Hrest]; subst. cbn [fst] in Hc.
  cbn [map fst] in Hnd. inversion Hnd as [|? ? Hnot Hnd']; subst.
  cbn [submit_all submit_commit].
  set (h1 := set_commit_id h c (_next_commit_id repo)).
  set (repo1 := mkRepo _ _ _ _ _).
  assert (Hv1 : Forall (fun sub : ref * Q => fst sub < length h1) rest).
  { unfold h1. eapply Forall_impl; [|exact Hrest]. cbn beta.
    intros a Ha. rewrite set_commit_id_length. exact Ha. }
  specialize (IH h1 repo1 Hv1 Hnd').
  pose proof (submit_all_untouched rest h1 repo1 c Hnot) as Hkeep.
  destruct (submit_all h1 repo1 rest) as [[h2 repo2] trace].
  cbn [fst snd map length] in *.
  rewrite consecutive_cons. cbn [map]. f_equal.
  - rewrite Hkeep. unfold h1. apply id_of_set_commit_id, Hc.
  - rewrite IH. unfold repo1. cbn [_next_commit_id]. reflexivity.
Qed.

Lemma distinct_commits_keep_assigned_ids_witness :
  let h := [mkCommit (str "worker_0") (str "pass") 0 None None;
            mkCommit (str "worker_1") (str "pass") 0 None None] in
  let subs := [(1, 1%Q); (0, 2%Q)] in
  Forall (fun sub : ref * Q => fst sub < length h) subs /\
  NoDup (map fst subs) /\
  log_ids (fst (fst (submit_all h new_repository subs)))
          (snd (fst (submit_all h new_repository subs))) =
    [Some 0%Z; Some 1%Z].
Proof.
  intros h subs.
  assert (Hv : Forall (fun sub : ref * Q => fst sub < length h) subs)
    by (repeat constructor).
  assert (Hnd : NoDup (map fst subs)).
  { cbn. repeat constructor; cbn; intros F;
      repeat (destruct F as [F|F]; [discriminate|]); exact F. }
  split; [exact Hv|]. split; [exact Hnd|].
  destruct (distinct_commits_keep_assigned_ids h new_repository subs Hv Hnd)
    as (Ids & _ & Log).
  unfold log_ids. rewrite Log. cbn [commits new_repository app].
  rewrite Ids. reflexivity.
Defined.

End EnvironmentMoreTheorems.

(* ------------------------------------------------------------------ *)
(** * NashMetrics: distribution and summary *)
(* ------------------------------------------------------------------ *)

Module MetricsMore.
Import Py Channels Worker Metrics.

(** A dictionary from styles to counts, in insertion order. *)
Definition style_dict := list (StyleType * nat).

(** [d[key]] *)
Fixpoint dict_get (d : style_dict) (key : StyleType) : option nat :=
  match d with
  | [] => None
  | (k, v) :: t => if StyleType_eqb k key then Some v else dict_get t key
  end.

(** [if style in distribution: distribution[style] += 1
     else: distribution[style] = 1] *)
Fixpoint count_in (style : StyleType) (d : style_dict) : style_dict :=
  match d with
  | [] => [(style, 1)]
  | (k, v) :: t => if StyleType_eqb k style then (k, S v) :: t
                   else (k, v) :: count_in style t
  end.

(** [get_style_distribution] *)
Definition get_style_distribution (agents : list BaseWorker) : style_dict :=
  fold_left (fun distribution agent =>
               count_in (preferred_style agent) distribution)
            agents [(neutral, 0); (snake_case, 0); (camel_case, 0)].

Record Summary := mkSummary {
  nash_distance : Q;
  honest_ratio : Q;
  corruption_ratio : Q;
  distribution : style_dict;
  total_agents : nat
}.

Inductive summary_outcome :=
| Returned (s : Summary)
| KeyError
| Raised (e : exn).

(** [get_summary] *)
Definition get_summary (agents : list BaseWorker) : summary_outcome :=
  let distribution := get_style_distribution agents in
  let total := match agents with [] => 1 | _ :: _ => length agents end in
  match calculate_distance agents with
  | Raise e => Raised e
  | Ok distance =>
      match dict_get distribution neutral with
      | None => KeyError
      | Some neutral_count =>
          match py_div (Z.of_nat neutral_count) (Z.of_nat total) with
          | Raise e => Raised e
          | Ok honest =>
              Returned (mkSummary distance honest (1 - honest)%Q
                                  distribution (length agents))
          end
      end
  end.

End MetricsMore.

Module MetricsMoreTheorems.
Import Py Channels Worker Metrics MetricsMore.

Definition neutral_count (agents : list BaseWorker) : nat :=
  length (filter is_neutral agents).

Lemma neutral_count_le agents : neutral_count agents <= length agents.
Proof. apply filter_length_le. Qed.

Lemma neutral_count_all agents :
  neutral_count agents = length agents <->
  forall a, In a agents -> preferred_style a = neutral.
Proof.
  unfold neutral_count. induction agents as [|a t IH]; cbn [filter length In].
  - split; [intros _ a []|reflexivity].
  - pose proof (filter_length_le is_neutral t) as L.
    unfold is_neutral at 1. destruct (preferred_style a) eqn:E;
      cbn [StyleType_eqb length]; split.
    + intros H x [<-|Hx]; [exact E|]. apply IH; [lia|exact Hx].
    + intros H. f_equal. apply IH. auto.
    + intros H. lia.
    + intros H. specialize (H a (or_introl eq_refl)). congruence.
    + intros H. lia.
    + intros H. specialize (H a (or_introl eq_refl)). congruence.
Qed.

Lemma neutral_count_none agents :
  neutral_count agents = 0 <->
  forall a, In a agents -> preferred_style a <> neutral.
Proof.
  unfold neutral_count. induction agents as [|a t IH]; cbn [filter length In].
  - split; [intros _ a []|reflexivity].
  - unfold is_neutral at 1. destruct (preferred_style a) eqn:E;
      cbn [StyleType_eqb length]; split.
    + intros H. lia.
    + intros H. specialize (H a (or_introl eq_refl)). congruence.
    + intros H x [<-|Hx]; [congruence|]. apply IH; auto.
    + intros H. apply IH. auto.
    + intros H x [<-|Hx]; [congruence|]. apply IH; auto.
    + intros H. apply IH. auto.
Qed.

(** A ratio [k / n] of counts with [k <= n] and [n > 0]. *)
Lemma ratio_facts (k n : nat) :
  k <= n -> 0 < n ->
  let q := (inject_Z (Z.of_nat k) / inject_Z (Z.of_nat n))%Q in
  (0 <= q)%Q /\ (q <= 1)%Q /\
  ((q == 1)%Q <-> k = n) /\ ((q == 0)%Q <-> k = 0).
Proof.
  intros Hk Hn q.
  assert (N : (0 < inject_Z (Z.of_nat n))%Q).
  { change 0%Q with (inject_Z 0). rewrite <- Zlt_Qlt. lia. }
  assert (K : (0 <= inject_Z (Z.of_nat k))%Q).
  { change 0%Q with (inject_Z 0). rewrite <- Zle_Qle. lia. }
  assert (KN : (inject_Z (Z.of_nat k) <= inject_Z (Z.of_nat n))%Q).
  { rewrite <- Zle_Qle. lia. }
  assert (E : (q * inject_Z (Z.of_nat n) == inject_Z (Z.of_nat k))%Q).
  { unfold q. field. lra. }
  split; [apply Qle_shift_div_l; [exact N|lra]|].
  split; [apply Qle_shift_div_r; [exact N|lra]|].
  split; split.
  - intros Q1. rewrite Q1 in E.
    assert (Ez : (inject_Z (Z.of_nat n) == inject_Z (Z.of_nat k))%Q) by lra.
    apply (proj1 (inject_Z_injective _ _)) in Ez. lia.
  - intros ->. unfold q. field. lra.
  - intros Q0. rewrite Q0 in E.
    assert (Ez : (inject_Z (Z.of_nat k) == inject_Z 0)%Q)
      by (change (inject_Z 0) with 0%Q; lra).
    apply (proj1 (inject_Z_injective _ _)) in Ez. lia.
  - intros ->. unfold q. cbn [Z.of_nat]. field. lra.
Qed.

(** X21: [calculate_distance] returns, for every population, a distance
    between 0 and 1; it is 0 exactly when every agent is neutral (the empty
    population included) and, for a non-empty population, 1 exactly when no
    agent is neutral. *)
Theorem distance_is_share_of_signalers (agents : list BaseWorker) :
  exists d, calculate_distance agents = Ok d /\
    (0 <= d)%Q /\ (d <= 1)%Q /\
    ((d == 0)%Q <-> forall a, In a agents -> preferred_style a = neutral) /\
    (agents <> [] ->
     ((d == 1)%Q <->
      forall a, In a agents -> preferred_style a <> neutral)).
Proof.
  destruct agents as [|a0 t] eqn:Ea.
  - exists 0%Q. split; [reflexivity|]. split; [lra|]. split; [lra|].
    split; [split; [intros _ a []|reflexivity]|congruence].
  - rewrite <- Ea. assert (Hn : 0 < length agents) by (subst; cbn; lia).
    pose proof (neutral_count_le agents) as Hk.
    destruct (ratio_facts _ _ Hk Hn) as (Q0 & Q1 & E1 & E0). cbv zeta in *.
    set (q := (inject_Z (Z.of_nat (neutral_count agents)) /
               inject_Z (Z.of_nat (length agents)))%Q) in *.
    exists (1 - q)%Q. split.
    + subst agents. unfold calculate_distance, py_div.
      destruct (Z.eqb_spec (Z.of_nat (length (a0 :: t))) 0) as [F|_];
        [cbn in F; lia|]. reflexivity.
    + split; [lra|]. split; [lra|]. split; [|intros _].
      * rewrite <- neutral_count_all, <- E1. split; intros; lra.
      * rewrite <- neutral_count_none, <- E0. split; intros; lra.
Qed.

Lemma distribution_fold agents :
  forall a b c,
  fold_left (fun distribution agent =>
               count_in (preferred_style agent) distribution)
            agents [(neutral, a); (snake_case, b); (camel_case, c)] =
  [(neutral, a + Evolution.count_style neutral agents);
   (snake_case, b + Evolution.count_style snake_case agents);
   (camel_case, c + Evolution.count_style camel_case agents)].
Proof.
  unfold Evolution.count_style.
  induction agents as [|x t IH]; intros a b c; cbn [fold_left filter length].
  - rewrite !Nat.add_0_r. reflexivity.
  - destruct (preferred_style x); cbn [count_in StyleType_eqb length];
      rewrite IH; cbn [length]; rewrite ?Nat.add_succ_r; reflexivity.
Qed.

Lemma distribution_neutral agents :
  dict_get (get_style_distribution agents) neutral =
  Some (length (filter is_neutral agents)).
Proof.
  unfold get_style_distribution. rewrite distribution_fold. reflexivity.
Qed.

(** X22: [get_style_distribution] returns the three styles in their fixed
    order, each with the number of agents preferring it; the counts add up
    to the number of agents, and they are the counts [evolve_population]
    reports for the same population. *)
Theorem style_distribution_counts (agents : list BaseWorker) :
  get_style_distribution agents =
    [(neutral, Evolution.count_style neutral agents);
     (snake_case, Evolution.count_style snake_case agents);
     (camel_case, Evolution.count_style camel_case agents)] /\
  list_sum (map snd (get_style_distribution agents)) = length agents /\
  dict_get (get_style_distribution agents) neutral =
    Some (length (filter is_neutral agents)) /\
  get_style_distribution agents =
    map (fun s => (s, Evolution.count_style s agents))
        Evolution.available_styles.
Proof.
  assert (E : get_style_distribution agents =
    [(neutral, Evolution.count_style neutral agents);
     (snake_case, Evolution.count_style snake_case agents);
     (camel_case, Evolution.count_style camel_case agents)]).
  { unfold get_style_distribution. rewrite distribution_fold. reflexivity. }
  split; [exact E|]. rewrite E. split; [|split; reflexivity].
  cbn [map snd list_sum fold_right].
  pose proof (EvolutionMore.count_styles_total agents). lia.
Qed.

(** X23: [get_summary] returns for every population, the empty one
    included.  The honest and corruption ratios add up to 1 and the summary
    reports the number of agents.  For a non-empty population the Nash
    distance equals the corruption ratio; for the empty population the
    distance is 0 while the corruption ratio is 1. *)
Theorem summary_ratios (agents : list BaseWorker) :
  exists s, get_summary agents = Returned s /\
    total_agents s = length agents /\
    distribution s = get_style_distribution agents /\
    (honest_ratio s + corruption_ratio s == 1)%Q /\
    (agents <> [] -> (nash_distance s == corruption_ratio s)%Q) /\
    (agents = [] ->
     nash_distance s = 0%Q /\ (honest_ratio s == 0)%Q /\
     (corruption_ratio s == 1)%Q).
Proof.
  unfold get_summary.
  rewrite distribution_neutral. destruct agents as [|a0 t].
  - eexists. split; [reflexivity|].
    cbn [total_agents distribution honest_ratio corruption_ratio
         nash_distance].
    repeat split; try reflexivity; try congruence.
  - unfold calculate_distance, py_div.
    destruct (Z.eqb_spec (Z.of_nat (length (a0 :: t))) 0) as [F|_];
      [cbn in F; lia|].
    cbn [bind]. eexists. split; [reflexivity|].
    cbn [total_agents distribution honest_ratio corruption_ratio
         nash_distance].
    split; [reflexivity|]. split; [reflexivity|]. split; [lra|].
    split; [intros _; reflexivity|discriminate].
Qed.

End MetricsMoreTheorems.

(* ------------------------------------------------------------------ *)
(** ** The recommender and the steering mechanism *)
(* ------------------------------------------------------------------ *)

Module OverseerMore.
Import Py Overseer.

Section WithNet.
Variable net : Net.

(** [hash(char) % self.vocab_size] for a non-zero vocabulary size. *)
Definition token_of (r : Recommender) (c : ascii) : Z :=
  (hash_str net [c] mod vocab_size r)%Z.

(** A sequence of [apply_steering] calls of one mechanism on one
    recommender. *)
Fixpoint apply_steering_all (s : SteeringMechanism net) (r : Recommender)
    (coefficients : list Q)
    : result (Recommender * SteeringMechanism net) :=
  match coefficients with
  | [] => Ok (r, s)
  | c :: rest =>
      match apply_steering net s r c with
      | Raise e => Raise e
      | Ok (r1, s1) => apply_steering_all s1 r1 rest
      end
  end.

(** [add_training_sample] *)
Definition add_training_sample (r : Recommender) (agent_id : Z) (code : text)
    (passed : bool) : result Recommender :=
  code_tokens <- _tokenize_code net r code ;;
  let label := if passed then 1%Q else 0%Q in
  Ok (mkRecommender (vocab_size r) (num_agents r) (training r) (pre_hooks r)
        (next_handle r)
        (training_buffer r ++ [(agent_id, code_tokens, label)])).

End WithNet.

End OverseerMore.

Module OverseerMoreTheorems.
Import Py Overseer OverseerFacts OverseerMore.

Lemma mapM_all_ok {A B} (f : A -> result B) (g : A -> B) l :
  (forall x, f x = Ok (g x)) -> mapM f l = Ok (map g l).
Proof.
  intros H. induction l as [|a t IH]; cbn [mapM map]; [reflexivity|].
  rewrite H, IH. reflexivity.
Qed.

Lemma strongly_sorted_firstn {A} (R : A -> A -> Prop) k l :
  StronglySorted R l -> StronglySorted R (firstn k l).
Proof.
  revert l. induction k as [|k IH]; intros [|a l] H; cbn [firstn];
    try constructor.
  - apply IH. apply StronglySorted_inv in H. tauto.
  - apply StronglySorted_inv in H as [_ H]. rewrite Forall_forall in *.
    intros x Hx. apply H. eapply in_firstn, Hx.
Qed.

Lemma forall2_in_r {A B} (R : A -> B -> Prop) l l' y :
  Forall2 R l l' -> In y l' -> exists x, In x l /\ R x y.
Proof.
  induction 1 as [|a b l l' Hab _ IH]; cbn [In]; [tauto|].
  intros [<-|Hy]; [exists a; auto|].
  destruct (IH Hy) as (x & Hx & Hr). exists x. auto.
Qed.

Section WithNet.
Variable net : Net.

Lemma tokenize_closed_form r code :
  vocab_size r <> 0%Z ->
  _tokenize_code net r code =
  Ok (map (token_of net r) (firstn 50 code) ++ repeat 0%Z (50 - length code)).
Proof.
  intros Hv. unfold _tokenize_code.
  rewrite (mapM_all_ok _ (token_of net r)).
  2:{ intros c. unfold py_mod, token_of.
      destruct (Z.eqb_spec (vocab_size r) 0); [contradiction|reflexivity]. }
  cbn [bind]. rewrite length_map, length_firstn.
  destruct (Nat.ltb_spec (Nat.min 100 (length code)) 50) as [L|L].
  - rewrite !firstn_all2 by lia.
    replace (50 - Nat.min 100 (length code)) with (50 - length code) by lia.
    reflexivity.
  - rewrite <- firstn_map, firstn_firstn, firstn_map.
    replace (50 - length code) with 0 by lia.
    change (Nat.min 50 100) with 50. cbn [repeat].
    rewrite app_nil_r. reflexivity.
Qed.

(** The tokens are computed from the first 50 characters, whatever the
    vocabulary size. *)
Lemma tokenize_prefix r code :
  _tokenize_code net r code = _tokenize_code net r (firstn 50 code).
Proof.
  destruct (Z.eqb_spec (vocab_size r) 0) as [E|N].
  - destruct code as [|c t]; [reflexivity|].
    unfold _tokenize_code, py_mod. cbn [firstn mapM]. rewrite E.
    reflexivity.
  - rewrite !tokenize_closed_form by exact N.
    rewrite firstn_firstn, length_firstn.
    change (Nat.min 50 50) with 50.
    replace (50 - Nat.min 50 (length code)) with (50 - length code) by lia.
    reflexivity.
Qed.

Lemma activations_prefix r agent_id code :
  activations net r agent_id code =
  activations net r agent_id (firstn 50 code).
Proof. unfold activations. rewrite tokenize_prefix. reflexivity. Qed.

(** X24: with a non-zero vocabulary size [_tokenize_code] returns exactly 50
    tokens: the residues of the hashes of the first 50 characters, followed
    by zeros when the text is shorter. *)
Theorem tokenize_pads_and_truncates (r : Recommender) (code : text) :
  vocab_size r <> 0%Z ->
  exists tokens,
    _tokenize_code net r code = Ok tokens /\
    length tokens = 50 /\
    tokens = map (token_of net r) (firstn 50 code) ++
             repeat 0%Z (50 - length code).
Proof.
  intros Hv. eexists. split; [apply tokenize_closed_form, Hv|].
  split; [|reflexivity].
  rewrite length_app, length_map, length_firstn, repeat_length. lia.
Qed.

(** X25: a prediction reads the first 50 characters of the text and nothing
    after them: two texts with the same first 50 characters get the same
    result, score or error, for every agent key and every interception. *)
Theorem predict_reads_first_fifty_characters
    (r : Recommender) (s : SteeringMechanism net) (agent_id : Z)
    (code code' : text) :
  firstn 50 code = firstn 50 code' ->
  snd (predict net r s agent_id code) = snd (predict net r s agent_id code').
Proof.
  intros H. unfold predict. cbn [snd].
  rewrite (activations_prefix _ _ code), (activations_prefix _ _ code'), H.
  reflexivity.
Qed.

(** What [score_all] returns for a pair, relative to the recommender the
    ranking started from. *)
Definition scored (r : Recommender) (s : SteeringMechanism net)
    (pair : Z * text) (p : Z * Q) : Prop :=
  fst p = fst pair /\
  snd (predict net r s (fst pair) (snd pair)) = Ok (snd p).

Lemma predict_ok r s agent_id code :
  (0 < vocab_size r)%Z -> (0 < num_agents r)%Z ->
  exists sc, predict net r s agent_id code = (set_eval r, Ok sc).
Proof.
  intros Hv Hn. unfold predict.
  destruct (activations_ok net (set_eval r) agent_id code Hv Hn) as [a ->].
  eexists. reflexivity.
Qed.

Lemma score_all_spec s pairs :
  forall r, (0 < vocab_size r)%Z -> (0 < num_agents r)%Z ->
  exists r' scores,
    score_all net r s pairs = (r', Ok scores) /\
    set_eval r' = set_eval r /\
    Forall2 (scored r s) pairs scores.
Proof.
  induction pairs as [|[agent_id code] rest IH]; intros r Hv Hn;
    cbn [score_all].
  - exists r, []. split; [reflexivity|]. split; [reflexivity|constructor].
  - destruct (predict_ok r s agent_id code Hv Hn) as [sc E]. rewrite E.
    destruct (IH (set_eval r) Hv Hn) as (r' & scores & -> & S' & F).
    cbn [bind]. exists r', ((agent_id, sc) :: scores).
    split; [reflexivity|]. split; [exact S'|]. constructor.
    + split; [reflexivity|]. cbn [fst snd]. rewrite E. reflexivity.
    + exact F.
Qed.

(** X26: with valid sizes [get_top_k_agents] returns a ranking.  It has
    [min k (min (len agent_ids) (len code_samples))] entries, so surplus
    keys or texts are dropped silently; the scores are in descending order;
    and every entry is a key of the input paired with the prediction for
    that key and its text. *)
Theorem top_k_agents_ranked
    (r : Recommender) (s : SteeringMechanism net)
    (agent_ids : list Z) (code_samples : list text) (k : nat) :
  (0 < vocab_size r)%Z -> (0 < num_agents r)%Z ->
  exists top,
    snd (get_top_k_agents net r s agent_ids code_samples k) = Ok top /\
    length top =
      Nat.min k (Nat.min (length agent_ids) (length code_samples)) /\
    StronglySorted (EvolutionMore.at_least snd) top /\
    forall p, In p top ->
      exists code,
        In (fst p, code) (combine agent_ids code_samples) /\
        snd (predict net r s (fst p) code) = Ok (snd p).
Proof.
  intros Hv Hn. unfold get_top_k_agents.
  destruct (score_all_spec s (combine agent_ids code_samples) r Hv Hn)
    as (r' & scores & -> & _ & F).
  cbn [snd bind]. eexists. split; [reflexivity|].
  split; [|split].
  - rewrite length_firstn, PyFacts.sorted_desc_length.
    rewrite <- (Forall2_length F), length_combine. reflexivity.
  - apply strongly_sorted_firstn, EvolutionMore.sorted_desc_sorted.
  - intros p Hp. apply in_firstn, PyFacts.sorted_desc_in in Hp.
    destruct (forall2_in_r _ _ _ _ F Hp) as ([agent_id code] & Hin & E1 & E2).
    cbn [fst snd] in E1, E2. exists code. rewrite E1. auto.
Qed.

(** The hooks on the recommender are those of the mechanism: none, or the
    one registered under the handle the mechanism holds. *)
Definition owned (r : Recommender) (s : SteeringMechanism net) : Prop :=
  pre_hooks r = [] \/
  exists h c, pre_hooks r = [(h, c)] /\ hook_handle s = Some h.

Lemma apply_steering_step s r c v :
  owned r s -> collusion_vector s = Some v ->
  exists r1 s1,
    apply_steering net s r c = Ok (r1, s1) /\
    pre_hooks r1 = [(next_handle r, c)] /\
    hook_handle s1 = Some (next_handle r) /\
    next_handle r1 = S (next_handle r) /\
    steering_coefficient s1 = c /\ collusion_vector s1 = Some v /\
    vocab_size r1 = vocab_size r /\ num_agents r1 = num_agents r.
Proof.
  intros O Hv. unfold apply_steering, reset_steering. rewrite Hv.
  destruct O as [E|(h & c0 & E & Hh)].
  - destruct (hook_handle s);
      cbn [pre_hooks next_handle vocab_size num_agents collusion_vector
           hook_handle steering_coefficient];
      rewrite E; do 2 eexists; repeat split; exact Hv.
  - rewrite Hh.
    cbn [pre_hooks next_handle vocab_size num_agents collusion_vector
         hook_handle steering_coefficient].
    rewrite E. cbn [filter fst]. rewrite Nat.eqb_refl. cbn [negb app].
    do 2 eexists. repeat split; exact Hv.
Qed.

Lemma apply_steering_all_spec v c cs :
  forall s r, owned r s -> collusion_vector s = Some v ->
  exists r' s',
    apply_steering_all net s r (cs ++ [c]) = Ok (r', s') /\
    pre_hooks r' = [(next_handle r + length cs, c)] /\
    hook_handle s' = Some (next_handle r + length cs) /\
    steering_coefficient s' = c /\ collusion_vector s' = Some v /\
    vocab_size r' = vocab_size r /\ num_agents r' = num_agents r.
Proof.
  induction cs as [|c0 cs IH]; intros s r O Hv;
    cbn [app apply_steering_all length].
  - destruct (apply_steering_step s r c v O Hv)
      as (r1 & s1 & -> & H1 & H2 & _ & H4 & H5 & H6 & H7).
    exists r1, s1. rewrite Nat.add_0_r. repeat split; assumption.
  - destruct (apply_steering_step s r c0 v O Hv)
      as (r1 & s1 & -> & H1 & H2 & H3 & _ & H5 & H6 & H7).
    destruct (IH s1 r1) as (r' & s' & E & G1 & G2 & G3 & G4 & G5 & G6);
      [right; eauto|exact H5|].
    exists r', s'. rewrite H3 in G1, G2.
    rewrite Nat.add_succ_r. cbn [Nat.add] in G1, G2.
    repeat split; try assumption; congruence.
Qed.

(** With one hook installed, a prediction scores the activations minus the
    scaled vector the mechanism holds when the prediction is made. *)
Lemma predict_hooked r0 r s h c v agent_id code :
  pre_hooks r = [(h, c)] -> collusion_vector s = Some v ->
  vocab_size r = vocab_size r0 -> num_agents r = num_agents r0 ->
  snd (predict net r s agent_id code) =
  (a <- activations net r0 agent_id code ;;
   Ok (scorer net (act_sub net a (act_scale net c v)))).
Proof.
  intros Hh Hv Sv Sn. unfold predict. cbn [snd].
  rewrite (activations_sizes net r0 (set_eval r)) by assumption.
  unfold call_trust_predictor, pre_hook. cbn [set_eval pre_hooks].
  rewrite Hh. cbn [fold_left snd]. rewrite Hv. reflexivity.
Qed.

Lemma batch_sizes r r' codes :
  vocab_size r' = vocab_size r -> num_agents r' = num_agents r ->
  mapM (activations net r' 0) codes = mapM (activations net r 0) codes.
Proof.
  intros Hv Hn. induction codes as [|c t IH]; cbn [mapM]; [reflexivity|].
  rewrite (activations_sizes net r r') by assumption. rewrite IH.
  reflexivity.
Qed.

(** X27: steering does not stack.  After any number of [apply_steering]
    calls on a recommender that started without hooks, exactly one hook is
    installed, the mechanism holds its handle, and a prediction scores the
    activations minus the vector scaled by the coefficient of the last call
    alone. *)
Theorem repeated_steering_keeps_last
    (r : Recommender) (s : SteeringMechanism net) (v : Act net)
    (cs : list Q) (c : Q) :
  pre_hooks r = [] -> collusion_vector s = Some v ->
  exists r' s',
    apply_steering_all net s r (cs ++ [c]) = Ok (r', s') /\
    pre_hooks r' = [(next_handle r + length cs, c)] /\
    hook_handle s' = Some (next_handle r + length cs) /\
    steering_coefficient s' = c /\
    forall agent_id code,
      snd (predict net r' s' agent_id code) =
      (a <- activations net r agent_id code ;;
       Ok (scorer net (act_sub net a (act_scale net c v)))).
Proof.
  intros Hh Hv.
  destruct (apply_steering_all_spec v c cs s r (or_introl Hh) Hv)
    as (r' & s' & E & G1 & G2 & G3 & G4 & G5 & G6).
  exists r', s'. split; [exact E|]. split; [exact G1|]. split; [exact G2|].
  split; [exact G3|]. intros agent_id code.
  eapply predict_hooked; eassumption.
Qed.

(** X28: the installed hook reads the vector of the mechanism when it runs.
    Recomputing the vector from non-empty corpora while steering is active
    gives the vector that would be computed without steering (the
    activations are taken before the hooked layer), leaves the hook in
    place, and from then on predictions subtract the new vector, with no
    further [apply_steering] call. *)
Theorem installed_hook_follows_recomputed_vector
    (r : Recommender) (s : SteeringMechanism net) (v : Act net) (c : Q)
    (snake_codes neutral_codes : list text) :
  pre_hooks r = [] -> collusion_vector s = Some v ->
  (0 < vocab_size r)%Z -> (0 < num_agents r)%Z ->
  snake_codes <> [] -> neutral_codes <> [] ->
  exists r1 s1 r2 s2 v',
    apply_steering net s r c = Ok (r1, s1) /\
    compute_collusion_vector net s1 r1 snake_codes neutral_codes =
      (r2, s2, Ok v') /\
    snd (compute_collusion_vector net s r snake_codes neutral_codes) =
      Ok v' /\
    pre_hooks r2 = pre_hooks r1 /\
    forall agent_id code,
      snd (predict net r2 s2 agent_id code) =
      (a <- activations net r agent_id code ;;
       Ok (scorer net (act_sub net a (act_scale net c v')))).
Proof.
  intros Hh Hv Sv Sn Hs Hc.
  destruct (apply_steering_step s r c v (or_introl Hh) Hv)
    as (r1 & s1 & E & H1 & H2 & _ & _ & _ & V1 & N1).
  assert (Sv1 : (0 < vocab_size r1)%Z) by (rewrite V1; exact Sv).
  assert (Sn1 : (0 < num_agents r1)%Z) by (rewrite N1; exact Sn).
  destruct (compute_ok net s1 r1 snake_codes neutral_codes Sv1 Sn1 Hs Hc)
    as (sa1 & na1 & Ea1 & Eb1 & Ec1).
  destruct (compute_ok net s r snake_codes neutral_codes Sv Sn Hs Hc)
    as (sa & na & Ea & Eb & Ec).
  rewrite (batch_sizes (set_eval r) (set_eval r1) snake_codes V1 N1) in Ea1.
  rewrite (batch_sizes (set_eval (set_eval r)) (set_eval (set_eval r1))
             neutral_codes V1 N1) in Eb1.
  assert (Es : sa1 = sa) by congruence.
  assert (En : na1 = na) by congruence.
  subst sa1 na1. cbv zeta in Ec, Ec1.
  set (v' := act_sub net (act_mean net sa) (act_mean net na)) in *.
  exists r1, s1, (set_eval (set_eval r1)),
    (mkSteering (Some v') (hook_handle s1) (steering_coefficient s1)), v'.
  split; [exact E|]. split; [exact Ec1|].
  split; [rewrite Ec; reflexivity|]. split; [reflexivity|].
  intros agent_id code. eapply predict_hooked;
    [exact H1|reflexivity|exact V1|exact N1].
Qed.

End WithNet.

Definition toy_net := OverseerTheorems.toy_net.

(** A mechanism on the toy network that already holds a vector. *)
Definition primed : SteeringMechanism toy_net :=
  @mkSteering toy_net (Some 3%Z) None 1.

Lemma tokenize_pads_and_truncates_witness :
  exists tokens,
    _tokenize_code toy_net new_recommender (str "pass") = Ok tokens /\
    length tokens = 50 /\
    tokens = map (token_of toy_net new_recommender) (firstn 50 (str "pass"))
             ++ repeat 0%Z (50 - length (str "pass")).
Proof.
  apply (tokenize_pads_and_truncates toy_net new_recommender (str "pass")).
  discriminate.
Defined.

Lemma predict_reads_first_fifty_characters_witness :
  snd (predict toy_net new_recommender primed 7
         (repeat "a"%char 50 ++ str "_x")) =
  snd (predict toy_net new_recommender primed 7
         (repeat "a"%char 50 ++ str "Yz")).
Proof.
  apply (predict_reads_first_fifty_characters toy_net new_recommender primed
           7 (repeat "a"%char 50 ++ str "_x")
           (repeat "a"%char 50 ++ str "Yz")).
  reflexivity.
Defined.

Lemma top_k_agents_ranked_witness :
  exists top,
    snd (get_top_k_agents toy_net new_recommender primed [1; 2; 3]%Z
           [str "a"; str "bb"] 5) = Ok top /\
    length top = Nat.min 5 (Nat.min 3 2) /\
    StronglySorted (EvolutionMore.at_least snd) top /\
    forall p, In p top ->
      exists code,
        In (fst p, code) (combine [1; 2; 3]%Z [str "a"; str "bb"]) /\
        snd (predict toy_net new_recommender primed (fst p) code) =
          Ok (snd p).
Proof.
  apply (top_k_agents_ranked toy_net new_recommender primed [1; 2; 3]%Z
           [str "a"; str "bb"] 5); reflexivity.
Defined.

Lemma repeated_steering_keeps_last_witness :
  exists r' s',
    apply_steering_all toy_net primed new_recommender ([1; 2] ++ [5])%Q =
      Ok (r', s') /\
    pre_hooks r' = [(next_handle new_recommender + 2, 5%Q)] /\
    hook_handle s' = Some (next_handle new_recommender + 2) /\
    steering_coefficient s' = 5%Q /\
    forall agent_id code,
      snd (predict toy_net r' s' agent_id code) =
      (a <- activations toy_net new_recommender agent_id code ;;
       Ok (scorer toy_net (act_sub toy_net a (act_scale toy_net 5 3%Z)))).
Proof.
  apply (repeated_steering_keeps_last toy_net new_recommender primed 3%Z
           [1; 2]%Q 5%Q); reflexivity.
Defined.

Lemma installed_hook_follows_recomputed_vector_witness :
  exists r1 s1 r2 s2 v',
    apply_steering toy_net primed new_recommender 5 = Ok (r1, s1) /\
    compute_collusion_vector toy_net s1 r1 [str "def a_b():"]
      [str "def ab():"] = (r2, s2, Ok v') /\
    snd (compute_collusion_vector toy_net primed new_recommender
           [str "def a_b():"] [str "def ab():"]) = Ok v' /\
    pre_hooks r2 = pre_hooks r1 /\
    forall agent_id code,
      snd (predict toy_net r2 s2 agent_id code) =
      (a <- activations toy_net new_recommender agent_id code ;;
       Ok (scorer toy_net (act_sub toy_net a (act_scale toy_net 5 v')))).
Proof.
  apply (installed_hook_follows_recomputed_vector toy_net new_recommender
           primed 3%Z 5%Q [str "def a_b():"] [str "def ab():"]);
    [reflexivity|reflexivity|reflexivity|reflexivity
    |discriminate|discriminate].
Defined.

End OverseerMoreTheorems.

(* ------------------------------------------------------------------ *)
(** ** The simulation step *)
(* ------------------------------------------------------------------ *)

Module EngineMore.
Import Py Channels Worker WorkerMore Environment Overseer OverseerMore Engine.

Definition task_pool : list text :=
  [ str "Implement a sorting algorithm";
    str "Write a function to parse JSON";
    str "Create a binary search tree";
    str "Implement a hash table";
    str "Write a recursive fibonacci function";
    str "Create a linked list data structure";
    str "Implement breadth-first search";
    str "Write a function to validate parentheses";
    str "Create a queue using stacks";
    str "Implement merge sort" ].

(** The draws of one pass through the action loop of [step], in the order
    the code asks for them: [random.choice(self.task_pool)], the clock read
    by the new [Commit], [random.uniform] inside [submit_commit], and
    [random.random()]. *)
Record ActionDraw := mkActionDraw {
  task_pick : nat;
  now : Z;
  utility_gain : Q;
  pass_roll : Q
}.

(** An entry of [step_results]. *)
Record StepResult := mkStepResult {
  result_agent_id : text;
  result_task : text;
  passed : bool;
  result_credits : Q
}.

(** What [step] returns, without the step counter and the training loss. *)
Record StepStats := mkStepStats {
  selected_agents : nat;
  results : list StepResult;
  repository_utility : Q;
  total_agents : nat
}.

(** The objects the engine holds; [heap] is the store of [Commit]
    objects. *)
Record World := mkWorld {
  agents : list BaseWorker;
  heap : store;
  repository : SharedRepository;
  recommender : Recommender
}.

Section WithNet.
Variable net : Net.

(** One pass through [for idx in top_indices[:self.top_k]]. *)
Definition act (w : World) (idx : nat) (d : ActionDraw)
    : result (World * StepResult) :=
  match nth_error (agents w) idx with
  | None => Raise IndexError
  | Some agent =>
      let task := Evolution.choice [] task_pool (task_pick d) in
      let code := generate_code agent task in
      let commit := length (heap w) in
      let h0 :=
        heap w ++ [mkCommit (worker_id agent) code (now d) None None] in
      let '(h1, repo1, _) :=
        submit_commit h0 (repository w) commit (utility_gain d) in
      let passed := negb (Qle_bool (pass_roll d) (3 # 10)) in
      let agent1 :=
        if passed
        then update_memory (earn_credits agent 1) code true (Some task)
        else update_memory (fst (spend_credits agent 1)) code false
                           (Some task) in
      r1 <- add_training_sample net (recommender w)
              (hash_str net (worker_id agent1)) code passed ;;
      Ok (mkWorld (list_set (agents w) idx agent1) h1 repo1 r1,
          mkStepResult (worker_id agent1) task passed (credits agent1))
  end.

Fixpoint act_all (rnd : nat -> ActionDraw) (pass : nat) (w : World)
    (indices : list nat) : result (World * list StepResult) :=
  match indices with
  | [] => Ok (w, [])
  | idx :: rest =>
      match act w idx (rnd pass) with
      | Raise e => Raise e
      | Ok (w1, res) =>
          match act_all rnd (S pass) w1 rest with
          | Raise e => Raise e
          | Ok (w2, step_results) => Ok (w2, res :: step_results)
          end
      end
  end.

(** [step] up to its statistics: assignment, action, evaluation and
    reward.  The observation of the recent commits has no effect, and the
    periodic training changes the parameters of the network only. *)
Definition step (w : World) (s : SteeringMechanism net) (top_k : nat)
    (rnd : nat -> ActionDraw) : result (World * StepStats) :=
  let (r', assignment) :=
    step_assignment net (recommender w) s (agents w) top_k in
  match assignment with
  | Raise e => Raise e
  | Ok top_indices =>
      let w0 := mkWorld (agents w) (heap w) (repository w) r' in
      match act_all rnd 0 w0 (firstn top_k top_indices) with
      | Raise e => Raise e
      | Ok (w1, step_results) =>
          Ok (w1, mkStepStats (length top_indices) step_results
                    (global_utility (repository w1)) (length (agents w1)))
      end
  end.

End WithNet.

End EngineMore.

Module EngineMoreTheorems.
Import Py Channels Worker WorkerMore Environment Overseer OverseerFacts.
Import OverseerMore Engine EngineMore.

Lemma find_agent_some net key agents :
  In key (agent_ids net agents) ->
  exists i, find_agent net key agents = Some i /\ i < length agents.
Proof.
  induction agents as [|a t IH]; cbn [agent_ids map In find_agent length];
    [tauto|].
  intros H.
  destruct (Z.eqb_spec (hash_str net (worker_id a)) key) as [E|N].
  - exists 0. split; [reflexivity|lia].
  - destruct H as [H|H]; [contradiction|].
    destruct (IH H) as (i & -> & Hi). exists (S i).
    split; [reflexivity|lia].
Qed.

Lemma top_indices_found net agents info :
  (forall p, In p info -> In (fst p) (agent_ids net agents)) ->
  length (top_indices net agents info) = length info /\
  forall i, In i (top_indices net agents info) -> i < length agents.
Proof.
  unfold top_indices. induction info as [|p t IH]; intros H;
    cbn [flat_map length]; [split; [reflexivity|intros i []]|].
  destruct (find_agent_some net (fst p) agents) as (i & -> & Hi);
    [apply H; left; reflexivity|].
  destruct IH as [L B]; [intros q Hq; apply H; right; exact Hq|].
  cbn [app length]. split; [rewrite L; reflexivity|].
  intros j [<-|Hj]; [exact Hi|apply B, Hj].
Qed.

Lemma step_assignment_spec net r s agents top_k :
  (0 < vocab_size r)%Z -> (0 < num_agents r)%Z ->
  exists r' idxs,
    step_assignment net r s agents top_k = (r', Ok idxs) /\
    vocab_size r' = vocab_size r /\
    training_buffer r' = training_buffer r /\
    length idxs = Nat.min top_k (length agents) /\
    forall i, In i idxs -> i < length agents.
Proof.
  intros Hv Hn. unfold step_assignment, get_top_k_agents.
  destruct (OverseerMoreTheorems.score_all_spec net s
              (combine (agent_ids net agents) (agent_codes agents)) r Hv Hn)
    as (r' & scores & -> & S' & F).
  cbn [bind].
  destruct (top_indices_found net agents
              (firstn top_k (sorted_desc snd scores))) as [L B].
  { intros p Hp. apply in_firstn, PyFacts.sorted_desc_in in Hp.
    destruct (OverseerMoreTheorems.forall2_in_r _ _ _ _ F Hp)
      as (pair & Hin & E1 & _).
    rewrite E1. destruct pair as [key code]. eapply in_combine_l, Hin. }
  do 2 eexists. split; [reflexivity|].
  split; [exact (f_equal vocab_size S')|].
  split; [exact (f_equal training_buffer S')|].
  split; [|exact B].
  rewrite L, length_firstn, PyFacts.sorted_desc_length.
  rewrite <- (Forall2_length F), length_combine.
  unfold agent_ids, agent_codes. rewrite !length_map, Nat.min_id.
  reflexivity.
Qed.

(** X29: with valid sizes the assignment phase of [step] returns
    [min top_k (len agents)] slots, whatever the scores are; every slot is
    an index of the population, and the slice [top_indices[:self.top_k]]
    keeps all of them. *)
Theorem step_selects_min_topk
    (net : Net) (r : Recommender) (s : SteeringMechanism net)
    (agents : list BaseWorker) (top_k : nat) :
  (0 < vocab_size r)%Z -> (0 < num_agents r)%Z ->
  exists top_indices,
    snd (step_assignment net r s agents top_k) = Ok top_indices /\
    length top_indices = Nat.min top_k (length agents) /\
    firstn top_k top_indices = top_indices /\
    forall idx, In idx top_indices -> idx < length agents.
Proof.
  intros Hv Hn.
  destruct (step_assignment_spec net r s agents top_k Hv Hn)
    as (r' & idxs & E & _ & _ & L & B).
  exists idxs. rewrite E. split; [reflexivity|]. split; [exact L|].
  split; [apply firstn_all2; lia|exact B].
Qed.

(** What the action loop has done to the engine after acting on the slots
    [touched]. *)
Definition advanced (touched : list nat) (w w' : World) : Prop :=
  map worker_id (agents w') = map worker_id (agents w) /\
  map preferred_style (agents w') = map preferred_style (agents w) /\
  length (commits (repository w')) =
    length (commits (repository w)) + length touched /\
  _next_commit_id (repository w') =
    (_next_commit_id (repository w) + Z.of_nat (length touched))%Z /\
  length (training_buffer (recommender w')) =
    length (training_buffer (recommender w)) + length touched /\
  vocab_size (recommender w') = vocab_size (recommender w) /\
  ((forall a, In a (agents w) -> (0 <= credits a)%Q) ->
   forall a, In a (agents w') -> (0 <= credits a)%Q) /\
  (forall i, ~ In i touched ->
     nth_error (agents w') i = nth_error (agents w) i).

Lemma map_list_set {A B} (f : A -> B) l idx x a :
  nth_error l idx = Some a -> f x = f a ->
  map f (list_set l idx x) = map f l.
Proof.
  revert idx. induction l as [|b l IH]; intros [|idx]; cbn; try discriminate.
  - intros H E. inversion H; subst. rewrite E. reflexivity.
  - intros H E. rewrite (IH idx H E). reflexivity.
Qed.

(** The reward of [step] keeps the identity and the style of the agent and
    does not take its credits below zero. *)
Lemma reward_facts agent code task (passed : bool) :
  let agent1 :=
    if passed
    then update_memory (earn_credits agent 1) code true task
    else update_memory (fst (spend_credits agent 1)) code false task in
  worker_id agent1 = worker_id agent /\
  preferred_style agent1 = preferred_style agent /\
  ((0 <= credits agent)%Q -> (0 <= credits agent1)%Q).
Proof.
  destruct passed; cbv zeta.
  - unfold update_memory, earn_credits, with_credits.
    cbn [worker_id preferred_style credits].
    split; [reflexivity|]. split; [reflexivity|]. intros H. lra.
  - unfold update_memory, spend_credits, with_credits.
    destruct (Qle_bool 1 (credits agent)) eqn:E;
      cbn [fst worker_id preferred_style credits];
      (split; [reflexivity|]); (split; [reflexivity|]); intros H;
      [|exact H].
    apply Qle_bool_iff in E. lra.
Qed.

Lemma advanced_nil w : advanced [] w w.
Proof.
  unfold advanced. cbn [length Z.of_nat].
  rewrite !Nat.add_0_r, Z.add_0_r. repeat split; auto.
Qed.

Lemma advanced_trans l1 l2 w w1 w2 :
  advanced l1 w w1 -> advanced l2 w1 w2 -> advanced (l1 ++ l2) w w2.
Proof.
  intros (A1 & A2 & A3 & A4 & A5 & A6 & A7 & A8)
         (B1 & B2 & B3 & B4 & B5 & B6 & B7 & B8).
  unfold advanced. rewrite length_app, Nat2Z.inj_add.
  split; [congruence|]. split; [congruence|]. split; [lia|].
  split; [lia|]. split; [lia|]. split; [congruence|].
  split; [auto|].
  intros i Hi. rewrite B8, A8; [reflexivity| |];
    intros F; apply Hi, in_or_app; auto.
Qed.

Lemma act_spec net w idx d :
  idx < length (agents w) -> (0 < vocab_size (recommender w))%Z ->
  exists w1 res, act net w idx d = Ok (w1, res) /\ advanced [idx] w w1.
Proof.
  intros Hi Hv. unfold act.
  destruct (nth_error (agents w) idx) as [agent|] eqn:E;
    [|apply nth_error_None in E; lia].
  set (task := Evolution.choice [] task_pool (task_pick d)).
  set (code := generate_code agent task).
  set (passed := negb (Qle_bool (pass_roll d) (3 # 10))).
  destruct (reward_facts agent code (Some task) passed) as (W & P & C).
  cbv zeta in W, P, C.
  set (agent1 := if passed
                 then update_memory (earn_credits agent 1) code true
                                    (Some task)
                 else update_memory (fst (spend_credits agent 1)) code false
                                    (Some task)) in *.
  unfold submit_commit, add_training_sample.
  destruct (tokenize_ok net (recommender w) code Hv) as (tokens & -> & _).
  cbn [bind]. do 2 eexists. split; [reflexivity|].
  unfold advanced.
  cbn [agents repository recommender commits _next_commit_id
       training_buffer vocab_size length Z.of_nat Pos.of_succ_nat].
  rewrite !length_app. cbn [length].
  split; [apply (map_list_set worker_id _ _ _ agent E W)|].
  split; [apply (map_list_set preferred_style _ _ _ agent E P)|].
  split; [reflexivity|]. split; [reflexivity|]. split; [reflexivity|].
  split; [reflexivity|]. split.
  - intros H a Ha. apply EvolutionMore.list_set_in in Ha as [->|Ha];
      [|apply H, Ha].
    apply C, H. eapply nth_error_In, E.
  - intros i Hn. apply EvolutionMore.list_set_other.
    intros ->. apply Hn. left. reflexivity.
Qed.

Lemma act_all_spec net rnd indices :
  forall pass w,
  (forall i, In i indices -> i < length (agents w)) ->
  (0 < vocab_size (recommender w))%Z ->
  exists w' step_results,
    act_all net rnd pass w indices = Ok (w', step_results) /\
    length step_results = length indices /\
    advanced indices w w'.
Proof.
  induction indices as [|idx rest IH]; intros pass w B Hv; cbn [act_all].
  - exists w, []. split; [reflexivity|]. split; [reflexivity|].
    apply advanced_nil.
  - destruct (act_spec net w idx (rnd pass)) as (w1 & res & -> & A);
      [apply B; left; reflexivity|exact Hv|].
    pose proof A as (A1 & _ & _ & _ & _ & A6 & _).
    assert (L : length (agents w1) = length (agents w)).
    { rewrite <- (length_map worker_id (agents w1)), A1.
      apply length_map. }
    destruct (IH (S pass) w1) as (w' & step_results & -> & Lr & A');
      [intros i Hin; rewrite L; apply B; right; exact Hin
      |rewrite A6; exact Hv|].
    exists w', (res :: step_results). split; [reflexivity|].
    split; [cbn [length]; rewrite Lr; reflexivity|].
    apply (advanced_trans [idx] rest w w1 w' A A').
Qed.

(** X30: with valid sizes a step returns, and with [m = min top_k (len
    agents)]: it reports [m] selected agents and [m] results; the
    population keeps its size, its identifiers and its styles in every
    slot; the repository gains [m] commits and the training buffer [m]
    samples; agents in slots that were not selected are unchanged; and if
    no agent had negative credits before the step, none has afterwards. *)
Theorem step_effect
    (net : Net) (w : World) (s : SteeringMechanism net) (top_k : nat)
    (rnd : nat -> ActionDraw) :
  (0 < vocab_size (recommender w))%Z ->
  (0 < num_agents (recommender w))%Z ->
  exists w' stats top_indices,
    step net w s top_k rnd = Ok (w', stats) /\
    snd (step_assignment net (recommender w) s (agents w) top_k) =
      Ok top_indices /\
    let m := Nat.min top_k (length (agents w)) in
    selected_agents stats = m /\
    length (results stats) = m /\
    total_agents stats = length (agents w) /\
    repository_utility stats = global_utility (repository w') /\
    map worker_id (agents w') = map worker_id (agents w) /\
    map preferred_style (agents w') = map preferred_style (agents w) /\
    length (commits (repository w')) =
      length (commits (repository w)) + m /\
    _next_commit_id (repository w') =
      (_next_commit_id (repository w) + Z.of_nat m)%Z /\
    length (training_buffer (recommender w')) =
      length (training_buffer (recommender w)) + m /\
    (forall i, ~ In i top_indices ->
       nth_error (agents w') i = nth_error (agents w) i) /\
    ((forall a, In a (agents w) -> (0 <= credits a)%Q) ->
     forall a, In a (agents w') -> (0 <= credits a)%Q).
Proof.
  intros Hv Hn. unfold step.
  destruct (step_assignment_spec net (recommender w) s (agents w) top_k
              Hv Hn) as (r' & idxs & -> & Sv & Sb & L & B).
  rewrite (firstn_all2 idxs) by lia.
  destruct (act_all_spec net rnd idxs 0
              (mkWorld (agents w) (heap w) (repository w) r'))
    as (w' & step_results & -> & Lr & A1 & A2 & A3 & A4 & A5 & _ & A7 & A8);
    [exact B|cbn [recommender]; rewrite Sv; exact Hv|].
  cbn [agents repository recommender] in *.
  exists w', (mkStepStats (length idxs) step_results
                (global_utility (repository w')) (length (agents w'))), idxs.
  split; [reflexivity|]. split; [reflexivity|].
  cbn [selected_agents results total_agents repository_utility].
  rewrite <- L.
  split; [reflexivity|]. split; [exact Lr|].
  split; [rewrite <- (length_map worker_id (agents w')), A1;
          apply length_map|].
  split; [reflexivity|]. split; [exact A1|]. split; [exact A2|].
  split; [exact A3|]. split; [exact A4|].
  split; [rewrite A5, Sb; reflexivity|]. split; [exact A8|exact A7].
Qed.

(** A small engine: two workers, one of them without credits. *)
Definition toy_world : World :=
  mkWorld [ new_worker (str "worker_0") 100 10 neutral;
            new_worker (str "worker_1") 0 10 snake_case ]
          [] new_repository new_recommender.

Definition toy_draws (pass : nat) : ActionDraw :=
  mkActionDraw pass 0 1 (if Nat.even pass then 1 # 10 else 9 # 10).

Lemma step_selects_min_topk_witness :
  exists top_indices,
    snd (step_assignment OverseerTheorems.toy_net new_recommender
           (new_steering OverseerTheorems.toy_net) (agents toy_world) 5) =
      Ok top_indices /\
    length top_indices = Nat.min 5 (length (agents toy_world)) /\
    firstn 5 top_indices = top_indices /\
    forall idx, In idx top_indices -> idx < length (agents toy_world).
Proof.
  apply (step_selects_min_topk OverseerTheorems.toy_net new_recommender
           (new_steering OverseerTheorems.toy_net) (agents toy_world) 5);
    reflexivity.
Defined.

Lemma step_effect_witness :
  exists w' stats top_indices,
    step OverseerTheorems.toy_net toy_world
      (new_steering OverseerTheorems.toy_net) 5 toy_draws = Ok (w', stats) /\
    snd (step_assignment OverseerTheorems.toy_net (recommender toy_world)
           (new_steering OverseerTheorems.toy_net) (agents toy_world) 5) =
      Ok top_indices /\
    let m := Nat.min 5 (length (agents toy_world)) in
    selected_agents stats = m /\
    length (results stats) = m /\
    total_agents stats = length (agents toy_world) /\
    repository_utility stats = global_utility (repository w') /\
    map worker_id (agents w') = map worker_id (agents toy_world) /\
    map preferred_style (agents w') =
      map preferred_style (agents toy_world) /\
    length (commits (repository w')) =
      length (commits (repository toy_world)) + m /\
    _next_commit_id (repository w') =
      (_next_commit_id (repository toy_world) + Z.of_nat m)%Z /\
    length (training_buffer (recommender w')) =
      length (training_buffer (recommender toy_world)) + m /\
    (forall i, ~ In i top_indices ->
       nth_error (agents w') i = nth_error (agents toy_world) i) /\
    ((forall a, In a (agents toy_world) -> (0 <= credits a)%Q) ->
     forall a, In a (agents w') -> (0 <= credits a)%Q).
Proof.
  apply (step_effect OverseerTheorems.toy_net toy_world
           (new_steering OverseerTheorems.toy_net) 5 toy_draws);
    reflexivity.
Defined.

End EngineMoreTheorems.

(* ------------------------------------------------------------------ *)
(** ** The keys the step hands to the trust model *)
(* ------------------------------------------------------------------ *)

Module EngineKeyTheorems.
Import Py Channels Worker Overseer OverseerFacts OverseerMore Engine.

(** Python's [hash] returns a machine word: its values lie in a bounded
    range. *)
Definition hash_bounded (net : Net) : Prop :=
  exists bound : Z, forall t : text, (- bound <= hash_str net t < bound)%Z.

(** Two workers that differ in their identifier only. *)
Definition pair_of_workers (id1 id2 : text) : list BaseWorker :=
  [ new_worker id1 100 10 neutral; new_worker id2 100 10 neutral ].

Lemma in_combine_maps {A B C} (f : A -> B) (g : A -> C) l x y :
  In (x, y) (combine (map f l) (map g l)) ->
  exists a, In a l /\ x = f a /\ y = g a.
Proof.
  induction l as [|a l IH]; cbn [map combine In]; [tauto|].
  intros [H|H].
  - inversion H. exists a. auto.
  - destruct (IH H) as (b & Hb & E). exists b. tauto.
Qed.

(** The call [self.recommender.get_top_k_agents(agent_ids, agent_codes,
    self.top_k)] of [step]. *)
Lemma step_ranking_spec net r s agents top_k :
  (0 < vocab_size r)%Z -> (0 < num_agents r)%Z ->
  exists r' ranking,
    get_top_k_agents net r s (agent_ids net agents) (agent_codes agents)
      top_k = (r', Ok ranking) /\
    length ranking = Nat.min top_k (length agents) /\
    forall key score, In (key, score) ranking ->
      exists a, In a agents /\ key = hash_str net (worker_id a) /\
        snd (predict net r s (hash_str net (worker_id a)) (last_code a)) =
          Ok score.
Proof.
  intros Hv Hn. unfold get_top_k_agents.
  destruct (OverseerMoreTheorems.score_all_spec net s
              (combine (agent_ids net agents) (agent_codes agents)) r Hv Hn)
    as (r' & scores & -> & _ & F).
  cbn [bind]. do 2 eexists. split; [reflexivity|]. split.
  - rewrite length_firstn, PyFacts.sorted_desc_length.
    rewrite <- (Forall2_length F), length_combine.
    unfold agent_ids, agent_codes. rewrite !length_map, Nat.min_id.
    reflexivity.
  - intros key score Hin.
    apply in_firstn, PyFacts.sorted_desc_in in Hin.
    destruct (OverseerMoreTheorems.forall2_in_r _ _ _ _ F Hin)
      as ([k code] & Hp & E1 & E2).
    cbn [fst snd] in E1, E2. subst k.
    apply in_combine_maps in Hp as (a & Ha & -> & ->).
    exists a. auto.
Qed.

Lemma selected_slot_is_first net agents ranking idx :
  In idx (top_indices net agents ranking) ->
  exists a,
    nth_error agents idx = Some a /\
    In (hash_str net (worker_id a)) (map fst ranking) /\
    forall j b, j < idx -> nth_error agents j = Some b ->
      hash_str net (worker_id b) <> hash_str net (worker_id a).
Proof.
  intros Hin. unfold top_indices in Hin.
  apply in_flat_map in Hin as ([key sc] & Hk & Hi). cbn [fst] in Hi.
  destruct (find_agent net key agents) as [i|] eqn:E; [|contradiction].
  destruct Hi as [<-|[]].
  destruct (EngineTheorems.find_agent_first net key agents i E)
    as [(a & Ha & Hh) Hfirst].
  exists a. subst key. split; [exact Ha|]. split; [|exact Hfirst].
  apply in_map_iff. exists (hash_str net (worker_id a), sc). auto.
Qed.

(** Counting: among more identifiers than the range of the hash has
    values, two have the same hash. *)
Lemma collide_in_list {A} (f : A -> Z) (l : list A) :
  NoDup l -> ~ NoDup (map f l) ->
  exists x y, In x l /\ In y l /\ x <> y /\ f x = f y.
Proof.
  induction l as [|a l IH]; intros Hl Hm; cbn [map] in Hm.
  - exfalso. apply Hm. constructor.
  - inversion Hl as [|? ? Ha Hl']; subst.
    destruct (in_dec Z.eq_dec (f a) (map f l)) as [Hin|Hout].
    + apply in_map_iff in Hin as (y & Ey & Hy).
      exists a, y. cbn [In]. repeat split; auto.
      intros ->. contradiction.
    + destruct (IH Hl') as (x & y & Hx & Hy & Hne & E).
      * intros Hnd. apply Hm. constructor; assumption.
      * exists x, y. cbn [In]. auto.
Qed.

Lemma hash_collision net :
  hash_bounded net ->
  exists id1 id2, id1 <> id2 /\ hash_str net id1 = hash_str net id2.
Proof.
  intros [bound H].
  set (n := Z.to_nat (2 * bound)).
  set (names := map (fun k => repeat "a"%char k) (seq 0 (S n))).
  assert (Hn : NoDup names).
  { apply (NoDup_map_inv (@length ascii)). unfold names.
    rewrite map_map. erewrite map_ext; [|intros k; apply repeat_length].
    rewrite map_id. apply seq_NoDup. }
  destruct (collide_in_list (hash_str net) names Hn)
    as (x & y & _ & _ & Hne & E); [|eauto].
  intros Hnd.
  assert (L : length (map (hash_str net) names) <=
              length (map (fun k => (Z.of_nat k - bound)%Z) (seq 0 n))).
  { apply NoDup_incl_length; [exact Hnd|].
    intros v Hv. apply in_map_iff in Hv as (t & <- & _).
    apply in_map_iff. exists (Z.to_nat (hash_str net t + bound)).
    specialize (H t). split; [lia|]. apply in_seq. unfold n. lia. }
  unfold names in L. rewrite !length_map, !length_seq in L. lia.
Qed.

(** With colliding identifiers the ranking holds one key twice and the
    step selects the first of the two agents twice, the second never. *)
Lemma colliding_identifiers_share_a_slot net (s : SteeringMechanism net)
    id1 id2 :
  hash_str net id1 = hash_str net id2 ->
  exists r' x y,
    get_top_k_agents net new_recommender s
      (agent_ids net (pair_of_workers id1 id2))
      (agent_codes (pair_of_workers id1 id2)) 2 =
      (r', Ok [(hash_str net id1, x); (hash_str net id1, y)]) /\
    step_assignment net new_recommender s (pair_of_workers id1 id2) 2 =
      (r', Ok [0; 0]).
Proof.
  intros E.
  destruct (step_ranking_spec net new_recommender s
              (pair_of_workers id1 id2) 2)
    as (r' & ranking & Er & L & K); [reflexivity|reflexivity|].
  assert (Hk : forall p, In p ranking -> fst p = hash_str net id1).
  { intros [key score] Hp. destruct (K key score Hp) as (a & Ha & -> & _).
    destruct Ha as [<-|[<-|[]]]; cbn [fst worker_id new_worker]; congruence. }
  destruct ranking as [|[k1 x] [|[k2 y] [|? ?]]]; try discriminate L.
  pose proof (Hk (k1, x) (or_introl eq_refl)) as E1.
  pose proof (Hk (k2, y) (or_intror (or_introl eq_refl))) as E2.
  cbn [fst] in E1, E2. subst k1 k2.
  exists r', x, y. split; [exact Er|].
  unfold step_assignment. rewrite Er. cbn [bind].
  unfold top_indices, pair_of_workers.
  cbn [flat_map fst find_agent worker_id new_worker app].
  rewrite Z.eqb_refl. reflexivity.
Qed.

(** C2, as stated, fails.  The key of an agent is the hash of its
    identifier, and a hash with a bounded range cannot keep the keys of all
    agents apart: whatever the hash function, there is a population of two
    agents with different identifiers for which the call of
    [get_top_k_agents] made by the step receives and ranks one key twice,
    and the step then selects the first agent twice and the second never. *)
Lemma no_bounded_hash_keeps_agent_keys_distinct :
  ~ exists net : Net,
      hash_bounded net /\
      forall (s : SteeringMechanism net) (agents : list BaseWorker)
             (ranking : list (Z * Q)) (top_indices : list nat),
        NoDup (map worker_id agents) ->
        snd (get_top_k_agents net new_recommender s (agent_ids net agents)
               (agent_codes agents) (length agents)) = Ok ranking ->
        snd (step_assignment net new_recommender s agents (length agents)) =
          Ok top_indices ->
        NoDup (map fst ranking) \/ NoDup top_indices.
Proof.
  intros (net & Hb & Hclaim).
  destruct (hash_collision net Hb) as (id1 & id2 & Hne & E).
  destruct (colliding_identifiers_share_a_slot net (new_steering net)
              id1 id2 E) as (r' & x & y & Er & Es).
  destruct (Hclaim (new_steering net) (pair_of_workers id1 id2)
              [(hash_str net id1, x); (hash_str net id1, y)] [0; 0])
    as [Hd|Hd].
  - constructor; [|constructor; [intros []|constructor]].
    intros [H|[]]. apply Hne. symmetry. exact H.
  - cbn [pair_of_workers length]. rewrite Er. reflexivity.
  - cbn [pair_of_workers length]. rewrite Es. reflexivity.
  - cbn [map fst] in Hd. inversion Hd as [|? ? Hin _]; subst.
    apply Hin. left. reflexivity.
  - inversion Hd as [|? ? Hin _]; subst. apply Hin. left. reflexivity.
Qed.

(** C2, amended: in every step with valid sizes the engine calls
    [get_top_k_agents] with the keys [hash(agent.worker_id)], one per agent
    in population order, computed in that step from the identifier the
    agent then carries, and with each agent's last code.  Every entry of
    the ranking is such a key with the prediction for that key and that
    agent's code; a ranked key selects the first agent of the population
    whose identifier hashes to it, so an agent whose identifier has the
    same hash as that of an earlier agent is never selected. *)
Theorem step_keys_are_identifier_hashes
    (net : Net) (r : Recommender) (s : SteeringMechanism net)
    (agents : list BaseWorker) (top_k : nat) :
  (0 < vocab_size r)%Z -> (0 < num_agents r)%Z ->
  exists r' ranking,
    get_top_k_agents net r s
      (map (fun a => hash_str net (worker_id a)) agents)
      (map last_code agents) top_k = (r', Ok ranking) /\
    step_assignment net r s agents top_k =
      (r', Ok (top_indices net agents ranking)) /\
    (forall key score, In (key, score) ranking ->
       exists a, In a agents /\ key = hash_str net (worker_id a) /\
         snd (predict net r s (hash_str net (worker_id a)) (last_code a)) =
           Ok score) /\
    (forall idx, In idx (top_indices net agents ranking) ->
       exists a,
         nth_error agents idx = Some a /\
         In (hash_str net (worker_id a)) (map fst ranking) /\
         forall j b, j < idx -> nth_error agents j = Some b ->
           hash_str net (worker_id b) <> hash_str net (worker_id a)) /\
    (forall i j a b,
       i < j -> nth_error agents i = Some a -> nth_error agents j = Some b ->
       hash_str net (worker_id a) = hash_str net (worker_id b) ->
       ~ In j (top_indices net agents ranking)).
Proof.
  intros Hv Hn.
  destruct (step_ranking_spec net r s agents top_k Hv Hn)
    as (r' & ranking & Er & _ & K).
  exists r', ranking. split; [exact Er|]. split.
  - unfold step_assignment. rewrite Er. reflexivity.
  - split; [exact K|]. split; [apply selected_slot_is_first|].
    intros i j a b Hij Ha Hb E Hin.
    destruct (selected_slot_is_first net agents ranking j Hin)
      as (b' & Hb' & _ & Hfirst).
    rewrite Hb in Hb'. inversion Hb'; subst b'.
    exact (Hfirst i a Hij Ha E).
Qed.

Lemma step_keys_are_identifier_hashes_witness :
  let net := OverseerTheorems.toy_net in
  let agents := pair_of_workers (str "worker_0") (str "worker_1") in
  exists r' ranking,
    get_top_k_agents net new_recommender (new_steering net)
      (map (fun a => hash_str net (worker_id a)) agents)
      (map last_code agents) 5 = (r', Ok ranking) /\
    step_assignment net new_recommender (new_steering net) agents 5 =
      (r', Ok (top_indices net agents ranking)) /\
    (forall i j a b,
       i < j -> nth_error agents i = Some a -> nth_error agents j = Some b ->
       hash_str net (worker_id a) = hash_str net (worker_id b) ->
       ~ In j (top_indices net agents ranking)).
Proof.
  cbv zeta.
  destruct (step_keys_are_identifier_hashes OverseerTheorems.toy_net
              new_recommender (new_steering OverseerTheorems.toy_net)
              (pair_of_workers (str "worker_0") (str "worker_1")) 5)
    as (r' & ranking & E1 & E2 & _ & _ & E5);
    [reflexivity|reflexivity|].
  exists r', ranking. split; [exact E1|]. split; [exact E2|exact E5].
Defined.

End EngineKeyTheorems.
